(** * dbmaker: lexicon database builder and schema migrator

    A shallow embedding of package [dbmaker] (the Go source that builds the
    SQLite word database of a lexicon and migrates older databases), with
    the properties of its build pipeline and of its migration state
    machine.

    Layout:
    - [Go]: the Go built-ins the package relies on (strings as byte
      sequences, UTF-8 decoding behind [[]rune(s)] and [range s],
      [strings.Contains], [strings.Join], fixed-width counters);
    - the dataset (tables, statements) and a process working on it
      (session, outcome, log);
    - [Sample]: a small concrete lexical engine used to run the model;
    - section [Dbmaker]: the package itself, over the external lexical
      engine and over an environment that decides which database
      operations fail;
    - the vocabulary of the properties, sample lexica and datasets;
    - the properties, and runs of the model on the samples. *)

From Stdlib Require Import ZArith Strings.Ascii Strings.String.
From stdpp Require Import gmap strings list sorting.

Local Open Scope string_scope.
Local Open Scope list_scope.
Local Open Scope Z_scope.

(* ===================================================================== *)
(** ** Go built-ins *)
(* ===================================================================== *)

Module Go.

(** A Go [string] is a sequence of bytes; [string] of the standard
    library is one (an [ascii] is a byte). *)
Definition byte_of (c : ascii) : Z := Z.of_N (N_of_ascii c).
Definition ascii_of (b : Z) : ascii := ascii_of_N (Z.to_N (b mod 256)).

Fixpoint bytes (s : string) : list Z :=
  match s with
  | EmptyString => []
  | String c s' => byte_of c :: bytes s'
  end.

Fixpoint of_bytes (bs : list Z) : string :=
  match bs with
  | [] => EmptyString
  | b :: bs' => String (ascii_of b) (of_bytes bs')
  end.

(** [len(s)]: the number of bytes. *)
Definition len (s : string) : Z := Z.of_nat (String.length s).

(** Unsigned fixed-width arithmetic wraps around. *)
Definition uint8 (z : Z) : Z := z mod 2 ^ 8.
Definition uint32 (z : Z) : Z := z mod 2 ^ 32.
(** Signed 64-bit [int]. *)
Definition int (z : Z) : Z := (z + 2 ^ 63) mod 2 ^ 64 - 2 ^ 63.

(** *** UTF-8 *)

Definition RuneError : Z := 0xFFFD.

Definition between (lo hi b : Z) : bool := (lo <=? b) && (b <=? hi).
Definition cont (b : Z) : bool := between 0x80 0xBF b.
Definition low6 (b : Z) : Z := Z.land b 0x3F.

(** The range the second byte must lie in, by leading byte
    (overlong forms, surrogates and values above U+10FFFF excluded). *)
Definition second_ok (b0 b1 : Z) : bool :=
  if b0 =? 0xE0 then between 0xA0 0xBF b1
  else if b0 =? 0xED then between 0x80 0x9F b1
  else if b0 =? 0xF0 then between 0x90 0xBF b1
  else if b0 =? 0xF4 then between 0x80 0x8F b1
  else cont b1.

(** [utf8.DecodeRuneInString]: the first rune of a non-empty byte
    sequence and its width; an invalid or truncated encoding yields
    [RuneError] of width 1. *)
Definition decodeRune (bs : list Z) : Z * nat :=
  match bs with
  | [] => (RuneError, 0%nat)
  | b0 :: t =>
    if b0 <? 0x80 then (b0, 1%nat)
    else if between 0xC2 0xDF b0 then
      match t with
      | b1 :: _ =>
        if cont b1
        then (Z.lor (Z.shiftl (Z.land b0 0x1F) 6) (low6 b1), 2%nat)
        else (RuneError, 1%nat)
      | _ => (RuneError, 1%nat)
      end
    else if between 0xE0 0xEF b0 then
      match t with
      | b1 :: b2 :: _ =>
        if second_ok b0 b1 && cont b2
        then (Z.lor (Z.shiftl (Z.land b0 0x0F) 12)
                (Z.lor (Z.shiftl (low6 b1) 6) (low6 b2)), 3%nat)
        else (RuneError, 1%nat)
      | _ => (RuneError, 1%nat)
      end
    else if between 0xF0 0xF4 b0 then
      match t with
      | b1 :: b2 :: b3 :: _ =>
        if second_ok b0 b1 && cont b2 && cont b3
        then (Z.lor (Z.shiftl (Z.land b0 0x07) 18)
                (Z.lor (Z.shiftl (low6 b1) 12)
                   (Z.lor (Z.shiftl (low6 b2) 6) (low6 b3))), 4%nat)
        else (RuneError, 1%nat)
      | _ => (RuneError, 1%nat)
      end
    else (RuneError, 1%nat)
  end.

(** Walks the bytes; [skip] counts the continuation bytes of the rune
    decoded last that are still to be passed over. *)
Fixpoint runes_go (skip : nat) (bs : list Z) : list Z :=
  match bs with
  | [] => []
  | _ :: t =>
    match skip with
    | S k => runes_go k t
    | O => let '(r, w) := decodeRune bs in r :: runes_go (Nat.pred w) t
    end
  end.

(** [[]rune(s)], also the runes visited by [for _, rn := range s]. *)
Definition runes (s : string) : list Z := runes_go 0 (bytes s).

(** [utf8.EncodeRune]: surrogates and out-of-range values are written
    as the encoding of [RuneError]. *)
Definition encodeRune (r : Z) : list Z :=
  if between 0 0x7F r then [r]
  else if between 0x80 0x7FF r then
    [Z.lor 0xC0 (Z.shiftr r 6); Z.lor 0x80 (low6 r)]
  else if (r <? 0) || (0x10FFFF <? r) || between 0xD800 0xDFFF r then
    [0xEF; 0xBF; 0xBD]
  else if r <=? 0xFFFF then
    [Z.lor 0xE0 (Z.shiftr r 12); Z.lor 0x80 (low6 (Z.shiftr r 6));
     Z.lor 0x80 (low6 r)]
  else
    [Z.lor 0xF0 (Z.shiftr r 18); Z.lor 0x80 (low6 (Z.shiftr r 12));
     Z.lor 0x80 (low6 (Z.shiftr r 6)); Z.lor 0x80 (low6 r)].

(** [string(rs)] for [rs []rune]. *)
Definition string_of_runes (rs : list Z) : string :=
  of_bytes (concat (encodeRune <$> rs)).

(** *** package strings *)

(** [strings.Contains(s, substr)]. *)
Fixpoint Contains (s substr : string) : bool :=
  String.prefix substr s ||
  match s with
  | EmptyString => false
  | String _ s' => Contains s' substr
  end.

(** [strings.Join(elems, sep)]. *)
Definition Join (elems : list string) (sep : string) : string :=
  String.concat sep elems.

(** *** Indexing a fixed-size array: [None] stands for the run-time
    panic "index out of range". *)
Definition index {A} (arr : list A) (i : nat) : option A := arr !! i.

End Go.

(* ===================================================================== *)
(** ** Types shared with the external packages *)
(* ===================================================================== *)

(** [alphabet.LetterDistribution] (package macondo): the two fields the
    package reads.  [PointValues] is a Go map from rune to [uint8], a
    missing key reads as 0; [Vowels] is a slice of runes. *)
Record alphabet_LetterDistribution := {
  PointValues : gmap Z Z;
  Vowels : list Z
}.

(** The hook kinds of package gaddag. *)
Inductive HookType := BackHooks | FrontHooks | BackInnerHook | FrontInnerHook.

(** The lexical engine and the library functions that depend on Unicode
    tables: everything the package calls and does not define. *)
Class Engine := {
  dawg : Type;
  difficulties : Type;
  (** [strings.Fields] and [strings.ToUpper] *)
  Fields : string → list string;
  ToUpper : string → string;
  (** [alphabet.Word{Word: w, Dist: dist}.MakeAlphagram()] *)
  MakeAlphagram : alphabet_LetterDistribution → string → string;
  (** [gaddag.FindWord], [gaddag.FindHooks], [gaddag.FindInnerHook] *)
  FindWord : dawg → string → bool;
  FindHooks : dawg → string → HookType → list Z;
  FindInnerHook : dawg → string → HookType → bool;
  (** [alphagramDifficulty], defined in another file of the package *)
  alphagramDifficulty : string → difficulties → Z
}.

Definition FamilyName := string.

(** The fields of [LexiconInfo] this file reads. *)
Record LexiconInfo `{Engine} := {
  LexiconFilename : string;
  Dawg : dawg;
  RDawg : dawg;
  Combinations : string → bool → Z;
  LetterDistribution : alphabet_LetterDistribution;
  Difficulties : difficulties
}.

Record Alphagram := {
  words : list string;
  combinations : Z;
  alphagram : string;
  wordCount : Z;
  uniqToLexSplit : Z;
  updateToLex : Z
}.

Global Instance Alphagram_eq_dec : EqDecision Alphagram.
Proof. solve_decision. Defined.

Definition CurrentVersion : Z := 6.

(** Modelled from the spec: the three provenance markers are constants
    declared outside [src/]; their values are the ones the comments on
    [containsWordUniqueToLexSplit] and [containsUpdateToLex] give
    ("$" for the TWL family, "#" for CSW, "+" for an update). *)
Definition LexiconUpdateSymbol : string := "+".
Definition CSWOnlySymbol : string := "#".
Definition TWLOnlySymbol : string := "$".

(* ===================================================================== *)
(** ** The dataset *)
(* ===================================================================== *)

(** A row of table [alphagrams].  The columns added by later schema
    versions are nullable: [None] is SQL NULL (or a column that does not
    exist yet). *)
Record AlphRow := {
  row_probability : Z;
  row_alphagram : string;
  row_length : Z;
  row_combinations : Z;
  row_num_anagrams : option Z;
  row_point_value : option Z;
  row_num_vowels : option Z;
  row_contains_word_uniq_to_lex_split : option Z;
  row_contains_update_to_lex : option Z;
  row_difficulty : option Z
}.

(** A row of table [words]. *)
Record WordRow := {
  row_word : string;
  row_word_alphagram : string;
  row_lexicon_symbols : string;
  row_definition : string;
  row_front_hooks : string;
  row_back_hooks : string;
  row_inner_front_hook : Z;
  row_inner_back_hook : Z
}.

(** The statements the package executes, with their bound arguments. *)
Inductive Stmt :=
  | CreateSchema                       (* the DDL of createSqliteDb *)
  | InsertAlph (r : AlphRow)
  | InsertWord (r : WordRow)
  | InsertDeleted (word : string) (len : Z)
  | InsertVersion (v : Z)
  | CreateVersionTable
  | SetVersion (v : Z)                 (* UPDATE db_version SET version = ? *)
  | AlterV2
  | UpdateV2 (num_anagrams point_value num_vowels : Z) (alph : string)
  | CreateLengthIndex
  | AlterV4
  | UpdateV4 (uniq upd : Z) (alph : string)
  | AlterV5
  | UpdateDifficulty (d : Z) (alph : string)
  | CreateDeletedWords.

(** The parameterised statements the package prepares. *)
Inductive Query :=
  | QInsertAlph | QInsertWord | QInsertDeleted
  | QUpdateV2 | QUpdateV4 | QUpdateDifficulty.

(** What a process asks of the database handle, in the order asked. *)
Inductive Op :=
  | OpOpen
  | OpBegin
  | OpPrepare (q : Query)
  | OpExec (s : Stmt)
  | OpCommit
  | OpQueryVersion
  | OpQueryV2
  | OpQueryV4
  | OpQueryAlphagrams
  | OpScan.

(** The tables.  [tbl_db_version] and [tbl_deletedwords] are [None] while
    the table does not exist; [tbl_schema] lists the schema statements
    applied, oldest first. *)
Record Tables := {
  tbl_alphagrams : list AlphRow;
  tbl_words : list WordRow;
  tbl_deletedwords : option (list (string * Z));
  tbl_db_version : option (list Z);
  tbl_schema : list Stmt
}.

Definition emptyTables : Tables :=
  {| tbl_alphagrams := []; tbl_words := []; tbl_deletedwords := None;
     tbl_db_version := None; tbl_schema := [] |}.

Definition set_alphagrams (f : list AlphRow → list AlphRow) (t : Tables) :=
  {| tbl_alphagrams := f (tbl_alphagrams t); tbl_words := tbl_words t;
     tbl_deletedwords := tbl_deletedwords t;
     tbl_db_version := tbl_db_version t; tbl_schema := tbl_schema t |}.
Definition set_words (f : list WordRow → list WordRow) (t : Tables) :=
  {| tbl_alphagrams := tbl_alphagrams t; tbl_words := f (tbl_words t);
     tbl_deletedwords := tbl_deletedwords t;
     tbl_db_version := tbl_db_version t; tbl_schema := tbl_schema t |}.
Definition set_deletedwords
    (f : option (list (string * Z)) → option (list (string * Z)))
    (t : Tables) :=
  {| tbl_alphagrams := tbl_alphagrams t; tbl_words := tbl_words t;
     tbl_deletedwords := f (tbl_deletedwords t);
     tbl_db_version := tbl_db_version t; tbl_schema := tbl_schema t |}.
Definition set_db_version (f : option (list Z) → option (list Z))
    (t : Tables) :=
  {| tbl_alphagrams := tbl_alphagrams t; tbl_words := tbl_words t;
     tbl_deletedwords := tbl_deletedwords t;
     tbl_db_version := f (tbl_db_version t); tbl_schema := tbl_schema t |}.
Definition add_schema (s : Stmt) (t : Tables) :=
  {| tbl_alphagrams := tbl_alphagrams t; tbl_words := tbl_words t;
     tbl_deletedwords := tbl_deletedwords t;
     tbl_db_version := tbl_db_version t;
     tbl_schema := tbl_schema t ++ [s] |}.

Definition updateV2_row (n p v : Z) (alph : string) (r : AlphRow) : AlphRow :=
  if decide (row_alphagram r = alph) then
    {| row_probability := row_probability r; row_alphagram := row_alphagram r;
       row_length := row_length r; row_combinations := row_combinations r;
       row_num_anagrams := Some n; row_point_value := Some p;
       row_num_vowels := Some v;
       row_contains_word_uniq_to_lex_split :=
         row_contains_word_uniq_to_lex_split r;
       row_contains_update_to_lex := row_contains_update_to_lex r;
       row_difficulty := row_difficulty r |}
  else r.

Definition updateV4_row (u p : Z) (alph : string) (r : AlphRow) : AlphRow :=
  if decide (row_alphagram r = alph) then
    {| row_probability := row_probability r; row_alphagram := row_alphagram r;
       row_length := row_length r; row_combinations := row_combinations r;
       row_num_anagrams := row_num_anagrams r;
       row_point_value := row_point_value r;
       row_num_vowels := row_num_vowels r;
       row_contains_word_uniq_to_lex_split := Some u;
       row_contains_update_to_lex := Some p;
       row_difficulty := row_difficulty r |}
  else r.

Definition updateDifficulty_row (d : Z) (alph : string) (r : AlphRow)
    : AlphRow :=
  if decide (row_alphagram r = alph) then
    {| row_probability := row_probability r; row_alphagram := row_alphagram r;
       row_length := row_length r; row_combinations := row_combinations r;
       row_num_anagrams := row_num_anagrams r;
       row_point_value := row_point_value r;
       row_num_vowels := row_num_vowels r;
       row_contains_word_uniq_to_lex_split :=
         row_contains_word_uniq_to_lex_split r;
       row_contains_update_to_lex := row_contains_update_to_lex r;
       row_difficulty := Some d |}
  else r.

(** The effect of a statement that succeeds.  An insert into a table that
    does not exist cannot succeed; such a statement is left without
    effect here and is one the environment reports as failed. *)
Definition apply_stmt (s : Stmt) (t : Tables) : Tables :=
  match s with
  | CreateSchema =>
      add_schema CreateSchema
        {| tbl_alphagrams := []; tbl_words := [];
           tbl_deletedwords := Some []; tbl_db_version := Some [];
           tbl_schema := tbl_schema t |}
  | InsertAlph r => set_alphagrams (λ l, l ++ [r]) t
  | InsertWord r => set_words (λ l, l ++ [r]) t
  | InsertDeleted w n =>
      set_deletedwords (fmap (M:=option) (λ l, l ++ [(w, n)])) t
  | InsertVersion v => set_db_version (fmap (M:=option) (λ l, l ++ [v])) t
  | CreateVersionTable => set_db_version (λ _, Some []) t
  | SetVersion v =>
      set_db_version (fmap (M:=option) (fmap (M:=list) (λ _ : Z, v))) t
  | UpdateV2 n p v a => set_alphagrams (fmap (M:=list) (updateV2_row n p v a)) t
  | UpdateV4 u p a => set_alphagrams (fmap (M:=list) (updateV4_row u p a)) t
  | UpdateDifficulty d a =>
      set_alphagrams (fmap (M:=list) (updateDifficulty_row d a)) t
  | CreateDeletedWords =>
      add_schema CreateDeletedWords (set_deletedwords (λ _, Some []) t)
  | AlterV2 | CreateLengthIndex | AlterV4 | AlterV5 => add_schema s t
  end.

(** The version a reader finds: the first row of [db_version]. *)
Definition stored_version (t : Tables) : option Z :=
  match tbl_db_version t with
  | Some (v :: _) => Some v
  | _ => None
  end.

(* ===================================================================== *)
(** ** A process: database session, outcome, log *)
(* ===================================================================== *)

Inductive Level := Debug | Info | Error | FatalLevel.
Inductive LogArg := ArgZ (z : Z) | ArgS (s : string).
Inductive LogEntry := Log (lvl : Level) (fmt : string) (args : list LogArg).

(** [disk] is what the database file holds (what a later reader sees, and
    all that survives the process); [txn] is the working copy of the open
    transaction; [trace] lists the operations asked of the database so
    far, oldest first. *)
Record Session := {
  disk : Tables;
  txn : option Tables;
  trace : list Op;
  logs : list LogEntry
}.

Definition on_disk (f : Tables → Tables) (s : Session) : Session :=
  {| disk := f (disk s); txn := txn s; trace := trace s; logs := logs s |}.
Definition on_txn (f : option Tables → option Tables) (s : Session) :=
  {| disk := disk s; txn := f (txn s); trace := trace s; logs := logs s |}.
Definition on_trace (f : list Op → list Op) (s : Session) : Session :=
  {| disk := disk s; txn := txn s; trace := f (trace s); logs := logs s |}.
Definition on_logs (f : list LogEntry → list LogEntry) (s : Session) :=
  {| disk := disk s; txn := txn s; trace := trace s; logs := f (logs s) |}.

(** A process that starts on the database file [t]. *)
Definition start (t : Tables) : Session :=
  {| disk := t; txn := None; trace := []; logs := [] |}.

(** How a call ends: it returns, the process exits through [log.Fatal],
    or the process dies of a run-time panic. *)
Inductive Result (A : Type) :=
  | Ret (a : A)
  | Fatal
  | Panic.
Arguments Ret {A} a.
Arguments Fatal {A}.
Arguments Panic {A}.

Definition M (A : Type) : Type := Session → Result A * Session.

Definition ret {A} (a : A) : M A := λ s, (Ret a, s).

Definition bind {A B} (m : M A) (k : A → M B) : M B :=
  λ s, match m s with
       | (Ret a, s') => k a s'
       | (Fatal, s') => (Fatal, s')
       | (Panic, s') => (Panic, s')
       end.

Notation "x <- m ;; k" := (bind m (λ x, k))
  (at level 100, m at next level, right associativity).
Notation "m ;;; k" := (bind m (λ _, k))
  (at level 100, right associativity).

Definition log (lvl : Level) (fmt : string) (args : list LogArg) : M unit :=
  λ s, (Ret tt, on_logs (λ l, l ++ [Log lvl fmt args]) s).

(** [log.Fatal()...]: the message is written and the process exits. *)
Definition fatal {A} (fmt : string) (args : list LogArg) : M A :=
  λ s, (Fatal, on_logs (λ l, l ++ [Log FatalLevel fmt args]) s).

Definition panic {A} : M A := λ s, (Panic, s).

(** [exitIfError(err)]; [err] is [true] for a non-nil error. *)
Definition exitIfError (err : bool) : M unit :=
  if err then fatal "" [] else ret tt.

(** [for _, x := range l { body }] *)
Fixpoint forM {A} (l : list A) (body : A → M unit) : M unit :=
  match l with
  | [] => ret tt
  | x :: l' => body x ;;; forM l' body
  end.

(* ===================================================================== *)
(** ** A small concrete lexical engine *)
(* ===================================================================== *)

Module Sample.

Definition upper_byte (b : Z) : Z :=
  if Go.between 97 122 b then b - 32 else b.

(** Upper-cases the ASCII letters. *)
Definition to_upper (s : string) : string :=
  Go.of_bytes (upper_byte <$> Go.bytes s).

(** The bytes of the word in increasing order. *)
Definition make_alphagram (_ : alphabet_LetterDistribution) (w : string)
    : string :=
  Go.of_bytes (merge_sort Z.le (Go.bytes w)).

(** A dictionary handle is its word list; no hooks; every alphagram has
    difficulty 0. *)
Definition engine : Engine :=
  {| dawg := list string;
     difficulties := unit;
     Fields := String.words;
     ToUpper := to_upper;
     MakeAlphagram := make_alphagram;
     FindWord := λ d w, bool_decide (w ∈ d);
     FindHooks := λ _ _ _, [];
     FindInnerHook := λ _ _ _, false;
     alphagramDifficulty := λ _ _, 0 |}.

(** English tile values for A, E, Q and Z; the vowels. *)
Definition dist : alphabet_LetterDistribution :=
  {| PointValues := list_to_map [(65, 1); (69, 1); (81, 10); (90, 10)];
     Vowels := [65; 69; 73; 79; 85] |}.

Definition lexicon (file : string) (ws : list string)
    : @LexiconInfo engine :=
  {| LexiconFilename := file;
     Dawg := ws : @dawg engine;
     RDawg := ws : @dawg engine;
     Combinations := λ a _, Go.len a;
     LetterDistribution := dist;
     Difficulties := tt : @difficulties engine |}.

(** Nothing fails. *)
Definition calm : nat → Op → bool := λ _ _, false.

End Sample.

(* ===================================================================== *)
(** ** Package dbmaker *)
(* ===================================================================== *)

(** The methods of [LexiconMap] the package calls ([familyName] and
    [priorLexicon] return an error where this record has [None]). *)
Record LexiconMap `{Engine} := {
  familyName : string → option FamilyName;
  newestInFamily : FamilyName → LexiconInfo;
  priorLexicon : FamilyName → string → option LexiconInfo
}.

(** What [populateAlphsDefs] computes; [scan_fetched] records, in order,
    the alphagrams for which the combination count was requested. *)
Record Scan := {
  scan_definitions : gmap string string;
  scan_alphagrams : gmap string Alphagram;
  scan_fetched : list string
}.

Section Dbmaker.

Context `{Engine}.

(** The environment: [env n op] tells whether [op], asked as the
    [n]-th operation of the process, fails; [fs name] is the sequence
    of lines a scanner reads from file [name], [None] when the file
    cannot be opened. *)
Variable env : nat → Op → bool.
Variable fs : string → option (list string).

(** The two family names, constants declared outside [src/]. *)
Variables FamilyCSW FamilyTWL : FamilyName.

(** *** Statistics of an alphagram *)

Definition pointValue (a : Alphagram) (dist : alphabet_LetterDistribution)
    : Z :=
  foldl (λ pts rn, Go.uint8 (pts + default 0 (PointValues dist !! rn)))
        0 (Go.runes (alphagram a)).

Definition numVowels (a : Alphagram) (dist : alphabet_LetterDistribution)
    : Z :=
  let vowelMap : gmap Z bool :=
    foldl (λ m v, <[v := true]> m) ∅ (Vowels dist) in
  foldl (λ vowels rn,
           if default false (vowelMap !! rn) then Go.uint8 (vowels + 1)
           else vowels)
        0 (Go.runes (alphagram a)).

(** *** AlphByCombos *)

(** [a.Less(i, j)] for [x = a[i]], [y = a[j]]. *)
Definition Less (x y : Alphagram) : bool :=
  if combinations x =? combinations y
  then String.ltb (alphagram x) (alphagram y)
  else combinations y <? combinations x.

(** [x] may stand before [y] in a sorted slice. *)
Definition not_after (x y : Alphagram) : Prop := Less y x = false.

Global Instance not_after_dec : RelDecision not_after.
Proof. intros x y. unfold not_after. apply _. Defined.

(** [sort.Sort(AlphByCombos(alphs))].  The library promises a sorted
    permutation, by an algorithm that is not stable; [sort_Sort_unique]
    below shows that for the slices the package sorts there is only
    one such permutation. *)
Definition sort_Sort (alphs : list Alphagram) : list Alphagram :=
  merge_sort not_after alphs.

(** [sort.Strings] *)
Definition sort_Strings (l : list string) : list string :=
  merge_sort String.le l.

(** *** Provenance symbols *)

Definition findLexSymbols (word : string) (latestCSW latestTWL : LexiconInfo)
    (lexFamily : FamilyName) (priorLex : option LexiconInfo) : string :=
  let symbols := "" in
  let symbols :=
    match priorLex with
    | Some prior =>
      if negb (FindWord (Dawg prior) word)
         && negb (Go.Contains symbols LexiconUpdateSymbol)
      then symbols +:+ LexiconUpdateSymbol else symbols
    | None => symbols
    end in
  let symbols :=
    if bool_decide (lexFamily = FamilyCSW)
       && negb (FindWord (Dawg latestTWL) word)
       && negb (Go.Contains symbols CSWOnlySymbol)
    then symbols +:+ CSWOnlySymbol else symbols in
  let symbols :=
    if bool_decide (lexFamily = FamilyTWL)
       && negb (FindWord (Dawg latestCSW) word)
       && negb (Go.Contains symbols TWLOnlySymbol)
    then symbols +:+ TWLOnlySymbol else symbols in
  symbols.

Fixpoint containsWordUniqueToLexSplit (lexSymbolsList : list string) : Z :=
  match lexSymbolsList with
  | [] => 0
  | symbols :: rest =>
    if Go.Contains symbols "$" || Go.Contains symbols "#" then 1
    else containsWordUniqueToLexSplit rest
  end.

Fixpoint containsUpdateToLex (lexSymbolsList : list string) : Z :=
  match lexSymbolsList with
  | [] => 0
  | symbols :: rest =>
    if Go.Contains symbols "+" then 1 else containsUpdateToLex rest
  end.

Definition sortedHooks (hooks : list Z) (dist : alphabet_LetterDistribution)
    : string :=
  MakeAlphagram dist (Go.string_of_runes hooks).

(** *** Reading a word list *)

(** The values of the map, in the order [range] visits them; Go leaves
    that order open, here it is the order of [map_to_list]. *)
Definition alphaMapValues (theMap : gmap string Alphagram)
    : list Alphagram :=
  (map_to_list theMap).*2.

(** Modelled from the spec: [addToDefinitions] and [expandDefinitions]
    are defined outside [src/]; the spec has them build "a mapping from
    word to definition (last definition wins ...)". *)
Definition addToDefinitions (word definition : string)
    (definitions : gmap string string) : gmap string string :=
  <[word := definition]> definitions.
Definition expandDefinitions (definitions : gmap string string)
    : gmap string string := definitions.

(** The lines [scanner.Scan()] yields.  The error of [os.Open] is
    dropped ("XXX: Check error"): a file that cannot be opened is
    scanned as a file without lines. *)
Definition scannerLines (filename : string) : list string :=
  match fs filename with
  | Some lines => lines
  | None => []
  end.

(** [alph.words = append(alph.words, word)] *)
Definition appendWord (alph : Alphagram) (word : string) : Alphagram :=
  {| words := words alph ++ [word];
     combinations := combinations alph;
     alphagram := alphagram alph;
     wordCount := wordCount alph;
     uniqToLexSplit := uniqToLexSplit alph;
     updateToLex := updateToLex alph |}.

(** The body of the scanning loop. *)
Definition scanLine (combinations : string → bool → Z)
    (dist : alphabet_LetterDistribution) (st : Scan) (text : string)
    : Scan :=
  let fields := Fields text in
  match fields with
  | [] => st
  | f0 :: rest =>
    let word := ToUpper f0 in
    let definition :=
      if (1 <? length fields)%nat then Go.Join rest " " else "" in
    let definitions :=
      addToDefinitions word definition (scan_definitions st) in
    let alphagram := MakeAlphagram dist word in
    match scan_alphagrams st !! alphagram with
    | None =>
      {| scan_definitions := definitions;
         scan_alphagrams :=
           <[alphagram :=
               {| words := [word];
                  combinations := combinations alphagram true;
                  alphagram := alphagram;
                  wordCount := 0; uniqToLexSplit := 0; updateToLex := 0 |}]>
             (scan_alphagrams st);
         scan_fetched := scan_fetched st ++ [alphagram] |}
    | Some alph =>
      {| scan_definitions := definitions;
         scan_alphagrams :=
           <[alphagram :=
               appendWord alph word]>
             (scan_alphagrams st);
         scan_fetched := scan_fetched st |}
    end
  end.

Definition scanFile (filename : string) (combinations : string → bool → Z)
    (dist : alphabet_LetterDistribution) : Scan :=
  foldl (scanLine combinations dist)
        {| scan_definitions := ∅; scan_alphagrams := ∅;
           scan_fetched := [] |}
        (scannerLines filename).

Definition populateAlphsDefs (filename : string)
    (combinations : string → bool → Z) (dist : alphabet_LetterDistribution)
    : gmap string string * gmap string Alphagram :=
  let st := scanFile filename combinations dist in
  (expandDefinitions (scan_definitions st), scan_alphagrams st).

(** *** Database operations *)

(** Asks the database for [o]; the answer [true] is an error. *)
Definition ask (o : Op) : M bool :=
  λ s, (Ret (env (length (trace s)) o), on_trace (λ t, t ++ [o]) s).

Definition sql_Open : M bool := ask OpOpen.

(** [db.Exec]: outside a transaction, a statement that succeeds is on
    disk at once. *)
Definition db_Exec (q : Stmt) : M bool :=
  err <- ask (OpExec q) ;;
  if err then ret true
  else λ s, (Ret false, on_disk (apply_stmt q) s).

(** [db.Begin]: the transaction works on a copy of the tables. *)
Definition db_Begin : M bool :=
  err <- ask OpBegin ;;
  if err then ret true
  else λ s, (Ret false, on_txn (λ _, Some (disk s)) s).

Definition tx_Prepare (q : Query) : M bool := ask (OpPrepare q).

(** [stmt.Exec] of a statement prepared in the transaction. *)
Definition stmt_Exec (q : Stmt) : M bool :=
  err <- ask (OpExec q) ;;
  if err then ret true
  else λ s, (Ret false, on_txn (fmap (M:=option) (apply_stmt q)) s).

(** [tx.Commit()]; every call site drops its error.  A commit that
    succeeds writes the working copy to disk; one that fails leaves the
    disk as it was. *)
Definition tx_Commit : M unit :=
  err <- ask OpCommit ;;
  λ s, (Ret tt,
        on_txn (λ _, None)
          (if err then s else on_disk (λ d, default d (txn s)) s)).

(** *** Building a database *)

(** [createSqliteDb]; [dbExists] tells whether [os.Stat(dbName)] finds
    the file.  Returns [true] for the error "db existed, and not
    overwriting it". *)
Definition createSqliteDb (dbExists quitIfExists : bool) : M bool :=
  if quitIfExists && dbExists then ret true
  else
    (* os.Remove(dbName) *)
    (λ s, (Ret tt, on_disk (λ _, emptyTables) s)) ;;;
    err <- sql_Open ;;
    exitIfError err ;;;
    log Info "Opened database file at %v for writing" [] ;;;
    err <- db_Exec CreateSchema ;;
    exitIfError err ;;;
    ret false.

Definition wordRow (lexiconInfo : LexiconInfo)
    (definitions : gmap string string) (alph : Alphagram)
    (theseLexSymbols : string) (word : string) : WordRow :=
  let dawg := Dawg lexiconInfo in
  let rDawg := RDawg lexiconInfo in
  let backHooks :=
    sortedHooks (FindHooks dawg word BackHooks)
                (LetterDistribution lexiconInfo) in
  let frontHooks :=
    sortedHooks (FindHooks rDawg word FrontHooks)
                (LetterDistribution lexiconInfo) in
  let backInnerHook :=
    if FindInnerHook dawg word BackInnerHook then 1 else 0 in
  let frontInnerHook :=
    if FindInnerHook dawg word FrontInnerHook then 1 else 0 in
  let def := default "" (definitions !! word) in
  {| row_word := word; row_word_alphagram := alphagram alph;
     row_lexicon_symbols := theseLexSymbols; row_definition := def;
     row_front_hooks := frontHooks; row_back_hooks := backHooks;
     row_inner_front_hook := frontInnerHook;
     row_inner_back_hook := backInnerHook |}.

(** The inner loop over [alph.words]; the result of [wordStmt.Exec] is
    not looked at. *)
Fixpoint wordLoop (lexiconInfo latestCSW latestTWL : LexiconInfo)
    (lexFamily : FamilyName) (priorLex : option LexiconInfo)
    (definitions : gmap string string) (alph : Alphagram)
    (ws : list string) (lexSymbolsList : list string) : M (list string) :=
  match ws with
  | [] => ret lexSymbolsList
  | word :: ws' =>
    let theseLexSymbols :=
      findLexSymbols word latestCSW latestTWL lexFamily priorLex in
    stmt_Exec (InsertWord
                 (wordRow lexiconInfo definitions alph theseLexSymbols word))
    ;;;
    wordLoop lexiconInfo latestCSW latestTWL lexFamily priorLex definitions
             alph ws' (lexSymbolsList ++ [theseLexSymbols])
  end.

Definition alphRow (lexiconInfo : LexiconInfo) (probability : Z)
    (alph : Alphagram) (wl : nat) (lexSymbolsList : list string) : AlphRow :=
  {| row_probability := probability;
     row_alphagram := alphagram alph;
     row_length := Z.of_nat wl;
     row_combinations := combinations alph;
     row_num_anagrams := Some (Z.of_nat (length (words alph)));
     row_point_value :=
       Some (pointValue alph (LetterDistribution lexiconInfo));
     row_num_vowels :=
       Some (numVowels alph (LetterDistribution lexiconInfo));
     row_contains_word_uniq_to_lex_split :=
       Some (containsWordUniqueToLexSplit lexSymbolsList);
     row_contains_update_to_lex :=
       Some (containsUpdateToLex lexSymbolsList);
     row_difficulty :=
       Some (alphagramDifficulty (alphagram alph)
               (Difficulties lexiconInfo)) |}.

(** [probs[wl]++] under its guard. *)
Definition bump (probs : list Z) (wl : nat) : list Z :=
  if (wl <=? 15)%nat then alter (λ p, Go.uint32 (p + 1)) wl probs
  else probs.

(** The loop over the sorted alphagrams; [probs] is the array
    [[16]uint32], and reading [probs[wl]] beyond it panics. *)
Fixpoint alphLoop (lexiconInfo latestCSW latestTWL : LexiconInfo)
    (lexFamily : FamilyName) (priorLex : option LexiconInfo)
    (definitions : gmap string string)
    (idx : nat) (alphs : list Alphagram) (probs : list Z) : M (list Z) :=
  match alphs with
  | [] => ret probs
  | alph :: alphs' =>
    (if Z.of_nat idx mod 10000 =? 0
     then log Debug "%d..." [ArgZ (Z.of_nat idx)] else ret tt) ;;;
    let wl := length (Go.runes (alphagram alph)) in
    let probs := bump probs wl in
    lexSymbolsList <-
      wordLoop lexiconInfo latestCSW latestTWL lexFamily priorLex
               definitions alph (words alph) [] ;;
    match Go.index probs wl with
    | None => panic
    | Some p =>
      err <- stmt_Exec
               (InsertAlph (alphRow lexiconInfo p alph wl lexSymbolsList)) ;;
      exitIfError err ;;;
      alphLoop lexiconInfo latestCSW latestTWL lexFamily priorLex definitions
               (S idx) alphs' probs
    end
  end.

(** The words of the prior edition that the current dictionary lacks,
    in the order [range definitions] visits them. *)
Definition findDeletedWords (lexiconInfo : LexiconInfo)
    (priorLex : option LexiconInfo) : list string :=
  match priorLex with
  | Some prior =>
    let definitions :=
      (populateAlphsDefs (LexiconFilename prior) (Combinations prior)
                         (LetterDistribution prior)).1 in
    filter (λ word, FindWord (Dawg lexiconInfo) word = false)
           (map_to_list definitions).*1
  | None => []
  end.

Definition logWordLengths (lengths : list Z) : M unit :=
  log Info "Word lengths: '%s'"
      (concat (imap (λ idx lgt,
                       if lgt =? 0 then []
                       else [ArgZ (Z.of_nat idx); ArgZ lgt]) lengths)).

Definition CreateLexiconDatabase (lexiconName : string)
    (lexiconInfo : LexiconInfo) (lexMap : LexiconMap)
    (dbExists quitIfExists : bool) : M unit :=
  log Info "Creating lexicon database for %v" [ArgS lexiconName] ;;;
  err <- createSqliteDb dbExists quitIfExists ;;
  if err then log Error "" []
  else
    let '(definitions, alphagrams) :=
      populateAlphsDefs (LexiconFilename lexiconInfo)
                        (Combinations lexiconInfo)
                        (LetterDistribution lexiconInfo) in
    log Debug "Sorting by probability" [] ;;;
    let alphs := sort_Sort (alphaMapValues alphagrams) in
    let probs := replicate 16 0 in
    err <- sql_Open ;;
    exitIfError err ;;;
    err <- db_Begin ;;
    exitIfError err ;;;
    err <- tx_Prepare QInsertAlph ;;
    exitIfError err ;;;
    err <- tx_Prepare QInsertWord ;;
    exitIfError err ;;;
    match familyName lexMap lexiconName with
    | None => fatal "" []
    | Some lexFamily =>
      let latestCSW := newestInFamily lexMap FamilyCSW in
      let latestTWL := newestInFamily lexMap FamilyTWL in
      let priorLex := priorLexicon lexMap lexFamily lexiconName in
      (if priorLex is None
       then log Error "no prior lexicon, ignoring..." [] else ret tt) ;;;
      probs <- alphLoop lexiconInfo latestCSW latestTWL lexFamily priorLex
                        definitions 0 alphs probs ;;
      tx_Commit ;;;
      let deletedWords := findDeletedWords lexiconInfo priorLex in
      (if (0 <? length deletedWords)%nat then
         let deletedWords := sort_Strings deletedWords in
         err <- db_Begin ;;
         exitIfError err ;;;
         err <- tx_Prepare QInsertDeleted ;;
         exitIfError err ;;;
         forM deletedWords
              (λ word, err <- stmt_Exec (InsertDeleted word (Go.len word)) ;;
                       exitIfError err) ;;;
         tx_Commit
       else ret tt) ;;;
      err <- db_Exec (InsertVersion CurrentVersion) ;;
      exitIfError err ;;;
      logWordLengths probs
    end.

(** *** Migrating a database *)

(** A loop that counts its iterations: [body i x] runs with [i] the
    number of elements visited before [x]. *)
Fixpoint forI {A} (i : nat) (l : list A) (body : nat → A → M unit)
    : M unit :=
  match l with
  | [] => ret tt
  | x :: l' => body i x ;;; forI (S i) l' body
  end.

Definition get_disk : M Tables := λ s, (Ret (disk s), s).

(** What [db.QueryRow("SELECT version FROM db_version").Scan(&version)]
    gives: a version, [sql.ErrNoRows], the error "no such table:
    db_version", or another error. *)
Inductive VersionQuery :=
  | VqOk (version : Z)
  | VqNoRows
  | VqNoTable
  | VqOther.

Definition queryVersion : M VersionQuery :=
  err <- ask OpQueryVersion ;;
  t <- get_disk ;;
  ret (if err then VqOther
       else match tbl_db_version t with
            | None => VqNoTable
            | Some [] => VqNoRows
            | Some (version :: _) => VqOk version
            end).

(** The rows of
    [SELECT words.alphagram, count() FROM words INNER JOIN alphagrams
     ON words.alphagram = alphagrams.alphagram GROUP BY words.alphagram]. *)
Definition queryV2 (t : Tables) : list (string * Z) :=
  let joined :=
    flat_map (λ w, flat_map (λ a,
                if decide (row_word_alphagram w = row_alphagram a)
                then [row_word_alphagram w] else [])
                (tbl_alphagrams t))
             (tbl_words t) in
  (λ k, (k, Z.of_nat (length (filter (λ k', k' = k) joined))))
    <$> merge_sort String.le (remove_dups joined).

(** The rows of
    [SELECT word, alphagram, lexicon_symbols from words order by alphagram]. *)
Definition queryV4 (t : Tables) : list (string * string * string) :=
  (λ w, (row_word w, row_word_alphagram w, row_lexicon_symbols w))
    <$> merge_sort (λ x y, String.le (row_word_alphagram x)
                                     (row_word_alphagram y))
                   (tbl_words t).

Definition bareAlphagram (alph : string) (wordCount uniq upd : Z)
    : Alphagram :=
  {| words := []; combinations := 0; alphagram := alph;
     wordCount := wordCount; uniqToLexSplit := uniq; updateToLex := upd |}.

(** [rows.Scan] in a [for rows.Next()] loop; an error is fatal. *)
Definition rows_Scan : M unit :=
  err <- ask OpScan ;;
  if err then fatal "" [] else ret tt.

Fixpoint readV2 (rows : list (string * Z)) (alphagrams : list Alphagram)
    : M (list Alphagram) :=
  match rows with
  | [] => ret alphagrams
  | (alph, wordCount) :: rows' =>
    rows_Scan ;;;
    readV2 rows'
      (alphagrams ++ [bareAlphagram alph (Go.uint8 wordCount) 0 0])
  end.

Definition migrateToV2 (dist : alphabet_LetterDistribution) : M unit :=
  err <- db_Exec AlterV2 ;;
  exitIfError err ;;;
  err <- ask OpQueryV2 ;;
  exitIfError err ;;;
  t <- get_disk ;;
  err <- db_Begin ;;
  exitIfError err ;;;
  alphagrams <- readV2 (queryV2 t) [] ;;
  err <- tx_Prepare QUpdateV2 ;;
  exitIfError err ;;;
  forI 0 alphagrams
    (λ i alph,
       err <- stmt_Exec (UpdateV2 (wordCount alph) (pointValue alph dist)
                                  (numVowels alph dist) (alphagram alph)) ;;
       (if err then fatal "" [] else ret tt) ;;;
       if Z.of_nat (S i) mod 10000 =? 0
       then log Debug "%d..." [ArgZ (Z.of_nat (S i))] else ret tt) ;;;
  tx_Commit ;;;
  err <- db_Exec (SetVersion 2) ;;
  exitIfError err.

Definition migrateToV3 : M unit :=
  err <- db_Exec CreateLengthIndex ;;
  exitIfError err ;;;
  err <- db_Exec (SetVersion 3) ;;
  exitIfError err.

(** The loop of [migrateToV4] over the rows, with its three variables. *)
Fixpoint readV4 (rows : list (string * string * string))
    (alphagrams : list Alphagram) (lastAlph : string)
    (lastLexSymbolsList : list string)
    : M (list Alphagram * string * list string) :=
  match rows with
  | [] => ret (alphagrams, lastAlph, lastLexSymbolsList)
  | (word, alph, lexiconSymbols) :: rows' =>
    rows_Scan ;;;
    let '(alphagrams, lastLexSymbolsList) :=
      if bool_decide (alph ≠ lastAlph) && bool_decide (lastAlph ≠ "")
      then (alphagrams ++
              [bareAlphagram lastAlph 0
                 (containsWordUniqueToLexSplit lastLexSymbolsList)
                 (containsUpdateToLex lastLexSymbolsList)], [])
      else (alphagrams, lastLexSymbolsList) in
    readV4 rows' alphagrams alph (lastLexSymbolsList ++ [lexiconSymbols])
  end.

Definition migrateToV4 : M unit :=
  err <- db_Exec AlterV4 ;;
  exitIfError err ;;;
  log Info "Created new columns and indices" [] ;;;
  err <- ask OpQueryV4 ;;
  exitIfError err ;;;
  t <- get_disk ;;
  err <- db_Begin ;;
  exitIfError err ;;;
  read <- readV4 (queryV4 t) [] "" [] ;;
  let '(alphagrams, lastAlph, lastLexSymbolsList) := read in
  let alphagrams :=
    alphagrams ++
      [bareAlphagram lastAlph 0
         (containsWordUniqueToLexSplit lastLexSymbolsList)
         (containsUpdateToLex lastLexSymbolsList)] in
  err <- tx_Prepare QUpdateV4 ;;
  exitIfError err ;;;
  forI 0 alphagrams
    (λ i alph,
       err <- stmt_Exec (UpdateV4 (uniqToLexSplit alph) (updateToLex alph)
                                  (alphagram alph)) ;;
       (if err then fatal "" [] else ret tt) ;;;
       if Z.of_nat (S i) mod 10000 =? 0
       then log Debug "%d..." [ArgZ (Z.of_nat (S i))] else ret tt) ;;;
  tx_Commit ;;;
  err <- db_Exec (SetVersion 4) ;;
  exitIfError err.

(** Modelled from the spec: [loadDifficulty] is defined outside [src/].
    The spec has a transition backfill its new column "by reading
    existing rows and computing the missing derived values" and commit
    "its own transaction"; here that is one difficulty update per
    alphagram row, each failure fatal. *)
Definition loadDifficulty (lexiconInfo : LexiconInfo) : M unit :=
  err <- ask OpQueryAlphagrams ;;
  exitIfError err ;;;
  t <- get_disk ;;
  err <- db_Begin ;;
  exitIfError err ;;;
  err <- tx_Prepare QUpdateDifficulty ;;
  exitIfError err ;;;
  forM (tbl_alphagrams t)
    (λ r, err <- stmt_Exec
                   (UpdateDifficulty
                      (alphagramDifficulty (row_alphagram r)
                                           (Difficulties lexiconInfo))
                      (row_alphagram r)) ;;
          exitIfError err) ;;;
  tx_Commit.

Definition migrateToV5 (lexiconInfo : LexiconInfo) : M unit :=
  err <- db_Exec AlterV5 ;;
  exitIfError err ;;;
  log Info "Created new columns and indices" [] ;;;
  loadDifficulty lexiconInfo ;;;
  err <- db_Exec (SetVersion 5) ;;
  exitIfError err.

Definition migrateToV6 : M unit :=
  err <- db_Exec CreateDeletedWords ;;
  (if err then fatal "" [] else ret tt) ;;;
  log Info "Created new deletedwords table" [] ;;;
  err <- db_Exec (SetVersion 6) ;;
  exitIfError err.

Definition MigrateLexiconDatabase (lexiconName : string)
    (lexiconInfo : LexiconInfo) : M unit :=
  err <- sql_Open ;;
  exitIfError err ;;;
  q <- queryVersion ;;
  version <-
    match q with
    | VqNoRows =>
      fatal "There is a version table but it has no values in it" []
    | VqNoTable =>
      log Info "No version table, creating one..." [] ;;;
      err <- db_Exec CreateVersionTable ;;
      (if err then fatal "" [] else ret tt) ;;;
      err <- db_Exec (InsertVersion 1) ;;
      (if err then fatal "" [] else ret tt) ;;;
      ret 1
    | VqOther => fatal "" []
    | VqOk version =>
      (if version =? CurrentVersion
       then log Info "DB Version is up to date (version %d)" [ArgZ version]
       else log Info "Version of this table is %d, moving to %d"
                [ArgZ version; ArgZ (Go.int (version + 1))]) ;;;
      ret version
    end ;;
  (if version =? 1 then
     log Info "Migrating to version 2..." [] ;;;
     migrateToV2 (LetterDistribution lexiconInfo) ;;;
     log Info "Run again to migrate to version 3" []
   else ret tt) ;;;
  (if version =? 2 then
     log Info "Migrating to version 3..." [] ;;;
     migrateToV3 ;;;
     log Info "Run again to migrate to version 4" []
   else ret tt) ;;;
  (if version =? 3 then
     log Info "Migrating to version 4..." [] ;;;
     migrateToV4 ;;;
     log Info "Run again to migrate to version 5" []
   else ret tt) ;;;
  (if version =? 4 then
     log Info "Migrating to version 5..." [] ;;;
     migrateToV5 lexiconInfo
   else ret tt) ;;;
  (if version =? 5 then
     log Info "Migrating to version 6..." [] ;;;
     migrateToV6
   else ret tt).

End Dbmaker.

(* ===================================================================== *)
(** ** Vocabulary of the properties *)
(* ===================================================================== *)

(** The number of positions of [s] at which [sub] starts. *)
Fixpoint occurrences (sub s : string) : nat :=
  (if String.prefix sub s then 1 else 0)%nat +
  match s with
  | EmptyString => 0%nat
  | String _ s' => occurrences sub s'
  end.

(** A symbol string carries a family-exclusivity marker. *)
Definition has_split_marker (symbols : string) : Prop :=
  Go.Contains symbols "$" = true ∨ Go.Contains symbols "#" = true.

Definition has_update_marker (symbols : string) : Prop :=
  Go.Contains symbols "+" = true.

Section ScanVocabulary.

Context `{Engine}.
Variable fs : string → option (list string).

(** The word a line contributes: its first field in upper case. *)
Definition firstWord (text : string) : option string :=
  match Fields text with
  | [] => None
  | f0 :: _ => Some (ToUpper f0)
  end.

(** The words of a file, one per non-empty line, repetitions kept. *)
Definition scannedWords (filename : string) : list string :=
  omap firstWord (scannerLines fs filename).

(** The occurrences in [ws] of words whose alphagram is [a]. *)
Definition members (dist : alphabet_LetterDistribution) (a : string)
    (ws : list string) : list string :=
  filter (λ w, MakeAlphagram dist w = a) ws.

Definition classOf (comb : string → bool → Z)
    (dist : alphabet_LetterDistribution) (a : string) (ws : list string)
    : option Alphagram :=
  if bool_decide (members dist a ws = []) then None
  else Some {| words := members dist a ws;
               combinations := comb a true;
               alphagram := a;
               wordCount := 0; uniqToLexSplit := 0; updateToLex := 0 |}.

Definition scan0 : Scan :=
  {| scan_definitions := ∅; scan_alphagrams := ∅; scan_fetched := [] |}.

End ScanVocabulary.

(** No operation fails. *)
Definition never_fails (env : nat → Op → bool) : Prop :=
  ∀ n o, env n o = false.

(** The length the build computes for an alphagram: its number of runes. *)
Definition runeLen (a : Alphagram) : nat := length (Go.runes (alphagram a)).

(** [t] with rows appended to [alphagrams] and to [words]. *)
Definition insertRows (ar : list AlphRow) (wr : list WordRow) (t : Tables)
    : Tables :=
  {| tbl_alphagrams := tbl_alphagrams t ++ ar;
     tbl_words := tbl_words t ++ wr;
     tbl_deletedwords := tbl_deletedwords t;
     tbl_db_version := tbl_db_version t;
     tbl_schema := tbl_schema t |}.

Section BuildRows.

Context `{Engine}.
Variables (li : LexiconInfo) (defs : gmap string string)
          (symbolsOf : string → string).

(** The word rows of one alphagram, and of a list of alphagrams. *)
Definition wordRowsOf (alph : Alphagram) : list WordRow :=
  (λ w, wordRow li defs alph (symbolsOf w) w) <$> words alph.

Definition allWordRows (alphs : list Alphagram) : list WordRow :=
  flat_map wordRowsOf alphs.

(** The alphagram rows the loop writes for [alphs], starting from the
    counters [probs], as long as every length is within the array. *)
Fixpoint rankedRows (alphs : list Alphagram) (probs : list Z)
    : list AlphRow :=
  match alphs with
  | [] => []
  | alph :: alphs' =>
    let probs' := bump probs (runeLen alph) in
    alphRow li (default 0 (probs' !! runeLen alph)) alph (runeLen alph)
            (symbolsOf <$> words alph)
      :: rankedRows alphs' probs'
  end.

End BuildRows.

Section BuildVocabulary.

Context `{Engine}.
Variable fs : string → option (list string).
Variables FamilyCSW FamilyTWL : FamilyName.

(** The dataset a build leaves when nothing fails. *)
Definition builtTables (li : LexiconInfo) (lexMap : LexiconMap)
    (lexFamily : FamilyName) (lexiconName : string) : Tables :=
  let '(definitions, alphagrams) :=
    populateAlphsDefs fs (LexiconFilename li) (Combinations li)
                      (LetterDistribution li) in
  let symbolsOf := λ w,
    findLexSymbols FamilyCSW FamilyTWL w
      (newestInFamily lexMap FamilyCSW) (newestInFamily lexMap FamilyTWL)
      lexFamily (priorLexicon lexMap lexFamily lexiconName) in
  let alphs := sort_Sort (alphaMapValues alphagrams) in
  {| tbl_alphagrams := rankedRows li symbolsOf alphs (replicate 16 0);
     tbl_words := allWordRows li definitions symbolsOf alphs;
     tbl_deletedwords :=
       Some ((λ w, (w, Go.len w))
               <$> sort_Strings
                     (findDeletedWords fs li
                        (priorLexicon lexMap lexFamily lexiconName)));
     tbl_db_version := Some [CurrentVersion];
     tbl_schema := [CreateSchema] |}.

End BuildVocabulary.

(** [r1] stands before [r2] in the order of the build: more combinations,
    or as many and a smaller alphagram string. *)
Definition ranks_before (r1 r2 : AlphRow) : Prop :=
  row_combinations r2 < row_combinations r1
  ∨ (row_combinations r1 = row_combinations r2
     ∧ String.ltb (row_alphagram r1) (row_alphagram r2) = true).

(** The rows of length [L], in table order. *)
Definition cohort (L : nat) (rows : list AlphRow) : list AlphRow :=
  filter (λ r, row_length r = Z.of_nat L) rows.

(** [rows] is the ranked table of the alphagram classes [classes]: one row
    per class, in the order of [ranks_before]; within every length the
    probabilities are 1, 2, ..., K in table order, K the number of classes
    of that length, and the combination counts never increase. *)
Definition ranked_table (classes : gmap string Alphagram)
    (rows : list AlphRow) : Prop :=
  (λ r, (row_alphagram r, row_combinations r)) <$> rows
    ≡ₚ (λ kv, (kv.1, combinations kv.2)) <$> map_to_list classes
  ∧ StronglySorted ranks_before rows
  ∧ ∀ L : nat,
      row_probability <$> cohort L rows
        = Z.of_nat <$> seq 1 (length (cohort L rows))
      ∧ length (cohort L rows)
        = length (filter (λ kv, length (Go.runes kv.1) = L)
                         (map_to_list classes))
      ∧ StronglySorted (λ r1 r2, row_combinations r2 ≤ row_combinations r1)
                       (cohort L rows).

Definition is_main_insert (o : Op) : bool :=
  match o with
  | OpExec (InsertAlph _) | OpExec (InsertWord _) => true
  | _ => false
  end.

Definition is_deleted_insert (o : Op) : bool :=
  match o with
  | OpExec (InsertDeleted _ _) => true
  | _ => false
  end.

Definition is_version_insert (o : Op) : bool :=
  match o with
  | OpExec (InsertVersion _) => true
  | _ => false
  end.

(** The transaction of the alphagram and word rows, from [Begin] to
    [Commit]. *)
Definition main_transaction (t : list Op) : Prop :=
  ∃ ins, t = [OpBegin; OpPrepare QInsertAlph; OpPrepare QInsertWord]
             ++ ins ++ [OpCommit]
         ∧ Forall (λ o, is_main_insert o = true) ins.

(** The transaction of the deleted words: absent, or from [Begin] to
    [Commit] around at least one insert. *)
Definition deletion_transaction (t : list Op) : Prop :=
  t = []
  ∨ ∃ ins, ins ≠ []
           ∧ t = [OpBegin; OpPrepare QInsertDeleted] ++ ins ++ [OpCommit]
           ∧ Forall (λ o, is_deleted_insert o = true) ins.

(** The schema version a statement's schema change leads to. *)
Definition schema_change (o : Op) : option Z :=
  match o with
  | OpExec AlterV2 => Some 2
  | OpExec CreateLengthIndex => Some 3
  | OpExec AlterV4 => Some 4
  | OpExec AlterV5 => Some 5
  | OpExec CreateDeletedWords => Some 6
  | _ => None
  end.

(** The version an [UPDATE db_version] writes. *)
Definition version_write (o : Op) : option Z :=
  match o with
  | OpExec (SetVersion v) => Some v
  | _ => None
  end.

(** The transitions a process applied, and the versions it stored, in
    order. *)
Definition transitions (t : list Op) : list Z := omap schema_change t.
Definition versions_written (t : list Op) : list Z := omap version_write t.

(** An operation that neither changes the schema nor touches the
    version table. *)
Definition is_data_op (o : Op) : bool :=
  match o with
  | OpScan | OpPrepare _
  | OpExec (UpdateV2 _ _ _ _) | OpExec (UpdateV4 _ _ _)
  | OpExec (UpdateDifficulty _ _) => true
  | _ => false
  end.

(** The schema statement of the transition to version [k]. *)
Definition schema_statement (k : Z) : Stmt :=
  if k =? 2 then AlterV2
  else if k =? 3 then CreateLengthIndex
  else if k =? 4 then AlterV4
  else if k =? 5 then AlterV5
  else CreateDeletedWords.

(** A computation that, inside an open transaction, returns, leaves
    the disk, the version table and the schema of the working copy as
    they are, and asks the database for data operations only. *)
Definition quiet_step (m : M unit) : Prop :=
  ∀ s t, txn s = Some t →
    ∃ s' t' tr,
      m s = (Ret tt, s') ∧ disk s' = disk s ∧ txn s' = Some t'
      ∧ tbl_db_version t' = tbl_db_version t
      ∧ tbl_schema t' = tbl_schema t
      ∧ trace s' = trace s ++ tr
      ∧ Forall (λ o, is_data_op o = true) tr.

(** What a transition to version [k] does to a session. *)
Definition migrated (k : Z) (s s' : Session) : Prop :=
  tbl_db_version (disk s')
    = fmap (M:=option) (fmap (M:=list) (λ _ : Z, k)) (tbl_db_version (disk s))
  ∧ tbl_schema (disk s') = tbl_schema (disk s) ++ [schema_statement k]
  ∧ ∃ tr, trace s' = trace s ++ tr
          ∧ transitions tr = [k] ∧ versions_written tr = [k].

(* ===================================================================== *)
(** ** Sample lexica *)
(* ===================================================================== *)

Module SampleData.

Import Sample.

Definition FamilyCSW : FamilyName := "CSW".
Definition FamilyTWL : FamilyName := "TWL".

(** Three word lists: the current edition (CAT twice), the prior
    edition, and a list whose only word has sixteen letters. *)
Definition files (name : string) : option (list string) :=
  if decide (name = "cur.txt") then
    Some ["cat feline"; ""; "act to do"; "zax a tool"; "cat again"; "dog"]
  else if decide (name = "old.txt") then
    Some ["cat"; "quiz"; "dog"; "abba"]
  else if decide (name = "long.txt") then
    Some ["abcdefghijklmnop"]
  else None.

Definition cur : @LexiconInfo engine :=
  lexicon "cur.txt" ["CAT"; "ACT"; "ZAX"; "DOG"].
Definition old : @LexiconInfo engine :=
  lexicon "old.txt" ["CAT"; "QUIZ"; "DOG"; "ABBA"].
Definition csw : @LexiconInfo engine :=
  lexicon "csw.txt" ["CAT"; "ACT"; "DOG"].
Definition long : @LexiconInfo engine :=
  lexicon "long.txt" ["ABCDEFGHIJKLMNOP"].
Definition missing : @LexiconInfo engine :=
  lexicon "nowhere.txt" ["CAT"].

(** Every lexicon is of family TWL; [old] is the prior edition. *)
Definition lexMap : @LexiconMap engine :=
  {| familyName := λ _, Some FamilyTWL;
     newestInFamily := λ f, if decide (f = FamilyCSW) then csw else cur;
     priorLexicon := λ _ _, Some old |}.

(** The same registry without a prior edition. *)
Definition lexMapFirst : @LexiconMap engine :=
  {| familyName := λ _, Some FamilyTWL;
     newestInFamily := λ f, if decide (f = FamilyCSW) then csw else cur;
     priorLexicon := λ _ _, None |}.

Definition build (env : nat → Op → bool) (li : @LexiconInfo engine)
    (lm : @LexiconMap engine) : Result unit * Session :=
  @CreateLexiconDatabase engine env files FamilyCSW FamilyTWL "X" li lm
                         false false (start emptyTables).

End SampleData.

(* ===================================================================== *)
(** ** Concrete environments and datasets *)
(* ===================================================================== *)

Module Runs.

Import Sample SampleData.

(** Environments in which one insert fails: every insert of the word
    [w], respectively of the alphagram [a]. *)
Definition word_insert_fails (w : string) : nat → Op → bool :=
  λ _ o, match o with
         | OpExec (InsertWord r) => bool_decide (row_word r = w)
         | _ => false
         end.

Definition alph_insert_fails (a : string) : nat → Op → bool :=
  λ _ o, match o with
         | OpExec (InsertAlph r) => bool_decide (row_alphagram r = a)
         | _ => false
         end.

(** A dataset of the oldest schema: one alphagram, its two words, and
    the given version table. *)
Definition legacy (version : option (list Z)) : Tables :=
  {| tbl_alphagrams :=
       [ {| row_probability := 1; row_alphagram := "ACT"; row_length := 3;
            row_combinations := 3; row_num_anagrams := None;
            row_point_value := None; row_num_vowels := None;
            row_contains_word_uniq_to_lex_split := None;
            row_contains_update_to_lex := None; row_difficulty := None |} ];
     tbl_words :=
       [ {| row_word := "CAT"; row_word_alphagram := "ACT";
            row_lexicon_symbols := "+"; row_definition := "";
            row_front_hooks := ""; row_back_hooks := "S";
            row_inner_front_hook := 0; row_inner_back_hook := 0 |};
         {| row_word := "ACT"; row_word_alphagram := "ACT";
            row_lexicon_symbols := "$"; row_definition := "";
            row_front_hooks := ""; row_back_hooks := "S";
            row_inner_front_hook := 0; row_inner_back_hook := 0 |} ];
     tbl_deletedwords := None;
     tbl_db_version := version;
     tbl_schema := [] |}.

Definition migrate (env : nat → Op → bool) (t : Tables)
    : Result unit * Session :=
  @MigrateLexiconDatabase engine env "X" cur (start t).

(** The build of the current edition when nothing fails, and what it
    asked of the database before its last operation. *)
Definition calm_run : Result unit * Session := build calm cur lexMap.
Definition calm_run_before_last : list Op := removelast (trace calm_run.2).

End Runs.

(* ===================================================================== *)
(** ** Vocabulary of the further properties *)
(* ===================================================================== *)

(** *** Statistics *)

(** The sum of the tile values of a sequence of runes, not wrapped. *)
Definition tileSum (dist : alphabet_LetterDistribution) (rs : list Z) : Z :=
  foldr Z.add 0 ((λ rn, default 0 (PointValues dist !! rn)) <$> rs).

(** The number of runes of a sequence that are vowels of [dist]. *)
Definition vowelCount (dist : alphabet_LetterDistribution) (rs : list Z)
    : nat :=
  length (filter (λ rn, rn ∈ Vowels dist) rs).

(** *** Invariants of a process *)

(** [hoare P m Q E F]: started in a session that satisfies [P], the
    computation [m] ends in a session that satisfies [Q a] if it
    returns [a], [E] if the process exits through [log.Fatal], and [F]
    if it panics. *)
Definition hoare {A} (P : Session → Prop) (m : M A)
    (Q : A → Session → Prop) (E F : Session → Prop) : Prop :=
  ∀ s, P s →
    match m s with
    | (Ret a, s') => Q a s'
    | (Fatal, s') => E s'
    | (Panic, s') => F s'
    end.

(** [I] is kept by every step a process can take with the statements
    of [okd] (run on the file) and of [okt] (run in a transaction):
    writing a log line, asking the database, running a statement,
    opening a transaction, and ending one (the working copy reaches
    the file only when the last thing asked was a commit and the
    commit succeeded). *)
Record Stable (env : nat → Op → bool) (okd okt : Stmt → Prop)
    (I : Session → Prop) : Prop := {
  stable_logs : ∀ f s, I s → I (on_logs f s);
  stable_ask : ∀ o s, I s → I (on_trace (λ t, t ++ [o]) s);
  stable_exec : ∀ q s, okd q → I s → I (on_disk (apply_stmt q) s);
  stable_begin : ∀ s, I s → I (on_txn (λ _, Some (disk s)) s);
  stable_stmt :
    ∀ q s, okt q → I s → I (on_txn (fmap (M:=option) (apply_stmt q)) s);
  stable_commit :
    ∀ s tr, I s → trace s = tr ++ [OpCommit] →
            env (length tr) OpCommit = false →
            I (on_txn (λ _, None) (on_disk (λ d, default d (txn s)) s));
  stable_abandon : ∀ s, I s → I (on_txn (λ _, None) s)
}.

(** *** What a build leaves *)

(** No row in any of the three data tables. *)
Definition no_rows (t : Tables) : Prop :=
  tbl_alphagrams t = [] ∧ tbl_words t = []
  ∧ default [] (tbl_deletedwords t) = [].

(** [tx.Commit()] *)
Definition is_commit (o : Op) : bool :=
  match o with
  | OpCommit => true
  | _ => false
  end.

(** Among the operations [t], asked from position [n] on, there is a
    commit that succeeded. *)
Fixpoint committed_from (env : nat → Op → bool) (n : nat) (t : list Op)
    : bool :=
  match t with
  | [] => false
  | o :: t' =>
    (is_commit o && negb (env n o)) || committed_from env (S n) t'
  end.

(** A process that asked for [t] had a commit succeed. *)
Definition committed (env : nat → Op → bool) (t : list Op) : bool :=
  committed_from env 0 t.

(** The statements the build runs inside its transactions. *)
Definition insert_statement (q : Stmt) : Prop :=
  match q with
  | InsertAlph _ | InsertWord _ | InsertDeleted _ _ => True
  | _ => False
  end.

(** The state of a build between the creation of the schema and the
    version stamp: the version table is empty, on file and in the
    working copy, and the file holds no row unless a commit
    succeeded. *)
Definition building (env : nat → Op → bool) (s : Session) : Prop :=
  tbl_db_version (disk s) = Some []
  ∧ (∀ t, txn s = Some t → tbl_db_version t = Some [])
  ∧ (committed env (trace s) = false → no_rows (disk s)).

(** How a build that did not complete leaves the file. *)
Definition unfinished (env : nat → Op → bool) (s : Session) : Prop :=
  stored_version (disk s) = None
  ∧ (committed env (trace s) = false → no_rows (disk s)).

(** *** What a migration keeps *)

(** The columns of an alphagram row that the oldest schema has. *)
Definition row_core (r : AlphRow) : Z * string * Z * Z :=
  (row_probability r, row_alphagram r, row_length r, row_combinations r).

(** [t] has the word rows of [t0] and, row by row, the alphagram rows
    of [t0] as far as the oldest columns go. *)
Definition same_rows (t0 t : Tables) : Prop :=
  tbl_words t = tbl_words t0
  ∧ row_core <$> tbl_alphagrams t = row_core <$> tbl_alphagrams t0.

(** The file, and the working copy of an open transaction, have the
    rows of [t0]. *)
Definition keeps_rows (t0 : Tables) (s : Session) : Prop :=
  same_rows t0 (disk s) ∧ ∀ t, txn s = Some t → same_rows t0 t.

(** The statements of the migrator. *)
Definition migration_statement (q : Stmt) : Prop :=
  match q with
  | CreateSchema | InsertAlph _ | InsertWord _ | InsertDeleted _ _ => False
  | _ => True
  end.

(** The file, and the working copy of an open transaction, are at
    version [v]. *)
Definition at_version (v : Z) (s : Session) : Prop :=
  stored_version (disk s) = Some v
  ∧ ∀ t, txn s = Some t → stored_version t = Some v.

(** The statements of a transition other than the version stamp. *)
Definition transition_statement (q : Stmt) : Prop :=
  match q with
  | AlterV2 | UpdateV2 _ _ _ _ | CreateLengthIndex | AlterV4 | UpdateV4 _ _ _
  | AlterV5 | UpdateDifficulty _ _ | CreateDeletedWords => True
  | _ => False
  end.

Section Remigrate.

Context `{Engine}.
Variable env : nat → Op → bool.

(** The dataset after [n] successive invocations of the migrator, each
    a new process working on the file the one before left. *)
Fixpoint remigrate (lexiconName : string) (lexiconInfo : LexiconInfo)
    (n : nat) (t : Tables) : Tables :=
  match n with
  | O => t
  | S n' =>
    remigrate lexiconName lexiconInfo n'
      (disk (MigrateLexiconDatabase env lexiconName lexiconInfo (start t)).2)
  end.

End Remigrate.

(** *** Backfills *)

(** The word rows whose alphagram is [a]. *)
Definition anagramsOf (ws : list WordRow) (a : string) : list WordRow :=
  filter (λ w, row_word_alphagram w = a) ws.

(** What the transition to version 2 makes of an alphagram row, given
    the word rows of the dataset. *)
Definition backfillV2 (dist : alphabet_LetterDistribution)
    (ws : list WordRow) (r : AlphRow) : AlphRow :=
  let anagrams := anagramsOf ws (row_alphagram r) in
  match anagrams with
  | [] => r
  | _ :: _ =>
    let n := Go.uint8 (Z.of_nat (length anagrams)) in
    let alph := bareAlphagram (row_alphagram r) n 0 0 in
    updateV2_row n (pointValue alph dist) (numVowels alph dist)
                 (row_alphagram r) r
  end.

(** What the transition to version 4 makes of an alphagram row, given
    the word rows of the dataset: the two flags are computed from the
    symbol strings of the row's words; a row without words is left
    alone, except that in a dataset without any word the one update
    the loop still issues, for the empty alphagram string, sets both
    flags of a row with that string to 0. *)
Definition backfillV4 (ws : list WordRow) (r : AlphRow) : AlphRow :=
  let symbols := row_lexicon_symbols <$> anagramsOf ws (row_alphagram r) in
  match symbols, ws with
  | [], [] => updateV4_row 0 0 "" r
  | [], _ :: _ => r
  | _ :: _, _ =>
    updateV4_row (containsWordUniqueToLexSplit symbols)
                 (containsUpdateToLex symbols) (row_alphagram r) r
  end.

(** The symbol strings of the rows of [queryV4] with alphagram [k]. *)
Definition symbolsOf (k : string) (rows : list (string * string * string))
    : list string :=
  snd <$> filter (λ x, x.1.2 = k) rows.

(** *** Environments with a failure *)

Module Faults.

(** Environments in which every commit fails, respectively the query
    that reads the word counts. *)
Definition commit_fails : nat → Op → bool := λ _ o, is_commit o.

Definition count_query_fails : nat → Op → bool :=
  λ _ o, match o with
         | OpQueryV2 => true
         | _ => false
         end.

End Faults.

(* ===================================================================== *)
(** ** Proof steps *)
(* ===================================================================== *)

(** One step of a run under an arbitrary environment: a case split on
    the answer to the operation at hand (a fatal answer ends the run
    before any version is written), or the next [bind]. *)
Ltac step_any env :=
  first
    [ match goal with
      | |- context [env ?n ?o] =>
        destruct (env n o) eqn:?; simpl;
        [try (intros [= <- <-]; left; simpl; by repeat constructor)|]
      end
    | progress (unfold bind at 1; simpl) ].

Ltac case_env env :=
  match goal with
  | |- context [if env ?n ?o then _ else _] =>
    destruct (env n o) eqn:?; simpl
  end.

(* ===================================================================== *)
(** ** Properties: provenance symbols *)
(* ===================================================================== *)

Section Provenance.

Context `{Engine}.
Variable env : nat → Op → bool.
Variables FamilyCSW FamilyTWL : FamilyName.

Lemma containsWordUniqueToLexSplit_spec (l : list string) :
  (containsWordUniqueToLexSplit l = 1 ↔ Exists has_split_marker l) ∧
  (containsWordUniqueToLexSplit l = 0 ↔ ¬ Exists has_split_marker l).
Proof.
  induction l as [|symbols l [IH1 IH0]]; simpl.
  - rewrite Exists_nil. split; split; try done. tauto.
  - rewrite Exists_cons. unfold has_split_marker at 1 3.
    destruct (Go.Contains symbols "$"); simpl.
    { split; split; try done; tauto. }
    destruct (Go.Contains symbols "#"); simpl.
    { split; split; try done; tauto. }
    rewrite IH1, IH0. split; split; try tauto.
    + intros [[?|?]|?]; by try done.
    + intros Hn [[?|?]|?]; by try done.
Qed.

Lemma containsUpdateToLex_spec (l : list string) :
  (containsUpdateToLex l = 1 ↔ Exists has_update_marker l) ∧
  (containsUpdateToLex l = 0 ↔ ¬ Exists has_update_marker l).
Proof.
  induction l as [|symbols l [IH1 IH0]]; simpl.
  - rewrite Exists_nil. split; split; try done. tauto.
  - rewrite Exists_cons. unfold has_update_marker at 1 3.
    destruct (Go.Contains symbols "+"); simpl.
    { split; split; try done; tauto. }
    rewrite IH1, IH0. split; split; try tauto.
    + intros [?|?]; by try done.
    + intros Hn [?|?]; by try done.
Qed.

(** The inner loop of the build never stops early: whatever the
    database answers, it returns the symbol strings of the words, in
    order. *)
Lemma wordLoop_returns li lc lt fam prior defs alph ws acc s :
  ∃ s', wordLoop env FamilyCSW FamilyTWL li lc lt fam prior defs alph ws acc s
        = (Ret (acc ++ ((λ w, findLexSymbols FamilyCSW FamilyTWL w lc lt
                                             fam prior) <$> ws)),
           s').
Proof.
  revert acc s. induction ws as [|w ws IH]; intros acc s; simpl.
  - rewrite app_nil_r. by eexists.
  - unfold bind at 1. unfold stmt_Exec, bind, ask.
    destruct (env _ _); simpl;
      (edestruct IH as [s' ->]; rewrite <- app_assoc; by eexists).
Qed.

(** C5.  The symbol string of a word is the update marker (when a prior
    edition exists and lacks the word), then the CSW-only marker (when
    the family is CSW and the latest TWL edition lacks the word), then
    the TWL-only marker (family TWL, word absent from the latest CSW
    edition), each at most once.  The symbol strings the build collects
    for an alphagram are those of its member words, and the two flags
    of its row are 1 exactly when some member's string contains "$" or
    "#", respectively "+", and 0 otherwise. *)
Theorem provenance_symbols_and_flags :
  (∀ word lc lt fam (prior : option LexiconInfo),
     let is_new :=
       match prior with
       | Some p => negb (FindWord (Dawg p) word)
       | None => false
       end in
     let csw_only :=
       bool_decide (fam = FamilyCSW) && negb (FindWord (Dawg lt) word) in
     let twl_only :=
       bool_decide (fam = FamilyTWL) && negb (FindWord (Dawg lc) word) in
     let symbols := findLexSymbols FamilyCSW FamilyTWL word lc lt fam prior in
     symbols = (if is_new then LexiconUpdateSymbol else "")
               +:+ (if csw_only then CSWOnlySymbol else "")
               +:+ (if twl_only then TWLOnlySymbol else "")
     ∧ (occurrences LexiconUpdateSymbol symbols ≤ 1)%nat
     ∧ (occurrences CSWOnlySymbol symbols ≤ 1)%nat
     ∧ (occurrences TWLOnlySymbol symbols ≤ 1)%nat)
  ∧
  (∀ li lc lt fam prior defs alph s,
     let member_symbols :=
       (λ w, findLexSymbols FamilyCSW FamilyTWL w lc lt fam prior)
         <$> words alph in
     (∃ s', wordLoop env FamilyCSW FamilyTWL li lc lt fam prior defs alph
                     (words alph) [] s = (Ret member_symbols, s'))
     ∧ ∀ p wl,
         let row := alphRow li p alph wl member_symbols in
         row_contains_word_uniq_to_lex_split row =
           Some (if bool_decide (Exists has_split_marker member_symbols)
                 then 1 else 0)
         ∧ row_contains_update_to_lex row =
           Some (if bool_decide (Exists has_update_marker member_symbols)
                 then 1 else 0)).
Proof.
  split.
  - intros word lc lt fam prior. unfold findLexSymbols.
    destruct prior as [p|];
      [destruct (FindWord (Dawg p) word)|];
      destruct (bool_decide (fam = FamilyCSW));
      destruct (FindWord (Dawg lt) word);
      destruct (bool_decide (fam = FamilyTWL));
      destruct (FindWord (Dawg lc) word);
      cbv; repeat split; lia.
  - intros li lc lt fam prior defs alph s member_symbols. split.
    + destruct (wordLoop_returns li lc lt fam prior defs alph
                  (words alph) [] s) as [s' Hs'].
      exists s'. exact Hs'.
    + intros p wl. simpl.
      destruct (containsWordUniqueToLexSplit_spec member_symbols)
        as [H1 H0].
      destruct (containsUpdateToLex_spec member_symbols) as [U1 U0].
      split; f_equal; case_bool_decide.
      * by apply H1.
      * by apply H0.
      * by apply U1.
      * by apply U0.
Qed.

End Provenance.

(* ===================================================================== *)
(** ** Properties: the order of AlphByCombos *)
(* ===================================================================== *)

Section Ordering.

Lemma ltb_false_le (a b : string) : String.ltb a b = false ↔ String.le b a.
Proof.
  unfold String.le, String.ltb, String.leb.
  rewrite (String.compare_antisym b a).
  destruct (String.compare a b); simpl; split; by try done.
Qed.

Lemma ltb_true_le (a b : string) :
  String.ltb a b = true ↔ String.le a b ∧ a ≠ b.
Proof.
  split.
  - intros Hlt. split.
    + unfold String.le, String.leb. unfold String.ltb in Hlt.
      by destruct (String.compare a b).
    + intros ->. assert (String.ltb b b = false) as Hf; [|congruence].
      apply ltb_false_le. done.
  - intros [Hle Hne]. destruct (String.ltb a b) eqn:Hlt; [done|].
    apply ltb_false_le in Hlt. destruct Hne. by apply (anti_symm String.le).
Qed.

(** [Less] is the lexicographic order on (combinations, descending;
    alphagram, ascending). *)
Lemma not_after_alt (x y : Alphagram) :
  not_after x y ↔
  combinations y < combinations x ∨
  (combinations x = combinations y
   ∧ String.le (alphagram x) (alphagram y)).
Proof.
  unfold not_after, Less.
  destruct (Z.eqb_spec (combinations y) (combinations x)) as [Heq|Hne].
  - rewrite ltb_false_le. split; [intros; right; by split|].
    intros [?|[_ ?]]; [lia|done].
  - rewrite Z.ltb_ge. split; [intros; left; lia|].
    intros [?|[? _]]; lia.
Qed.

Lemma Less_alt (x y : Alphagram) :
  Less x y = true ↔
  combinations y < combinations x ∨
  (combinations x = combinations y
   ∧ String.le (alphagram x) (alphagram y) ∧ alphagram x ≠ alphagram y).
Proof.
  unfold Less.
  destruct (Z.eqb_spec (combinations x) (combinations y)) as [Heq|Hne].
  - rewrite ltb_true_le. split; [intros; right; by split|].
    intros [?|[_ ?]]; [lia|done].
  - rewrite Z.ltb_lt. split; [intros; by left|].
    intros [?|[? _]]; [done|lia].
Qed.

Global Instance not_after_trans : Transitive not_after.
Proof.
  intros x y z. rewrite !not_after_alt.
  intros [Hxy|[Hxy Hxy']] [Hyz|[Hyz Hyz']].
  - left; lia.
  - left; lia.
  - left; lia.
  - right. split; [lia|]. by etrans.
Qed.

Global Instance not_after_total : Total not_after.
Proof.
  intros x y. rewrite !not_after_alt.
  destruct (Z.lt_trichotomy (combinations x) (combinations y))
    as [?|[?|?]]; [by right; left| |by left; left].
  destruct (total String.le (alphagram x) (alphagram y)).
  - left. right. done.
  - right. right. done.
Qed.

Lemma sort_Sort_sorted (l : list Alphagram) : Sorted not_after (sort_Sort l).
Proof. apply (Sorted_merge_sort not_after). Qed.

Lemma sort_Sort_perm (l : list Alphagram) : sort_Sort l ≡ₚ l.
Proof. apply (merge_sort_Permutation not_after). Qed.

Lemma NoDup_fmap_elem_inj {A B} (f : A → B) (l : list A) x y :
  NoDup (f <$> l) → x ∈ l → y ∈ l → f x = f y → x = y.
Proof.
  induction l as [|a l IH]; simpl; [by intros _ ?%elem_of_nil|].
  rewrite NoDup_cons. intros [Hnotin Hnd] Hx Hy Hf.
  apply elem_of_cons in Hx as [->|Hx]; apply elem_of_cons in Hy as [->|Hy].
  - done.
  - destruct Hnotin. rewrite Hf. by apply list_elem_of_fmap_2.
  - destruct Hnotin. rewrite <- Hf. by apply list_elem_of_fmap_2.
  - by apply IH.
Qed.

(** Two alphagrams that may each stand before the other have the same
    alphagram string. *)
Lemma not_after_antisym (x y : Alphagram) :
  not_after x y → not_after y x → alphagram x = alphagram y.
Proof.
  rewrite !not_after_alt. intros [?|[? Hxy]] [?|[? Hyx]]; try lia.
  by apply (anti_symm String.le).
Qed.

(** Whatever algorithm [sort.Sort] runs, its result on a slice of
    alphagrams with distinct alphagram strings is this list. *)
Lemma sort_Sort_unique (l l' : list Alphagram) :
  NoDup (alphagram <$> l) → l' ≡ₚ l → Sorted not_after l' →
  l' = sort_Sort l.
Proof.
  intros Hnd Hperm Hsorted.
  apply (Sorted_unique_strong not_after); [|done|apply sort_Sort_sorted|].
  - intros x y Hx Hy Hxy Hyx.
    apply (NoDup_fmap_elem_inj alphagram l); [done| | |].
    + by rewrite <- Hperm.
    + by rewrite <- (sort_Sort_perm l).
    + by apply not_after_antisym.
  - by rewrite sort_Sort_perm.
Qed.

(** With distinct alphagram strings the sorted slice is strictly
    increasing for [Less], every element against every later one. *)
Lemma sort_Sort_strict (l : list Alphagram) :
  NoDup (alphagram <$> l) →
  StronglySorted (λ x y, Less x y = true) (sort_Sort l).
Proof.
  intros Hnd.
  assert (NoDup (alphagram <$> sort_Sort l)) as Hnd'.
  { by rewrite sort_Sort_perm. }
  pose proof (Sorted_StronglySorted _ _ (sort_Sort_sorted l)) as Hs.
  induction Hs as [|x l' Hs IH Hx]; [constructor|].
  simpl in Hnd'. apply NoDup_cons in Hnd' as [Hnotin Hnd'].
  constructor; [by apply IH|].
  rewrite Forall_forall in Hx |- *. intros y Hy.
  specialize (Hx y Hy). apply not_after_alt in Hx. apply Less_alt.
  destruct Hx as [?|[? ?]]; [by left|right].
  split; [done|]. split; [done|]. intros Heq.
  destruct Hnotin. rewrite Heq. by apply list_elem_of_fmap_2.
Qed.

Lemma sort_Strings_sorted (l : list string) :
  Sorted String.le (sort_Strings l).
Proof. apply (Sorted_merge_sort String.le). Qed.

Lemma sort_Strings_perm (l : list string) : sort_Strings l ≡ₚ l.
Proof. apply (merge_sort_Permutation String.le). Qed.

(** [sort.Strings] has one possible result. *)
Lemma sort_Strings_unique (l l' : list string) :
  l' ≡ₚ l → Sorted String.le l' → l' = sort_Strings l.
Proof.
  intros Hperm Hsorted.
  apply (Sorted_unique String.le); [done|apply sort_Strings_sorted|].
  by rewrite sort_Strings_perm.
Qed.

End Ordering.

(* ===================================================================== *)
(** ** Properties: reading a word list *)
(* ===================================================================== *)

Section Aggregation.

Context `{Engine}.

Lemma members_snoc dist a ws w :
  members dist a (ws ++ [w]) =
  members dist a ws ++ (if decide (MakeAlphagram dist w = a) then [w] else []).
Proof.
  unfold members. rewrite filter_app. f_equal.
Qed.

Lemma scan_invariant comb dist (lines : list string) :
  let st := foldl (scanLine comb dist) scan0 lines in
  let ws := omap firstWord lines in
  (∀ a, scan_alphagrams st !! a = classOf comb dist a ws)
  ∧ (∀ w, is_Some (scan_definitions st !! w) ↔ w ∈ ws)
  ∧ NoDup (scan_fetched st)
  ∧ (∀ a, a ∈ scan_fetched st ↔ is_Some (scan_alphagrams st !! a)).
Proof.
  induction lines as [|line lines IH] using rev_ind; simpl.
  { split; [|split; [|split]].
    - intros a. by rewrite lookup_empty.
    - intros w. rewrite lookup_empty, elem_of_nil.
      split; [by intros [? ?]|done].
    - constructor.
    - intros a. rewrite lookup_empty, elem_of_nil.
      split; [done|by intros [? ?]]. }
  rewrite foldl_app, omap_app. simpl.
  set (st := foldl (scanLine comb dist) scan0 lines) in *.
  set (ws := omap firstWord lines) in *.
  destruct IH as (IHa & IHd & IHn & IHf).
  unfold scanLine, firstWord.
  destruct (Fields line) as [|f0 rest] eqn:Hfields; simpl.
  { rewrite app_nil_r. done. }
  set (w := ToUpper f0). set (a0 := MakeAlphagram dist w).
  assert (∀ a, a ≠ a0 →
               classOf comb dist a (ws ++ [w]) = classOf comb dist a ws)
    as Hother.
  { intros a Hne. unfold classOf. rewrite members_snoc.
    rewrite decide_False by done. by rewrite app_nil_r. }
  assert (∀ w', is_Some (addToDefinitions w
                  (if (1 <? S (length rest))%nat then Go.Join rest " " else "")
                  (scan_definitions st) !! w') ↔ w' ∈ ws ++ [w]) as Hdefs.
  { intros w'. unfold addToDefinitions.
    rewrite elem_of_app, list_elem_of_singleton.
    destruct (decide (w = w')) as [->|Hne].
    - rewrite lookup_insert_eq. split; [by right|by eexists].
    - rewrite lookup_insert_ne by done. rewrite IHd. split; [by left|].
      intros [?|?]; [done|congruence]. }
  destruct (scan_alphagrams st !! a0) as [alph|] eqn:Hlook; simpl.
  - rewrite IHa in Hlook. unfold classOf in Hlook.
    case_bool_decide as Hmem; [done|]. injection Hlook as <-. simpl.
    split; [|split; [done|split; [done|]]].
    + intros a. destruct (decide (a0 = a)) as [<-|Hne].
      * rewrite lookup_insert_eq. unfold classOf. rewrite members_snoc.
        fold a0. rewrite decide_True by done.
        rewrite bool_decide_eq_false_2; [done|].
        by intros [? _]%app_eq_nil.
      * rewrite lookup_insert_ne by done. rewrite Hother by done. apply IHa.
    + intros a. rewrite IHf. destruct (decide (a0 = a)) as [<-|Hne].
      * rewrite lookup_insert_eq, IHa. unfold classOf.
        rewrite bool_decide_eq_false_2 by done. split; by eexists.
      * by rewrite lookup_insert_ne.
  - rewrite IHa in Hlook. unfold classOf in Hlook.
    case_bool_decide as Hmem; [|done].
    split; [|split; [done|split]].
    + intros a. destruct (decide (a0 = a)) as [<-|Hne].
      * rewrite lookup_insert_eq. unfold classOf. rewrite members_snoc.
        fold a0. rewrite decide_True by done. rewrite Hmem. simpl. done.
      * rewrite lookup_insert_ne by done. rewrite Hother by done. apply IHa.
    + apply NoDup_app. split; [done|]. split; [|apply NoDup_singleton].
      intros a Ha ->%list_elem_of_singleton.
      apply IHf in Ha. rewrite IHa in Ha. unfold classOf in Ha.
      rewrite bool_decide_eq_true_2 in Ha by done. by destruct Ha.
    + intros a. rewrite elem_of_app, list_elem_of_singleton, IHf.
      destruct (decide (a0 = a)) as [<-|Hne].
      * rewrite lookup_insert_eq. split; [by eexists|by right].
      * rewrite lookup_insert_ne by done. split; [|by left].
        intros [?|?]; [done|congruence].
Qed.

End Aggregation.

(* ===================================================================== *)
(** ** Properties: a build in which no database operation fails *)
(* ===================================================================== *)

Section CalmBuild.

Context `{Engine}.
Variable env : nat → Op → bool.
Variable fs : string → option (list string).
Variables FamilyCSW FamilyTWL : FamilyName.
Hypothesis Hcalm : never_fails env.

Lemma insertRows_nil t : insertRows [] [] t = t.
Proof. destruct t. unfold insertRows. simpl. by rewrite !app_nil_r. Qed.

Lemma insertRows_insertRows a1 w1 a2 w2 t :
  insertRows a2 w2 (insertRows a1 w1 t) = insertRows (a1 ++ a2) (w1 ++ w2) t.
Proof. unfold insertRows. simpl. by rewrite !app_assoc. Qed.

Lemma bump_length probs wl : length (bump probs wl) = length probs.
Proof. unfold bump. destruct (wl <=? 15)%nat; [|done]. apply length_alter. Qed.

Lemma wordLoop_calm li lc lt fam prior defs alph ws acc s t :
  txn s = Some t →
  ∃ s',
    wordLoop env FamilyCSW FamilyTWL li lc lt fam prior defs alph ws acc s
    = (Ret (acc ++ ((λ w, findLexSymbols FamilyCSW FamilyTWL w lc lt fam
                                         prior) <$> ws)), s')
    ∧ disk s' = disk s
    ∧ txn s' =
      Some (insertRows []
              ((λ w, wordRow li defs alph
                       (findLexSymbols FamilyCSW FamilyTWL w lc lt fam prior)
                       w) <$> ws) t).
Proof.
  revert acc s t. induction ws as [|w ws IH]; intros acc s t Htxn; simpl.
  - rewrite app_nil_r, insertRows_nil. by eexists.
  - unfold bind at 1. unfold stmt_Exec, bind, ask. rewrite Hcalm. simpl.
    edestruct (IH (acc ++ [findLexSymbols FamilyCSW FamilyTWL w lc lt fam
                                            prior]))
      as (s' & -> & Hd & Ht).
    { simpl. rewrite Htxn. simpl. reflexivity. }
    eexists. split; [by rewrite <- app_assoc|]. split; [done|].
    rewrite Ht. f_equal. unfold insertRows. simpl.
    by rewrite <- !app_assoc.
Qed.

Lemma alphLoop_calm li lc lt fam prior defs idx alphs probs s t :
  Forall (λ a, (runeLen a ≤ 15)%nat) alphs →
  length probs = 16%nat →
  txn s = Some t →
  ∃ s',
    alphLoop env FamilyCSW FamilyTWL li lc lt fam prior defs idx alphs probs s
    = (Ret (foldl bump probs (runeLen <$> alphs)), s')
    ∧ disk s' = disk s
    ∧ txn s' =
      Some (insertRows
              (rankedRows li
                 (λ w, findLexSymbols FamilyCSW FamilyTWL w lc lt fam prior)
                 alphs probs)
              (allWordRows li defs
                 (λ w, findLexSymbols FamilyCSW FamilyTWL w lc lt fam prior)
                 alphs) t).
Proof.
  intros Hlen. revert idx probs s t.
  induction Hlen as [|alph alphs Hwl Hlen IH]; intros idx probs s t Hp Htxn.
  - simpl. rewrite insertRows_nil. by eexists.
  - simpl. fold (runeLen alph).
    unfold bind at 1.
    set (s0 := (if Z.of_nat idx mod 10000 =? 0
                then log Debug "%d..." [ArgZ (Z.of_nat idx)]
                else ret tt) s).
    assert (s0.1 = Ret tt ∧ disk s0.2 = disk s ∧ txn s0.2 = txn s)
      as (Hr & Hd0 & Ht0).
    { unfold s0. by destruct (_ =? 0). }
    destruct s0 as [r0 s0']. simpl in Hr, Hd0, Ht0. subst r0.
    unfold bind at 1.
    destruct (wordLoop_calm li lc lt fam prior defs alph (words alph) [] s0' t)
      as (s1 & -> & Hd1 & Ht1); [congruence|].
    simpl.
    assert (is_Some (bump probs (runeLen alph) !! runeLen alph)) as [p Hpl].
    { apply lookup_lt_is_Some. rewrite bump_length. lia. }
    unfold Go.index. rewrite Hpl.
    unfold bind at 1. unfold stmt_Exec at 1, bind at 1, ask at 1.
    rewrite Hcalm. simpl. unfold bind at 1. simpl.
    edestruct (IH (S idx) (bump probs (runeLen alph))) as (s' & -> & Hd & Ht).
    { by rewrite bump_length. }
    { simpl. rewrite Ht1. simpl. reflexivity. }
    eexists. split; [done|]. split; [simpl in Hd; congruence|].
    rewrite Ht. f_equal. unfold allWordRows. simpl.
    fold (allWordRows li defs
            (λ w, findLexSymbols FamilyCSW FamilyTWL w lc lt fam prior) alphs).
    unfold wordRowsOf at 1.
    unfold insertRows. simpl. rewrite <- !app_assoc. simpl. done.
Qed.

Lemma forM_deleted_calm ws s t :
  txn s = Some t →
  ∃ s',
    forM ws (λ word, err <- stmt_Exec env (InsertDeleted word (Go.len word)) ;;
                     exitIfError err) s = (Ret tt, s')
    ∧ disk s' = disk s
    ∧ txn s' =
      Some (set_deletedwords
              (fmap (M:=option) (λ l, l ++ ((λ w, (w, Go.len w)) <$> ws))) t).
Proof.
  revert s t. induction ws as [|w ws IH]; intros s t Htxn; simpl.
  - eexists. split; [done|]. split; [done|]. rewrite Htxn. f_equal.
    destruct t as [? ? [l|] ? ?]; unfold set_deletedwords; simpl;
      by rewrite ?app_nil_r.
  - unfold bind at 1. unfold bind at 1.
    unfold stmt_Exec at 1, bind at 1, ask at 1. rewrite Hcalm. simpl.
    edestruct IH as (s' & -> & Hd & Ht).
    { simpl. rewrite Htxn. simpl. reflexivity. }
    eexists. split; [done|]. split; [done|]. rewrite Ht. f_equal.
    destruct t as [? ? [l|] ? ?]; unfold set_deletedwords; simpl; [|done].
    by rewrite <- app_assoc.
Qed.

Lemma build_calm lexiconName li lexMap dbExists quitIfExists lexFamily s :
  quitIfExists && dbExists = false →
  familyName lexMap lexiconName = Some lexFamily →
  Forall (λ a, (runeLen a ≤ 15)%nat)
         (alphaMapValues
            (populateAlphsDefs fs (LexiconFilename li) (Combinations li)
                               (LetterDistribution li)).2) →
  ∃ s',
    CreateLexiconDatabase env fs FamilyCSW FamilyTWL lexiconName li lexMap
                          dbExists quitIfExists s = (Ret tt, s')
    ∧ txn s' = None
    ∧ disk s' = builtTables fs FamilyCSW FamilyTWL li lexMap lexFamily
                            lexiconName.
Proof.
  intros Hq Hfam Hlen. unfold CreateLexiconDatabase, builtTables.
  destruct (populateAlphsDefs fs (LexiconFilename li) (Combinations li)
              (LetterDistribution li)) as [definitions alphagrams].
  simpl in Hlen.
  unfold bind at 1. simpl. unfold bind at 1.
  unfold createSqliteDb. rewrite Hq. rewrite Hfam.
  unfold sql_Open, db_Exec, db_Begin, tx_Prepare, exitIfError, ask.
  do 16 (unfold bind at 1; simpl; rewrite ?Hcalm; simpl).
  set (prior := priorLexicon lexMap lexFamily lexiconName).
  set (m := if prior is Some _ then ret ()
            else log Error "no prior lexicon, ignoring..." []).
  assert (∀ s0, ∃ s1, m s0 = (Ret tt, s1)
                      ∧ disk s1 = disk s0 ∧ txn s1 = txn s0) as Hm.
  { intros s0. unfold m. destruct prior; by eexists. }
  unfold bind at 1.
  edestruct Hm as (s1 & -> & Hd1 & Ht1).
  simpl in Hd1, Ht1.
  unfold bind at 1.
  edestruct (alphLoop_calm li (newestInFamily lexMap FamilyCSW)
               (newestInFamily lexMap FamilyTWL) lexFamily prior definitions
               0%nat (sort_Sort (alphaMapValues alphagrams))
               (replicate 16 0) s1) as (s2 & Hloop & Hd2 & Ht2).
  { rewrite Forall_forall in Hlen |- *. intros a Ha. apply Hlen.
    by rewrite <- (sort_Sort_perm (alphaMapValues alphagrams)). }
  { done. }
  { exact Ht1. }
  simpl in Hloop. rewrite Hloop. clear Hloop.
  unfold tx_Commit, ask.
  do 2 (unfold bind at 1; simpl; rewrite ?Hcalm; simpl).
  destruct (findDeletedWords fs li prior) as [|w ws] eqn:Hdel; simpl.
  - do 3 (unfold bind at 1; simpl; rewrite ?Hcalm; simpl).
    eexists. split; [reflexivity|]. split; [done|]. simpl.
    rewrite Ht2. simpl. done.
  - rewrite <- Hdel.
    do 6 (unfold bind at 1; simpl; rewrite ?Hcalm; simpl).
    match goal with
    | |- context [forM ?l ?f ?s0] =>
      edestruct (forM_deleted_calm l s0) as (s3 & Hdl & Hd3 & Ht3);
        [simpl; reflexivity|]
    end.
    unfold exitIfError in Hdl. rewrite Hdl. clear Hdl. simpl in Hd3, Ht3.
    repeat (unfold bind at 1; simpl; rewrite ?Hcalm; simpl).
    eexists. split; [reflexivity|]. split; [done|]. simpl.
    rewrite Ht3. simpl. rewrite Ht2. simpl. done.
Qed.

End CalmBuild.

(* ===================================================================== *)
(** ** Properties: probability ranks *)
(* ===================================================================== *)

Section Ranking.

Context `{Engine}.
Variables (li : LexiconInfo) (sy : string → string).

Lemma bump_lookup probs wl L :
  (wl ≤ 15)%nat →
  bump probs wl !! L =
  if decide (wl = L) then (λ p, Go.uint32 (p + 1)) <$> probs !! L
  else probs !! L.
Proof.
  intros Hwl. unfold bump.
  destruct (Nat.leb_spec wl 15); [|lia].
  destruct (decide (wl = L)) as [->|Hne].
  - apply list_lookup_alter_eq.
  - by apply list_lookup_alter_ne.
Qed.

Lemma bump_lookup_ne probs wl L : wl ≠ L → bump probs wl !! L = probs !! L.
Proof.
  intros Hne. unfold bump. destruct (wl <=? 15)%nat; [|done].
  by apply list_lookup_alter_ne.
Qed.

Lemma rankedRows_keys alphs probs :
  (λ r, (row_alphagram r, row_combinations r, row_length r))
    <$> rankedRows li sy alphs probs
  = (λ a, (alphagram a, combinations a, Z.of_nat (runeLen a))) <$> alphs.
Proof.
  revert probs. induction alphs as [|a alphs IH]; intros probs; simpl;
    [done|]. by rewrite IH.
Qed.

Lemma rankedRows_length alphs probs :
  length (rankedRows li sy alphs probs) = length alphs.
Proof.
  revert probs. induction alphs as [|a alphs IH]; intros probs; simpl;
    [done|]. by rewrite IH.
Qed.

(** The rows of one length carry the counter values that follow the
    counter's starting value, in order. *)
Lemma rankedRows_cohort (L : nat) alphs probs p :
  (L ≤ 15)%nat →
  probs !! L = Some p →
  0 ≤ p →
  p + Z.of_nat (length (filter (λ a, runeLen a = L) alphs)) < 2 ^ 32 →
  row_probability
    <$> filter (λ r, row_length r = Z.of_nat L) (rankedRows li sy alphs probs)
  = (λ i, p + Z.of_nat i)
      <$> seq 1 (length (filter (λ a, runeLen a = L) alphs)).
Proof.
  intros HL. revert probs p.
  induction alphs as [|a alphs IH]; intros probs p Hp Hp0 Hb; simpl; [done|].
  rewrite !filter_cons. simpl.
  destruct (decide (runeLen a = L)) as [Heq|Hne].
  - subst L. rewrite decide_True by done. rewrite filter_cons in Hb.
    rewrite decide_True in Hb by done. simpl length in Hb.
    assert (bump probs (runeLen a) !! runeLen a = Some (p + 1)) as Hp'.
    { rewrite bump_lookup by lia. rewrite decide_True by done.
      rewrite Hp. simpl. f_equal. unfold Go.uint32.
      apply Z.mod_small. lia. }
    simpl. f_equal.
    + rewrite Hp'. simpl. lia.
    + rewrite (IH _ (p + 1)); [|done|lia|lia].
      rewrite <- (fmap_S_seq 1), <- list_fmap_compose.
      apply list_fmap_ext. intros _ i _. simpl. lia.
  - rewrite decide_False by lia. rewrite filter_cons in Hb.
    rewrite decide_False in Hb by done.
    apply IH; [|done|done]. by rewrite bump_lookup_ne.
Qed.

Lemma filter_none {A} (P : A → Prop) `{∀ x, Decision (P x)} (l : list A) :
  Forall (λ x, ¬ P x) l → filter P l = [].
Proof.
  induction 1 as [|x l Hx Hl IH]; [done|].
  rewrite filter_cons. by rewrite decide_False.
Qed.

Lemma rankedRows_cohort_empty (L : nat) alphs probs :
  Forall (λ a, runeLen a ≠ L) alphs →
  filter (λ r, row_length r = Z.of_nat L) (rankedRows li sy alphs probs) = [].
Proof.
  intros Hall. revert probs.
  induction Hall as [|a alphs Ha Hall IH]; intros probs; simpl; [done|].
  rewrite filter_cons. simpl. rewrite decide_False by lia. apply IH.
Qed.

Lemma StronglySorted_filter {A} (R : relation A) (P : A → Prop)
    `{∀ x, Decision (P x)} (l : list A) :
  StronglySorted R l → StronglySorted R (filter P l).
Proof.
  induction 1 as [|x l Hs IH Hx]; [constructor|].
  rewrite filter_cons. destruct (decide (P x)); [|done].
  constructor; [done|]. rewrite Forall_forall in Hx |- *.
  intros y [_ Hy]%list_elem_of_filter. by apply Hx.
Qed.

Lemma StronglySorted_fmap_inv {A B} (f : A → B) (R : relation B)
    (l : list A) :
  StronglySorted R (f <$> l) → StronglySorted (λ x y, R (f x) (f y)) l.
Proof.
  induction l as [|x l IH]; simpl; intros Hs; [constructor|].
  apply StronglySorted_inv in Hs as [Hs Hx].
  constructor; [by apply IH|].
  rewrite Forall_forall in Hx. rewrite Forall_forall.
  intros y Hy. apply Hx. by apply list_elem_of_fmap_2.
Qed.

End Ranking.

Section RankedBuild.

Context `{Engine}.
Variable fs : string → option (list string).

(** Every class of a scanned file is stored under its own alphagram
    string, with the combination count of that string. *)
Lemma scanned_class filename comb dist a alph :
  (populateAlphsDefs fs filename comb dist).2 !! a = Some alph →
  alph = {| words := members dist a (scannedWords fs filename);
            combinations := comb a true; alphagram := a;
            wordCount := 0; uniqToLexSplit := 0; updateToLex := 0 |}.
Proof.
  unfold populateAlphsDefs, scanFile. simpl.
  destruct (scan_invariant comb dist (scannerLines fs filename))
    as (Ha & _).
  unfold scan0 in Ha. rewrite Ha. unfold classOf, scannedWords.
  case_bool_decide; [done|]. by intros [= <-].
Qed.

Lemma StronglySorted_weaken {A} (R1 R2 : relation A) (l : list A) :
  (∀ x y, R1 x y → R2 x y) → StronglySorted R1 l → StronglySorted R2 l.
Proof.
  intros HR. induction 1 as [|x l Hs IH Hx]; constructor; [done|].
  eapply Forall_impl; [exact Hx|]. intros y. apply HR.
Qed.

Lemma length_filter_fmap {A B} (f : A → B) (P : B → Prop) (Q : A → Prop)
    `{∀ y, Decision (P y)} `{∀ x, Decision (Q x)} (l : list A) :
  Forall (λ x, P (f x) ↔ Q x) l →
  length (filter P (f <$> l)) = length (filter Q l).
Proof.
  induction 1 as [|x l Hx Hl IH]; [done|].
  rewrite fmap_cons, !filter_cons.
  destruct (decide (P (f x))), (decide (Q x)); simpl; try tauto;
    by rewrite IH.
Qed.

Lemma ranked_rows_table li sy (classes : gmap string Alphagram) :
  (∀ a alph, classes !! a = Some alph → alphagram alph = a) →
  Forall (λ kv, (length (Go.runes kv.1) ≤ 15)%nat) (map_to_list classes) →
  Z.of_nat (size classes) < 2 ^ 32 →
  ranked_table classes
    (rankedRows li sy (sort_Sort (alphaMapValues classes)) (replicate 16 0)).
Proof.
  intros Hkey Hlen Hsize.
  set (vals := alphaMapValues classes).
  set (rows := rankedRows li sy (sort_Sort vals) (replicate 16 0)).
  assert (Forall (λ kv : string * Alphagram, alphagram kv.2 = kv.1)
                 (map_to_list classes)) as Hkeys.
  { apply Forall_forall. intros [k v] Hkv. simpl.
    apply Hkey. by apply elem_of_map_to_list. }
  assert (alphagram <$> vals = (map_to_list classes).*1) as Hvk.
  { unfold vals, alphaMapValues. rewrite <- list_fmap_compose.
    apply Forall_fmap_ext_1. eapply Forall_impl; [exact Hkeys|].
    by intros [k v]. }
  assert (NoDup (alphagram <$> vals)) as Hnd.
  { rewrite Hvk. apply NoDup_fst_map_to_list. }
  assert (Forall (λ a, (runeLen a ≤ 15)%nat) (sort_Sort vals)) as Hwl.
  { rewrite (sort_Sort_perm vals). unfold vals, alphaMapValues.
    apply Forall_fmap. rewrite Forall_forall in Hlen, Hkeys |- *.
    intros kv Hkv. simpl. unfold runeLen. rewrite (Hkeys kv Hkv).
    by apply Hlen. }
  pose proof (rankedRows_keys li sy (sort_Sort vals) (replicate 16 0))
    as Hrk. fold rows in Hrk.
  assert (StronglySorted ranks_before rows) as Hsorted.
  { set (Rk := λ k1 k2 : string * Z * Z,
                 k2.1.2 < k1.1.2
                 ∨ (k1.1.2 = k2.1.2 ∧ String.ltb k1.1.1 k2.1.1 = true)).
    set (fr := λ r, (row_alphagram r, row_combinations r, row_length r)).
    apply (StronglySorted_weaken (λ r1 r2, Rk (fr r1) (fr r2)));
      [intros r1 r2 Hr; exact Hr|].
    apply (StronglySorted_fmap_inv fr Rk rows). unfold fr.
    rewrite Hrk.
    eapply StronglySorted_fmap; [|apply sort_Sort_strict; exact Hnd].
    intros x y. simpl. unfold Less.
    destruct (Z.eqb_spec (combinations x) (combinations y)).
    + intros. by right.
    + rewrite Z.ltb_lt. intros. by left. }
  split; [|split; [exact Hsorted|]].
  - assert ((λ r, (row_alphagram r, row_combinations r)) <$> rows
            = (λ a, (alphagram a, combinations a)) <$> sort_Sort vals) as ->.
    { change ((fst ∘ (λ r, (row_alphagram r, row_combinations r,
                            row_length r))) <$> rows
              = (fst ∘ (λ a, (alphagram a, combinations a,
                              Z.of_nat (runeLen a)))) <$> sort_Sort vals).
      by rewrite !list_fmap_compose, Hrk. }
    rewrite (sort_Sort_perm vals). unfold vals, alphaMapValues.
    rewrite <- list_fmap_compose.
    assert ((λ a, (alphagram a, combinations a)) ∘ snd
              <$> map_to_list classes
            = (λ kv, (kv.1, combinations kv.2)) <$> map_to_list classes)
      as ->; [|done].
    apply Forall_fmap_ext_1.
    eapply Forall_impl; [exact Hkeys|]. intros [k v]; simpl.
    by intros ->.
  - intros L.
    assert (length (filter (λ a, runeLen a = L) (sort_Sort vals))
            = length (filter (λ kv : string * Alphagram,
                                length (Go.runes kv.1) = L)
                             (map_to_list classes))) as HK.
    { rewrite (sort_Sort_perm vals). unfold vals, alphaMapValues.
      apply length_filter_fmap. eapply Forall_impl; [exact Hkeys|].
      intros [k v]; simpl. unfold runeLen. by intros ->. }
    assert (row_probability <$> cohort L rows
            = Z.of_nat <$> seq 1 (length (filter (λ a, runeLen a = L)
                                                 (sort_Sort vals))))
      as Hranks.
    { destruct (decide (L ≤ 15)%nat) as [HL|HL].
      - unfold cohort, rows.
        rewrite (rankedRows_cohort li sy L _ _ 0); [done|done| |done|].
        + apply lookup_replicate_2. lia.
        + pose proof (length_filter (λ a, runeLen a = L) (sort_Sort vals))
            as Hle.
          assert (length (sort_Sort vals) = size classes) as Hsz.
          { rewrite (sort_Sort_perm vals). unfold vals, alphaMapValues.
            by rewrite length_fmap, length_map_to_list. }
          lia.
      - assert (Forall (λ a, runeLen a ≠ L) (sort_Sort vals)) as Hno.
        { eapply Forall_impl; [exact Hwl|]. intros a. simpl. lia. }
        unfold cohort, rows. rewrite rankedRows_cohort_empty by done.
        by rewrite filter_none. }
    split; [|split].
    + rewrite Hranks. do 2 f_equal.
      apply (f_equal length) in Hranks.
      by rewrite !length_fmap, length_seq in Hranks.
    + rewrite <- HK. apply (f_equal length) in Hranks.
      by rewrite !length_fmap, length_seq in Hranks.
    + apply StronglySorted_filter.
      eapply StronglySorted_weaken; [|exact Hsorted].
      unfold ranks_before. intros r1 r2 [?|[? _]]; lia.
Qed.

End RankedBuild.

(* ===================================================================== *)
(** ** C1: the order of the table and the probability ranks *)
(* ===================================================================== *)

Section ClaimRanks.

Context `{Engine}.
Variable env : nat → Op → bool.
Variable fs : string → option (list string).
Variables FamilyCSW FamilyTWL : FamilyName.

(** C1, as the code has it.  When no database operation fails, the
    build is not refused, the lexicon is known, every alphagram has at
    most 15 runes and there are fewer than 2^32 alphagrams (the
    counters are [uint32]), the build completes and table [alphagrams]
    holds one row per alphagram class in the order (combinations
    descending, alphagram ascending); within each length the
    probabilities are 1..K in that order, K the number of classes of
    that length, so that combinations never increase along the ranks
    and rank 1 is the class with the most combinations. *)
Theorem probability_ranks_dense lexiconName li lexMap dbExists quitIfExists
    lexFamily s :
  let classes :=
    (populateAlphsDefs fs (LexiconFilename li) (Combinations li)
                       (LetterDistribution li)).2 in
  never_fails env →
  quitIfExists && dbExists = false →
  familyName lexMap lexiconName = Some lexFamily →
  Forall (λ kv, (length (Go.runes kv.1) ≤ 15)%nat) (map_to_list classes) →
  Z.of_nat (size classes) < 2 ^ 32 →
  ∃ s',
    CreateLexiconDatabase env fs FamilyCSW FamilyTWL lexiconName li lexMap
                          dbExists quitIfExists s = (Ret tt, s')
    ∧ ranked_table classes (tbl_alphagrams (disk s')).
Proof.
  intros classes Hcalm Hq Hfam Hlen Hsize.
  assert (∀ a alph, classes !! a = Some alph → alphagram alph = a) as Hkey.
  { intros a alph Hl. apply (scanned_class fs) in Hl. by subst alph. }
  destruct (build_calm env fs FamilyCSW FamilyTWL Hcalm lexiconName li lexMap
              dbExists quitIfExists lexFamily s Hq Hfam)
    as (s' & Hrun & _ & Hdisk).
  { fold classes. unfold alphaMapValues. apply Forall_fmap.
    rewrite Forall_forall in Hlen |- *. intros [k v] Hkv. simpl.
    unfold runeLen. rewrite (Hkey k v) by (by apply elem_of_map_to_list).
    by apply (Hlen (k, v)). }
  exists s'. split; [exact Hrun|]. rewrite Hdisk. unfold builtTables.
  fold classes.
  destruct (populateAlphsDefs fs (LexiconFilename li) (Combinations li)
              (LetterDistribution li)) as [definitions alphagrams] eqn:Hpop.
  simpl. subst classes. simpl in *.
  by apply ranked_rows_table.
Qed.

End ClaimRanks.

(* ===================================================================== *)
(** ** C6 and C10: deleted words, repeated words *)
(* ===================================================================== *)

Section ClaimRows.

Context `{Engine}.
Variable env : nat → Op → bool.
Variable fs : string → option (list string).
Variables FamilyCSW FamilyTWL : FamilyName.

Lemma elem_of_alphaMapValues (m : gmap string Alphagram) alph :
  alph ∈ alphaMapValues m ↔ ∃ a, m !! a = Some alph.
Proof.
  unfold alphaMapValues. rewrite list_elem_of_fmap. split.
  - intros [[a v] [-> Hin]]. exists a. by apply elem_of_map_to_list.
  - intros [a Ha]. exists (a, alph). split; [done|].
    by apply elem_of_map_to_list.
Qed.

Lemma elem_of_map_keys {A} (m : gmap string A) k :
  k ∈ (map_to_list m).*1 ↔ is_Some (m !! k).
Proof.
  rewrite list_elem_of_fmap. split.
  - intros [[k' v] [-> Hin]]. exists v. by apply elem_of_map_to_list.
  - intros [v Hv]. exists (k, v). split; [done|].
    by apply elem_of_map_to_list.
Qed.

Lemma scanned_definitions filename comb dist w :
  is_Some ((populateAlphsDefs fs filename comb dist).1 !! w)
  ↔ w ∈ scannedWords fs filename.
Proof.
  unfold populateAlphsDefs, scanFile, expandDefinitions. simpl.
  destruct (scan_invariant comb dist (scannerLines fs filename))
    as (_ & Hd & _).
  apply Hd.
Qed.

Lemma scanned_classes filename comb dist a :
  (populateAlphsDefs fs filename comb dist).2 !! a
  = classOf comb dist a (scannedWords fs filename).
Proof.
  unfold populateAlphsDefs, scanFile. simpl.
  destruct (scan_invariant comb dist (scannerLines fs filename))
    as (Ha & _).
  apply Ha.
Qed.

Lemma lengths_within (classes : gmap string Alphagram) :
  (∀ a alph, classes !! a = Some alph → alphagram alph = a) →
  Forall (λ kv, (length (Go.runes kv.1) ≤ 15)%nat) (map_to_list classes) →
  Forall (λ a, (runeLen a ≤ 15)%nat) (alphaMapValues classes).
Proof.
  intros Hkey Hlen. unfold alphaMapValues. apply Forall_fmap.
  rewrite Forall_forall in Hlen. rewrite Forall_forall.
  intros [k v] Hkv. simpl.
  unfold runeLen. rewrite (Hkey k v) by (by apply elem_of_map_to_list).
  by apply (Hlen (k, v)).
Qed.

(** C6.  When nothing fails (and the main loop meets no alphagram
    longer than the counter array), the build completes; with a prior
    edition, table [deletedwords] holds one row (word, byte length) for
    each word of the prior edition's list that the current dictionary
    lacks, and no other, in increasing order of the word; without a
    prior edition the table is empty. *)
Theorem deleted_words_persisted lexiconName li lexMap dbExists quitIfExists
    lexFamily s :
  never_fails env →
  quitIfExists && dbExists = false →
  familyName lexMap lexiconName = Some lexFamily →
  Forall (λ kv, (length (Go.runes kv.1) ≤ 15)%nat)
         (map_to_list (populateAlphsDefs fs (LexiconFilename li)
                         (Combinations li) (LetterDistribution li)).2) →
  ∃ s',
    CreateLexiconDatabase env fs FamilyCSW FamilyTWL lexiconName li lexMap
                          dbExists quitIfExists s = (Ret tt, s')
    ∧ match priorLexicon lexMap lexFamily lexiconName with
      | None => tbl_deletedwords (disk s') = Some []
      | Some prior =>
        ∃ deleted,
          tbl_deletedwords (disk s')
            = Some ((λ w, (w, Go.len w)) <$> deleted)
          ∧ Sorted String.le deleted
          ∧ NoDup deleted
          ∧ ∀ w, w ∈ deleted
                 ↔ w ∈ scannedWords fs (LexiconFilename prior)
                   ∧ FindWord (Dawg li) w = false
      end.
Proof.
  intros Hcalm Hq Hfam Hlen.
  destruct (build_calm env fs FamilyCSW FamilyTWL Hcalm lexiconName li lexMap
              dbExists quitIfExists lexFamily s Hq Hfam)
    as (s' & Hrun & _ & Hdisk).
  { apply lengths_within; [|done]. intros a alph Hl.
    apply scanned_class in Hl. by subst alph. }
  exists s'. split; [exact Hrun|]. rewrite Hdisk. unfold builtTables.
  destruct (populateAlphsDefs fs (LexiconFilename li) (Combinations li)
              (LetterDistribution li)) as [definitions alphagrams].
  simpl.
  destruct (priorLexicon lexMap lexFamily lexiconName) as [prior|]; [|done].
  eexists. split; [reflexivity|].
  split; [apply sort_Strings_sorted|]. unfold findDeletedWords. split.
  - rewrite sort_Strings_perm. apply NoDup_filter, NoDup_fst_map_to_list.
  - intros w. rewrite sort_Strings_perm, list_elem_of_filter.
    rewrite elem_of_map_keys, scanned_definitions. tauto.
Qed.

(** The word rows of one alphagram string, read off the table in
    order, are the member words of the classes with that string. *)
Lemma word_rows_one li defs sy x a (ws : list string) :
  row_word
    <$> filter (λ r, row_word_alphagram r = a)
               ((λ w, wordRow li defs x (sy w) w) <$> ws)
  = if decide (alphagram x = a) then ws else [].
Proof.
  induction ws as [|w ws IHw]; [by destruct (decide _)|].
  rewrite fmap_cons, filter_cons.
  change (row_word_alphagram (wordRow li defs x (sy w) w))
    with (alphagram x).
  destruct (decide (alphagram x = a)).
  - rewrite fmap_cons, IHw. done.
  - exact IHw.
Qed.

Lemma word_rows_by_alphagram li defs sy a alphs :
  row_word
    <$> filter (λ r, row_word_alphagram r = a) (allWordRows li defs sy alphs)
  = flat_map (λ alph, if decide (alphagram alph = a) then words alph else [])
             alphs.
Proof.
  induction alphs as [|x alphs IH]; [done|].
  unfold allWordRows. simpl. fold (allWordRows li defs sy alphs).
  rewrite filter_app, fmap_app, IH. f_equal.
  apply word_rows_one.
Qed.

Lemma select_class a alph (alphs : list Alphagram) :
  NoDup (alphagram <$> alphs) → alph ∈ alphs → alphagram alph = a →
  flat_map (λ x, if decide (alphagram x = a) then words x else []) alphs
  = words alph.
Proof.
  induction alphs as [|x alphs IH]; simpl; [by intros _ ?%elem_of_nil|].
  rewrite NoDup_cons. intros [Hnotin Hnd] Hin Ha.
  assert (∀ l : list Alphagram, a ∉ alphagram <$> l →
            flat_map (λ x, if decide (alphagram x = a) then words x else [])
                     l = []) as Hnone.
  { clear. induction l as [|y l IHl]; simpl; [done|].
    rewrite not_elem_of_cons. intros [Hy Hl].
    rewrite decide_False by done. by apply IHl. }
  apply elem_of_cons in Hin as [->|Hin].
  - rewrite decide_True by done. rewrite Hnone; [by rewrite app_nil_r|].
    by rewrite <- Ha.
  - rewrite decide_False.
    + simpl. by apply IH.
    + intros Hx. destruct Hnotin. rewrite Hx, <- Ha.
      by apply list_elem_of_fmap_2.
Qed.

Lemma select_no_class a (alphs : list Alphagram) :
  a ∉ alphagram <$> alphs →
  flat_map (λ x, if decide (alphagram x = a) then words x else []) alphs = [].
Proof.
  induction alphs as [|y l IHl]; simpl; [done|].
  rewrite not_elem_of_cons. intros [Hy Hl].
  rewrite decide_False by done. by apply IHl.
Qed.

Lemma rankedRows_elem li sy alphs probs r :
  r ∈ rankedRows li sy alphs probs →
  ∃ alph, alph ∈ alphs ∧ row_alphagram r = alphagram alph
          ∧ row_num_anagrams r = Some (Z.of_nat (length (words alph))).
Proof.
  revert probs. induction alphs as [|x alphs IH]; intros probs; simpl.
  - by intros ?%elem_of_nil.
  - intros [->|Hin]%elem_of_cons.
    + exists x. split; [by left|]. done.
    + destruct (IH _ Hin) as (alph & ? & ? & ?). exists alph.
      split; [by right|]. done.
Qed.

(** C10.  A word that stands on several lines is appended to its class
    each time: the class of an alphagram string holds, in input order
    and with repetitions, every occurrence of a word with that
    alphagram, while the combination count is requested once per
    alphagram.  A build in which nothing fails then writes one [words]
    row per occurrence, and [num_anagrams] of an alphagram row is the
    number of occurrences. *)
Theorem repeated_words_kept lexiconName li lexMap dbExists quitIfExists
    lexFamily s :
  let ws := scannedWords fs (LexiconFilename li) in
  let dist := LetterDistribution li in
  let scan := scanFile fs (LexiconFilename li) (Combinations li) dist in
  never_fails env →
  quitIfExists && dbExists = false →
  familyName lexMap lexiconName = Some lexFamily →
  Forall (λ kv, (length (Go.runes kv.1) ≤ 15)%nat)
         (map_to_list (scan_alphagrams scan)) →
  (∀ a, scan_alphagrams scan !! a = classOf (Combinations li) dist a ws)
  ∧ NoDup (scan_fetched scan)
  ∧ (∀ a, a ∈ scan_fetched scan ↔ a ∈ MakeAlphagram dist <$> ws)
  ∧ ∃ s',
      CreateLexiconDatabase env fs FamilyCSW FamilyTWL lexiconName li lexMap
                            dbExists quitIfExists s = (Ret tt, s')
      ∧ (∀ a, row_word <$> filter (λ r, row_word_alphagram r = a)
                                  (tbl_words (disk s'))
              = members dist a ws)
      ∧ (∀ r, r ∈ tbl_alphagrams (disk s') →
              row_num_anagrams r
              = Some (Z.of_nat (length (members dist (row_alphagram r) ws)))).
Proof.
  intros ws dist scan Hcalm Hq Hfam Hlen.
  destruct (scan_invariant (Combinations li) dist
              (scannerLines fs (LexiconFilename li)))
    as (Ha & _ & Hnd & Hf).
  fold (scannedWords fs (LexiconFilename li)) in Ha. fold ws in Ha.
  change (foldl (scanLine (Combinations li) dist) scan0
                (scannerLines fs (LexiconFilename li))) with scan in *.
  split; [exact Ha|]. split; [exact Hnd|]. split.
  { intros a. rewrite Hf, Ha. unfold classOf.
    rewrite list_elem_of_fmap. case_bool_decide as Hm.
    - split; [by intros [? ?]|]. intros (w & -> & Hw).
      assert (w ∈ members dist (MakeAlphagram dist w) ws) as Hin.
      { unfold members. by apply list_elem_of_filter. }
      rewrite Hm in Hin. by apply elem_of_nil in Hin.
    - split; [|by eexists]. intros _.
      destruct (members dist a ws) as [|w l] eqn:Hmem; [done|].
      assert (w ∈ members dist a ws) as Hin by (rewrite Hmem; by left).
      unfold members in Hin. apply list_elem_of_filter in Hin as [Hw Hin].
      by exists w. }
  assert (∀ a alph, scan_alphagrams scan !! a = Some alph →
                    alphagram alph = a ∧ words alph = members dist a ws)
    as Hkey.
  { intros a alph. rewrite Ha. unfold classOf.
    case_bool_decide; [done|]. by intros [= <-]. }
  destruct (build_calm env fs FamilyCSW FamilyTWL Hcalm lexiconName li lexMap
              dbExists quitIfExists lexFamily s Hq Hfam)
    as (s' & Hrun & _ & Hdisk).
  { apply lengths_within; [|done]. intros a alph Hl. by apply Hkey. }
  exists s'. split; [exact Hrun|]. rewrite Hdisk. unfold builtTables.
  change (populateAlphsDefs fs (LexiconFilename li) (Combinations li)
            (LetterDistribution li))
    with (expandDefinitions (scan_definitions scan), scan_alphagrams scan).
  simpl.
  set (alphs := sort_Sort (alphaMapValues (scan_alphagrams scan))).
  assert (NoDup (alphagram <$> alphs)) as Hndk.
  { unfold alphs. rewrite (sort_Sort_perm _).
    assert (alphagram <$> alphaMapValues (scan_alphagrams scan)
            = (map_to_list (scan_alphagrams scan)).*1) as ->.
    { unfold alphaMapValues. rewrite <- list_fmap_compose.
      apply Forall_fmap_ext_1, Forall_forall. intros [k v] Hkv. simpl.
      by apply Hkey, elem_of_map_to_list. }
    apply NoDup_fst_map_to_list. }
  assert (∀ alph,
            alph ∈ alphs ↔ ∃ a, scan_alphagrams scan !! a = Some alph)
    as Hin.
  { intros alph. unfold alphs. rewrite (sort_Sort_perm _).
    apply elem_of_alphaMapValues. }
  split.
  - intros a. rewrite word_rows_by_alphagram.
    destruct (scan_alphagrams scan !! a) as [alph|] eqn:Hl.
    + destruct (Hkey _ _ Hl) as [Hk Hw]. rewrite <- Hw.
      apply select_class; [done| |done]. apply Hin. by exists a.
    + rewrite select_no_class.
      * rewrite Ha in Hl. unfold classOf in Hl.
        case_bool_decide; [done|discriminate].
      * intros (alph & -> & Halph)%list_elem_of_fmap.
        apply Hin in Halph as [a' Ha'].
        destruct (Hkey _ _ Ha') as [<- _]. congruence.
  - intros r Hr. apply rankedRows_elem in Hr as (alph & Halph & -> & ->).
    apply Hin in Halph as [a' Ha'].
    destruct (Hkey _ _ Ha') as [-> ->]. done.
Qed.

End ClaimRows.

(* ===================================================================== *)
(** ** C8: the order of the persistence steps *)
(* ===================================================================== *)

Section ClaimOrder.

Context `{Engine}.
Variable env : nat → Op → bool.
Variable fs : string → option (list string).
Variables FamilyCSW FamilyTWL : FamilyName.

Lemma wordLoop_trace li lc lt fam prior defs alph ws acc s :
  ∃ l s' t,
    wordLoop env FamilyCSW FamilyTWL li lc lt fam prior defs alph ws acc s
    = (Ret l, s')
    ∧ trace s' = trace s ++ t
    ∧ Forall (λ o, is_main_insert o = true) t.
Proof.
  revert acc s. induction ws as [|w ws IH]; intros acc s; simpl.
  - exists acc, s, []. by rewrite app_nil_r.
  - unfold bind at 1. unfold stmt_Exec, bind, ask.
    destruct (env _ _); simpl.
    + edestruct IH as (l & s' & t & -> & Ht & Hall).
      exists l, s'. eexists (_ :: t). split; [done|].
      split; [rewrite Ht; simpl; by rewrite <- app_assoc|].
      by constructor.
    + edestruct IH as (l & s' & t & -> & Ht & Hall).
      exists l, s'. eexists (_ :: t). split; [done|].
      split; [rewrite Ht; simpl; by rewrite <- app_assoc|].
      by constructor.
Qed.

Lemma alphLoop_trace li lc lt fam prior defs idx alphs probs s r s' :
  alphLoop env FamilyCSW FamilyTWL li lc lt fam prior defs idx alphs probs s
  = (r, s') →
  ∃ t, trace s' = trace s ++ t ∧ Forall (λ o, is_main_insert o = true) t.
Proof.
  revert idx probs s.
  induction alphs as [|alph alphs IH]; intros idx probs s; simpl.
  - intros [= <- <-]. exists []. by rewrite app_nil_r.
  - unfold bind at 1.
    set (s0 := (if Z.of_nat idx mod 10000 =? 0
                then log Debug "%d..." [ArgZ (Z.of_nat idx)]
                else ret tt) s).
    assert (s0.1 = Ret tt ∧ trace s0.2 = trace s) as (Hr & Ht0).
    { unfold s0. by destruct (_ =? 0). }
    destruct s0 as [r0 s0']. simpl in Hr, Ht0. subst r0.
    unfold bind at 1.
    destruct (wordLoop_trace li lc lt fam prior defs alph (words alph) [] s0')
      as (l & s1 & t1 & -> & Ht1 & Hall1).
    destruct (Go.index _ _) as [p|].
    + unfold bind at 1. unfold stmt_Exec at 1, bind at 1, ask at 1.
      destruct (env _ _); simpl.
      * intros [= <- <-]. simpl. eexists (t1 ++ [_]).
        split; [rewrite Ht1, Ht0; by rewrite <- app_assoc|].
        apply Forall_app. split; [done|]. by repeat constructor.
      * unfold bind at 1. simpl. intros Hrest.
        apply IH in Hrest as (t & Ht & Hall). simpl in Ht.
        eexists (t1 ++ [_] ++ t).
        split; [rewrite Ht, Ht1, Ht0; by rewrite <- !app_assoc|].
        apply Forall_app. split; [done|]. by constructor.
    + unfold panic. intros [= <- <-]. exists t1.
      split; [by rewrite Ht1, Ht0|done].
Qed.

Lemma forM_deleted_trace ws s r s' :
  forM ws (λ word, err <- stmt_Exec env (InsertDeleted word (Go.len word)) ;;
                   exitIfError err) s = (r, s') →
  ∃ t, trace s' = trace s ++ t
       ∧ Forall (λ o, is_deleted_insert o = true) t
       ∧ (ws ≠ [] → t ≠ []).
Proof.
  revert s. induction ws as [|w ws IH]; intros s; simpl.
  - intros [= <- <-]. exists []. by rewrite app_nil_r.
  - unfold bind at 1. unfold bind at 1.
    unfold stmt_Exec at 1, bind at 1, ask at 1.
    destruct (env _ _); simpl.
    + intros [= <- <-]. simpl. eexists [_]. split; [done|].
      split; [by repeat constructor|done].
    + intros Hrest. apply IH in Hrest as (t & Ht & Hall & _).
      simpl in Ht. eexists (_ :: t).
      split; [rewrite Ht; by rewrite <- app_assoc|].
      split; [by constructor|done].
Qed.

Lemma build_trace lexiconName li lexMap dbExists quitIfExists t0 r s' :
  CreateLexiconDatabase env fs FamilyCSW FamilyTWL lexiconName li lexMap
                        dbExists quitIfExists (start t0) = (r, s') →
  Forall (λ o, is_version_insert o = false) (trace s')
  ∨ ∃ main del,
      trace s' = [OpOpen; OpExec CreateSchema; OpOpen] ++ main ++ del
                 ++ [OpExec (InsertVersion CurrentVersion)]
      ∧ main_transaction main ∧ deletion_transaction del.
Proof.
  unfold CreateLexiconDatabase.
  destruct (populateAlphsDefs fs (LexiconFilename li) (Combinations li)
              (LetterDistribution li)) as [definitions alphagrams].
  unfold createSqliteDb, sql_Open, db_Exec, db_Begin, tx_Prepare, tx_Commit,
    exitIfError, ask.
  destruct (quitIfExists && dbExists).
  { unfold bind, log, ret. simpl. intros [= <- <-]. left. constructor. }
  do 24 step_any env.
  destruct (familyName lexMap lexiconName) as [lexFamily|];
    [|unfold fatal; intros [= <- <-]; left; simpl; by repeat constructor].
  set (prior := priorLexicon lexMap lexFamily lexiconName).
  set (m := if prior is Some _ then ret ()
            else log Error "no prior lexicon, ignoring..." []).
  assert (∀ s0, ∃ s1, m s0 = (Ret tt, s1) ∧ trace s1 = trace s0) as Hm.
  { intros s0. unfold m. destruct prior; by eexists. }
  unfold bind at 1.
  edestruct Hm as (s1 & -> & Ht1). simpl in Ht1.
  unfold bind at 1.
  destruct (alphLoop _ _ _ _ _ _ _ _ _ _ _ _ s1) as [r2 s2] eqn:Hloop.
  apply alphLoop_trace in Hloop as (ins & Ht2 & Hins).
  rewrite Ht1 in Ht2.
  assert (Forall (λ o, is_version_insert o = false) ins) as Hquiet.
  { eapply Forall_impl; [exact Hins|]. by intros [| | |[]| | | | | |]. }
  destruct r2 as [probs| |];
    [|intros [= <- <-]; left; rewrite Ht2; apply Forall_app;
      split; [by repeat constructor|done]..].
  do 2 (unfold bind at 1; simpl).
  match goal with
  | |- context [on_txn ?f (if ?b then ?x else ?y)] =>
    set (s3 := on_txn f (if b then x else y));
    assert (trace s3 = trace s2 ++ [OpCommit]) as Ht3
      by (unfold s3; by destruct b);
    clearbody s3
  end.
  rewrite Ht2 in Ht3. simpl in Ht3.
  assert (main_transaction
            ([OpBegin; OpPrepare QInsertAlph; OpPrepare QInsertWord]
               ++ ins ++ [OpCommit])) as Hmain.
  { by exists ins. }
  destruct (findDeletedWords fs li prior) as [|w ws] eqn:Hdel; simpl.
  - do 2 (unfold bind at 1; simpl).
    assert (∀ s4,
              trace s4
              = trace s3 ++ [OpExec (InsertVersion CurrentVersion)] →
              ∃ main del,
                trace s4 = [OpOpen; OpExec CreateSchema; OpOpen] ++ main ++ del
                           ++ [OpExec (InsertVersion CurrentVersion)]
                ∧ main_transaction main ∧ deletion_transaction del)
      as Hdone.
    { intros s4 ->. eexists _, []. split; [|split; [exact Hmain|by left]].
      rewrite Ht3. simpl. by rewrite <- !app_assoc. }
    case_env env; repeat (unfold bind at 1; simpl);
      intros [= <- <-]; right; by apply Hdone.
  - assert (Forall (λ o, is_version_insert o = false) (trace s3)) as Hq3.
    { rewrite Ht3. repeat (constructor; [done|]).
      apply Forall_app. split; [done|]. by repeat constructor. }
    do 3 (unfold bind at 1; simpl).
    case_env env.
    { intros [= <- <-]. left. simpl. apply Forall_app.
      split; [done|]. by repeat constructor. }
    do 3 (unfold bind at 1; simpl).
    case_env env.
    { intros [= <- <-]. left. simpl. rewrite !Forall_app.
      split; [split; [done|]|]; by repeat constructor. }
    do 2 (unfold bind at 1; simpl).
    match goal with
    | |- context [forM ?l ?f ?s0] =>
      destruct (forM l f s0) as [r4 s4] eqn:Hdl
    end.
    apply forM_deleted_trace in Hdl as (dels & Ht4 & Hdels & Hne).
    simpl in Ht4.
    assert (Forall (λ o, is_version_insert o = false) dels) as Hqd.
    { eapply Forall_impl; [exact Hdels|]. by intros [| | |[]| | | | | |]. }
    destruct r4 as [[]| |];
      [|intros [= <- <-]; left; rewrite Ht4, !Forall_app;
        (split; [split; [split; [done|]|]|]);
        (done || by repeat constructor)..].
    do 2 (unfold bind at 1; simpl).
    match goal with
    | |- context [on_txn ?f (if ?b then ?x else ?y)] =>
      set (s5 := on_txn f (if b then x else y));
      assert (trace s5 = trace s4 ++ [OpCommit]) as Ht5
        by (unfold s5; by destruct b);
      clearbody s5
    end.
    rewrite Ht4 in Ht5.
    assert (∀ s6,
              trace s6
              = trace s5 ++ [OpExec (InsertVersion CurrentVersion)] →
              ∃ main del,
                trace s6 = [OpOpen; OpExec CreateSchema; OpOpen] ++ main ++ del
                           ++ [OpExec (InsertVersion CurrentVersion)]
                ∧ main_transaction main ∧ deletion_transaction del)
      as Hdone.
    { intros s6 ->. eexists _, ([OpBegin; OpPrepare QInsertDeleted] ++ dels
                                  ++ [OpCommit]).
      split; [|split; [exact Hmain|]].
      - rewrite Ht5, Ht3. simpl. rewrite <- !app_assoc. simpl. done.
      - right. exists dels. split; [|done]. apply Hne.
        intros Hnil. pose proof (sort_Strings_perm (w :: ws)) as Hp.
        rewrite Hnil in Hp. by apply Permutation_nil_cons in Hp. }
    repeat (unfold bind at 1; simpl).
    case_env env; repeat (unfold bind at 1; simpl);
      intros [= <- <-]; right; by apply Hdone.
Qed.

Lemma last_version_insert (X pre post : list Op) (a b : Op) :
  Forall (λ o, is_version_insert o = false) X →
  is_version_insert b = true →
  X ++ [a] = pre ++ b :: post →
  post = [] ∧ pre = X ∧ a = b.
Proof.
  intros HX Hb. revert pre.
  induction HX as [|x X Hx HX IH]; intros pre; simpl.
  - destruct pre as [|p pre]; simpl.
    + by intros [= -> <-].
    + intros [= _ Hnil]. by destruct pre.
  - destruct pre as [|p pre]; simpl.
    + intros [= -> _]. congruence.
    + intros [= -> Hrest]. destruct (IH _ Hrest) as (-> & -> & ->). done.
Qed.

(** C8.  In every run of the build, whatever fails: if the version row
    is written at all, that is the last thing asked of the database,
    the version is [CurrentVersion], and what precedes it is, in order,
    the creation of the schema, one complete transaction holding all
    the alphagram and word inserts, and then either nothing or one
    complete second transaction holding the deleted-word inserts. *)
Theorem version_stamp_comes_last lexiconName li lexMap dbExists quitIfExists
    t0 r s' pre v post :
  CreateLexiconDatabase env fs FamilyCSW FamilyTWL lexiconName li lexMap
                        dbExists quitIfExists (start t0) = (r, s') →
  trace s' = pre ++ OpExec (InsertVersion v) :: post →
  post = [] ∧ v = CurrentVersion
  ∧ ∃ main del,
      pre = [OpOpen; OpExec CreateSchema; OpOpen] ++ main ++ del
      ∧ main_transaction main ∧ deletion_transaction del.
Proof.
  intros Hrun Htrace.
  destruct (build_trace _ _ _ _ _ _ _ _ Hrun)
    as [Hquiet|(main & del & Ht & Hmain & Hdel)].
  - rewrite Htrace in Hquiet. apply Forall_app in Hquiet as [_ Hq].
    apply Forall_cons in Hq as [Hq _]. done.
  - rewrite Htrace in Ht. symmetry in Ht.
    assert (Forall (λ o, is_version_insert o = false)
                   ([OpOpen; OpExec CreateSchema; OpOpen] ++ main ++ del))
      as HX.
    { rewrite !Forall_app. split; [by repeat constructor|]. split.
      - destruct Hmain as (ins & -> & Hins).
        repeat (constructor; [done|]). apply Forall_app. split.
        + eapply Forall_impl; [exact Hins|]. by intros [| | |[]| | | | | |].
        + by repeat constructor.
      - destruct Hdel as [->|(ins & _ & -> & Hins)]; [constructor|].
        repeat (constructor; [done|]). apply Forall_app. split.
        + eapply Forall_impl; [exact Hins|]. by intros [| | |[]| | | | | |].
        + by repeat constructor. }
    assert ([OpOpen; OpExec CreateSchema; OpOpen] ++ main ++ del
              ++ [OpExec (InsertVersion CurrentVersion)]
            = ([OpOpen; OpExec CreateSchema; OpOpen] ++ main ++ del)
                ++ [OpExec (InsertVersion CurrentVersion)]) as Hassoc.
    { by rewrite <- !app_assoc. }
    rewrite Hassoc in Ht.
    apply last_version_insert in Ht as (-> & -> & Heq); [|done|done].
    injection Heq as <-. split; [done|]. split; [done|].
    exists main, del. done.
Qed.

End ClaimOrder.

(* ===================================================================== *)
(** ** C3 and C4: the migrator *)
(* ===================================================================== *)

Section Migration.

Context `{Engine}.
Variable env : nat → Op → bool.
Hypothesis Hcalm : never_fails env.

Lemma quiet_forI {A} (l : list A) (body : nat → A → M unit) i :
  (∀ i x, quiet_step (body i x)) → quiet_step (forI i l body).
Proof.
  intros Hbody. revert i. induction l as [|x l IH]; intros i s t Htxn; simpl.
  - exists s, t, []. rewrite app_nil_r. by repeat split.
  - unfold bind at 1.
    destruct (Hbody i x s t Htxn)
      as (s1 & t1 & tr1 & -> & Hd1 & Ht1 & Hv1 & Hs1 & Htr1 & Ha1).
    destruct (IH (S i) s1 t1 Ht1)
      as (s2 & t2 & tr2 & -> & Hd2 & Ht2 & Hv2 & Hs2 & Htr2 & Ha2).
    exists s2, t2, (tr1 ++ tr2). repeat split; try congruence.
    + rewrite Htr2, Htr1. by rewrite app_assoc.
    + by apply Forall_app.
Qed.

Lemma quiet_forM {A} (l : list A) (body : A → M unit) :
  (∀ x, quiet_step (body x)) → quiet_step (forM l body).
Proof.
  intros Hbody. induction l as [|x l IH]; intros s t Htxn; simpl.
  - exists s, t, []. rewrite app_nil_r. by repeat split.
  - unfold bind at 1.
    destruct (Hbody x s t Htxn)
      as (s1 & t1 & tr1 & -> & Hd1 & Ht1 & Hv1 & Hs1 & Htr1 & Ha1).
    destruct (IH s1 t1 Ht1)
      as (s2 & t2 & tr2 & -> & Hd2 & Ht2 & Hv2 & Hs2 & Htr2 & Ha2).
    exists s2, t2, (tr1 ++ tr2). repeat split; try congruence.
    + rewrite Htr2, Htr1. by rewrite app_assoc.
    + by apply Forall_app.
Qed.

(** A row update followed by its error check and the progress log. *)
Lemma quiet_update (q : Stmt) (after : M unit) :
  is_data_op (OpExec q) = true →
  (∀ t, tbl_db_version (apply_stmt q t) = tbl_db_version t
        ∧ tbl_schema (apply_stmt q t) = tbl_schema t) →
  (∀ s, ∃ s', after s = (Ret tt, s') ∧ disk s' = disk s ∧ txn s' = txn s
              ∧ trace s' = trace s) →
  quiet_step (err <- stmt_Exec env q ;;
              (if err then fatal "" [] else ret tt) ;;; after).
Proof.
  intros Hq Hkeep Hafter s t Htxn.
  unfold bind at 1. unfold stmt_Exec, bind at 1, ask. rewrite Hcalm. simpl.
  unfold bind at 1. simpl.
  edestruct Hafter as (s' & -> & Hd & Ht & Htr).
  exists s', (apply_stmt q t), [OpExec q].
  destruct (Hkeep t) as [Hv Hs].
  repeat split; try done.
  - rewrite Ht. simpl. by rewrite Htxn.
  - by repeat constructor.
Qed.

Lemma data_ops_silent (tr : list Op) :
  Forall (λ o, is_data_op o = true) tr →
  transitions tr = [] ∧ versions_written tr = [].
Proof.
  induction 1 as [|o tr Ho Htr [IH1 IH2]]; [done|].
  unfold transitions, versions_written in *.
  destruct o as [| | |[]| | | | | |]; try discriminate; by split.
Qed.

Lemma readV2_calm rows acc s :
  ∃ l s' tr,
    readV2 env rows acc s = (Ret l, s') ∧ disk s' = disk s ∧ txn s' = txn s
    ∧ trace s' = trace s ++ tr ∧ Forall (λ o, is_data_op o = true) tr.
Proof.
  revert acc s. induction rows as [|[alph n] rows IH]; intros acc s; simpl.
  - exists acc, s, []. by rewrite app_nil_r.
  - unfold bind at 1. unfold rows_Scan, bind at 1, ask. rewrite Hcalm. simpl.
    edestruct IH as (l & s' & tr & -> & Hd & Ht & Htr & Hall).
    exists l, s', (OpScan :: tr). repeat split; try done.
    + rewrite Htr. simpl. by rewrite <- app_assoc.
    + by constructor.
Qed.

Lemma readV4_calm rows acc lastAlph lastList s :
  ∃ l s' tr,
    readV4 env rows acc lastAlph lastList s = (Ret l, s')
    ∧ disk s' = disk s ∧ txn s' = txn s
    ∧ trace s' = trace s ++ tr ∧ Forall (λ o, is_data_op o = true) tr.
Proof.
  revert acc lastAlph lastList s.
  induction rows as [|[[word alph] symbols] rows IH];
    intros acc lastAlph lastList s; simpl.
  - eexists _, s, []. by rewrite app_nil_r.
  - unfold bind at 1. unfold rows_Scan, bind at 1, ask. rewrite Hcalm. simpl.
    destruct (bool_decide (alph ≠ lastAlph) && bool_decide (lastAlph ≠ ""));
      (edestruct IH as (l & s' & tr & -> & Hd & Ht & Htr & Hall);
       exists l, s', (OpScan :: tr); repeat split; try done;
       [rewrite Htr; simpl; by rewrite <- app_assoc|by constructor]).
Qed.

Lemma migrateToV3_calm s :
  ∃ s', migrateToV3 env s = (Ret tt, s') ∧ migrated 3 s s'.
Proof.
  unfold migrateToV3, db_Exec, exitIfError, ask.
  repeat (unfold bind at 1; simpl; rewrite ?Hcalm; simpl).
  eexists. split; [reflexivity|]. split; [done|]. split; [done|].
  simpl. eexists [_; _]. split; [by rewrite <- app_assoc|done].
Qed.

Lemma migrateToV6_calm s :
  ∃ s', migrateToV6 env s = (Ret tt, s') ∧ migrated 6 s s'.
Proof.
  unfold migrateToV6, db_Exec, exitIfError, ask.
  repeat (unfold bind at 1; simpl; rewrite ?Hcalm; simpl).
  eexists. split; [reflexivity|]. split; [done|]. split; [done|].
  simpl. eexists [_; _]. split; [by rewrite <- app_assoc|done].
Qed.

Lemma progress_log_silent (i : nat) s :
  ∃ s', (if Z.of_nat (S i) mod 10000 =? 0
         then log Debug "%d..." [ArgZ (Z.of_nat (S i))] else ret tt) s
        = (Ret tt, s')
        ∧ disk s' = disk s ∧ txn s' = txn s ∧ trace s' = trace s.
Proof. destruct (_ =? 0); by eexists. Qed.

Lemma migrateToV2_calm dist s :
  ∃ s', migrateToV2 env dist s = (Ret tt, s') ∧ migrated 2 s s'.
Proof.
  unfold migrateToV2, db_Exec, db_Begin, tx_Prepare, tx_Commit, exitIfError,
    get_disk, ask.
  do 9 (unfold bind at 1; simpl; rewrite ?Hcalm; simpl).
  unfold bind at 1.
  match goal with
  | |- context [readV2 env ?rows ?acc ?s0] =>
    destruct (readV2_calm rows acc s0)
      as (l & s1 & tr1 & -> & Hd1 & Ht1 & Htr1 & Ha1)
  end.
  simpl in Hd1, Ht1, Htr1.
  do 3 (unfold bind at 1; simpl; rewrite ?Hcalm; simpl).
  match goal with
  | |- context [forI 0 l ?body ?s0] =>
    destruct (quiet_forI l body 0%nat) with (s := s0)
                                            (t := add_schema AlterV2 (disk s))
      as (s2 & t2 & tr2 & Hloop & Hd2 & Ht2 & Hv2 & Hs2 & Htr2 & Ha2)
  end.
  { intros i x. apply quiet_update; [done|done|].
    intros s0. apply progress_log_silent. }
  { simpl. exact Ht1. }
  rewrite Hloop. clear Hloop. simpl in Hd2, Htr2.
  repeat (unfold bind at 1; simpl; rewrite ?Hcalm; simpl).
  eexists. split; [reflexivity|]. simpl. rewrite Ht2. simpl.
  unfold migrated. simpl.
  split; [by rewrite Hv2|]. split; [by rewrite Hs2|].
  eexists. rewrite Htr2, Htr1. rewrite <- !app_assoc. split; [reflexivity|].
  destruct (data_ops_silent _ Ha1) as [T1 V1].
  destruct (data_ops_silent _ Ha2) as [T2 V2].
  unfold transitions, versions_written in *.
  rewrite !omap_app, ?T1, ?T2, ?V1, ?V2. simpl. done.
Qed.

Lemma quiet_update_checked (q : Stmt) :
  is_data_op (OpExec q) = true →
  (∀ t, tbl_db_version (apply_stmt q t) = tbl_db_version t
        ∧ tbl_schema (apply_stmt q t) = tbl_schema t) →
  quiet_step (err <- stmt_Exec env q ;; exitIfError err).
Proof.
  intros Hq Hkeep s t Htxn.
  unfold bind at 1. unfold stmt_Exec, bind at 1, ask. rewrite Hcalm. simpl.
  eexists _, (apply_stmt q t), [OpExec q].
  destruct (Hkeep t) as [Hv Hs].
  repeat split; try done.
  - simpl. by rewrite Htxn.
  - by repeat constructor.
Qed.

Lemma migrateToV4_calm s :
  ∃ s', migrateToV4 env s = (Ret tt, s') ∧ migrated 4 s s'.
Proof.
  unfold migrateToV4, db_Exec, db_Begin, tx_Prepare, tx_Commit, exitIfError,
    get_disk, ask.
  do 10 (unfold bind at 1; simpl; rewrite ?Hcalm; simpl).
  unfold bind at 1.
  match goal with
  | |- context [readV4 env ?rows ?acc ?la ?ll ?s0] =>
    destruct (readV4_calm rows acc la ll s0)
      as ([[l lastAlph] lastList] & s1 & tr1 & -> & Hd1 & Ht1 & Htr1 & Ha1)
  end.
  simpl in Hd1, Ht1, Htr1.
  do 3 (unfold bind at 1; simpl; rewrite ?Hcalm; simpl).
  match goal with
  | |- context [forI 0 ?l' ?body ?s0] =>
    destruct (quiet_forI l' body 0%nat) with (s := s0)
                                             (t := add_schema AlterV4 (disk s))
      as (s2 & t2 & tr2 & Hloop & Hd2 & Ht2 & Hv2 & Hs2 & Htr2 & Ha2)
  end.
  { intros i x. apply quiet_update; [done|done|].
    intros s0. apply progress_log_silent. }
  { simpl. exact Ht1. }
  rewrite Hloop. clear Hloop. simpl in Hd2, Htr2.
  repeat (unfold bind at 1; simpl; rewrite ?Hcalm; simpl).
  eexists. split; [reflexivity|]. simpl. rewrite Ht2. simpl.
  unfold migrated. simpl.
  split; [by rewrite Hv2|]. split; [by rewrite Hs2|].
  eexists. rewrite Htr2, Htr1. rewrite <- !app_assoc. split; [reflexivity|].
  destruct (data_ops_silent _ Ha1) as [T1 V1].
  destruct (data_ops_silent _ Ha2) as [T2 V2].
  unfold transitions, versions_written in *.
  rewrite !omap_app, ?T1, ?T2, ?V1, ?V2. simpl. done.
Qed.

Lemma migrateToV5_calm li s :
  ∃ s', migrateToV5 env li s = (Ret tt, s') ∧ migrated 5 s s'.
Proof.
  unfold migrateToV5, loadDifficulty, db_Exec, db_Begin, tx_Prepare,
    tx_Commit, get_disk, ask.
  unfold exitIfError at 1 2 3 4.
  do 14 (unfold bind at 1; simpl; rewrite ?Hcalm; simpl).
  match goal with
  | |- context [forM ?l' ?body ?s0] =>
    destruct (quiet_forM l' body) with (s := s0)
                                       (t := add_schema AlterV5 (disk s))
      as (s2 & t2 & tr2 & Hloop & Hd2 & Ht2 & Hv2 & Hs2 & Htr2 & Ha2)
  end.
  { intros x. by apply quiet_update_checked. }
  { done. }
  rewrite Hloop. clear Hloop. simpl in Hd2, Htr2.
  unfold exitIfError.
  repeat (unfold bind at 1; simpl; rewrite ?Hcalm; simpl).
  eexists. split; [reflexivity|]. simpl. rewrite Ht2. simpl.
  unfold migrated. simpl.
  split; [by rewrite Hv2|]. split; [by rewrite Hs2|].
  eexists. rewrite Htr2. rewrite <- !app_assoc. split; [reflexivity|].
  destruct (data_ops_silent _ Ha2) as [T2 V2].
  unfold transitions, versions_written in *.
  rewrite !omap_app, ?T2, ?V2. simpl. done.
Qed.

Lemma stored_version_rows t v :
  stored_version t = Some v → ∃ rest, tbl_db_version t = Some (v :: rest).
Proof.
  unfold stored_version. destruct (tbl_db_version t) as [[|v' rest]|]; try done.
  intros [= ->]. by eexists.
Qed.

Lemma migrated_from_start k t s0 s' :
  disk s0 = t → trace s0 = [OpOpen; OpQueryVersion] →
  is_Some (stored_version t) →
  migrated k s0 s' →
  stored_version (disk s') = Some k
  ∧ transitions (trace s') = [k]
  ∧ versions_written (trace s') = [k]
  ∧ tbl_schema (disk s') = tbl_schema t ++ [schema_statement k].
Proof.
  intros Hd Ht [v Hv] (Hver & Hsch & tr & Htr & HT & HV).
  apply stored_version_rows in Hv as [rest Hrows].
  rewrite Hd in Hver, Hsch. rewrite Hrows in Hver. simpl in Hver.
  split; [unfold stored_version; by rewrite Hver|].
  rewrite Htr, Ht. unfold transitions, versions_written in *.
  rewrite !omap_app, HT, HV. done.
Qed.

(** C3.  When no operation fails, a migration of a dataset whose
    stored version is [v], [1 ≤ v < 6], returns having applied the
    transition to [v + 1] and no other: the schema statement of
    version [v + 1] is the one schema change, [v + 1] is the one
    version written, and it is the version stored afterwards.  At
    version 6 the migration asks for the version and nothing else, and
    leaves the dataset as it was. *)
Theorem migrate_one_transition lexiconName li t v :
  stored_version t = Some v →
  1 ≤ v ≤ 6 →
  ∃ s',
    MigrateLexiconDatabase env lexiconName li (start t) = (Ret tt, s')
    ∧ if decide (v = CurrentVersion)
      then disk s' = t ∧ trace s' = [OpOpen; OpQueryVersion]
      else stored_version (disk s') = Some (v + 1)
           ∧ transitions (trace s') = [v + 1]
           ∧ versions_written (trace s') = [v + 1]
           ∧ tbl_schema (disk s')
             = tbl_schema t ++ [schema_statement (v + 1)].
Proof.
  intros Hv Hrange.
  destruct (stored_version_rows _ _ Hv) as [rest Hrows].
  assert (is_Some (stored_version t)) as Hsome by (by eexists).
  unfold MigrateLexiconDatabase, sql_Open, queryVersion, get_disk, ask.
  unfold exitIfError at 1.
  do 6 (unfold bind at 1; simpl; rewrite ?Hcalm; simpl).
  rewrite Hrows.
  assert (v = 1 ∨ v = 2 ∨ v = 3 ∨ v = 4 ∨ v = 5 ∨ v = 6) as Hcases by lia.
  destruct Hcases as [->|[->|[->|[->|[->| ->]]]]]; simpl.
  - repeat (unfold bind at 1; simpl).
    match goal with
    | |- context [migrateToV2 env ?d ?s0] =>
      destruct (migrateToV2_calm d s0) as (s1 & -> & Hmig);
        apply (migrated_from_start 2 t s0) in Hmig; [|done..]
    end.
    simpl. eexists. split; [reflexivity|]. exact Hmig.
  - repeat (unfold bind at 1; simpl).
    match goal with
    | |- context [migrateToV3 env ?s0] =>
      destruct (migrateToV3_calm s0) as (s1 & -> & Hmig);
        apply (migrated_from_start 3 t s0) in Hmig; [|done..]
    end.
    simpl. eexists. split; [reflexivity|]. exact Hmig.
  - repeat (unfold bind at 1; simpl).
    match goal with
    | |- context [migrateToV4 env ?s0] =>
      destruct (migrateToV4_calm s0) as (s1 & -> & Hmig);
        apply (migrated_from_start 4 t s0) in Hmig; [|done..]
    end.
    simpl. eexists. split; [reflexivity|]. exact Hmig.
  - repeat (unfold bind at 1; simpl).
    match goal with
    | |- context [migrateToV5 env ?l ?s0] =>
      destruct (migrateToV5_calm l s0) as (s1 & -> & Hmig);
        apply (migrated_from_start 5 t s0) in Hmig; [|done..]
    end.
    simpl. eexists. split; [reflexivity|]. exact Hmig.
  - repeat (unfold bind at 1; simpl).
    match goal with
    | |- context [migrateToV6 env ?s0] =>
      destruct (migrateToV6_calm s0) as (s1 & -> & Hmig);
        apply (migrated_from_start 6 t s0) in Hmig; [|done..]
    end.
    simpl. eexists. split; [reflexivity|]. exact Hmig.
  - repeat (unfold bind at 1; simpl).
    eexists. split; [reflexivity|]. simpl. by destruct t.
Qed.

(** C4, as the code has it.  When no operation fails: without a
    version table the migrator creates one, stores version 1 and goes
    on, in the same run, with the transition to version 2; with a
    version table that has no row it exits through [log.Fatal], the
    dataset untouched; with a stored version outside 1..6 it writes an
    informational message that names the version (and the version plus
    one), applies no transition, leaves the dataset as it was and
    returns normally. *)
Theorem migrator_reads_version lexiconName li t :
  match tbl_db_version t with
  | None =>
    ∃ s' tr,
      MigrateLexiconDatabase env lexiconName li (start t) = (Ret tt, s')
      ∧ trace s' = [OpOpen; OpQueryVersion; OpExec CreateVersionTable;
                    OpExec (InsertVersion 1)] ++ tr
      ∧ transitions tr = [2]
      ∧ stored_version (disk s') = Some 2
  | Some [] =>
    ∃ s',
      MigrateLexiconDatabase env lexiconName li (start t) = (Fatal, s')
      ∧ disk s' = t
      ∧ trace s' = [OpOpen; OpQueryVersion]
      ∧ logs s' = [Log FatalLevel
                       "There is a version table but it has no values in it"
                       []]
  | Some (v :: _) =>
    if bool_decide (1 ≤ v ≤ 6) then True
    else
      ∃ s',
        MigrateLexiconDatabase env lexiconName li (start t) = (Ret tt, s')
        ∧ disk s' = t
        ∧ trace s' = [OpOpen; OpQueryVersion]
        ∧ logs s' = [Log Info "Version of this table is %d, moving to %d"
                         [ArgZ v; ArgZ (Go.int (v + 1))]]
  end.
Proof.
  unfold MigrateLexiconDatabase, sql_Open, queryVersion, get_disk, ask.
  unfold exitIfError at 1.
  destruct (tbl_db_version t) as [[|v rest]|] eqn:Hrows.
  - do 6 (unfold bind at 1; simpl; rewrite ?Hcalm; simpl).
    rewrite Hrows. unfold fatal. simpl.
    eexists. split; [reflexivity|]. simpl. by destruct t.
  - case_bool_decide as Hv; [done|].
    do 6 (unfold bind at 1; simpl; rewrite ?Hcalm; simpl).
    rewrite Hrows. simpl.
    assert ((v =? CurrentVersion) = false) as E6
      by (apply Z.eqb_neq; unfold CurrentVersion; lia).
    assert ((v =? 1) = false) as E1 by (apply Z.eqb_neq; lia).
    assert ((v =? 2) = false) as E2 by (apply Z.eqb_neq; lia).
    assert ((v =? 3) = false) as E3 by (apply Z.eqb_neq; lia).
    assert ((v =? 4) = false) as E4 by (apply Z.eqb_neq; lia).
    assert ((v =? 5) = false) as E5 by (apply Z.eqb_neq; lia).
    rewrite ?E6.
    repeat (unfold bind at 1; simpl; rewrite ?E1, ?E2, ?E3, ?E4, ?E5; simpl).
    eexists. split; [reflexivity|]. simpl. by destruct t.
  - do 6 (unfold bind at 1; simpl; rewrite ?Hcalm; simpl).
    rewrite Hrows. unfold db_Exec, ask.
    repeat (unfold bind at 1; simpl; rewrite ?Hcalm; simpl).
    match goal with
    | |- context [migrateToV2 env ?d ?s0] =>
      destruct (migrateToV2_calm d s0) as (s1 & -> & Hmig)
    end.
    simpl. destruct Hmig as (Hver & _ & tr & Htr & HT & _).
    simpl in Hver, Htr.
    eexists _, tr. split; [reflexivity|]. simpl.
    split; [exact Htr|]. split; [exact HT|].
    unfold stored_version. by rewrite Hver.
Qed.

End Migration.

(* ===================================================================== *)
(** ** Concrete runs *)
(* ===================================================================== *)

Section Concrete.

Import Sample SampleData Runs.
Local Existing Instance engine.

Lemma calm_never_fails : never_fails calm.
Proof. intros n o. reflexivity. Defined.

(** The build of the sample's current edition meets the hypotheses of
    [probability_ranks_dense]. *)
Lemma probability_ranks_dense_witness :
  never_fails calm
  ∧ false && false = false
  ∧ familyName lexMap "X" = Some FamilyTWL
  ∧ Forall (λ kv, (length (Go.runes kv.1) ≤ 15)%nat)
           (map_to_list (populateAlphsDefs files "cur.txt" (Combinations cur)
                                           dist).2)
  ∧ Z.of_nat (size (populateAlphsDefs files "cur.txt" (Combinations cur)
                                      dist).2) < 2 ^ 32
  ∧ ∃ s', build calm cur lexMap = (Ret tt, s')
          ∧ ranked_table
              (populateAlphsDefs files "cur.txt" (Combinations cur) dist).2
              (tbl_alphagrams (disk s')).
Proof.
  split; [exact calm_never_fails|]. split; [reflexivity|].
  split; [reflexivity|].
  split; [apply (bool_decide_unpack _); vm_compute; exact I|].
  split; [vm_compute; reflexivity|].
  apply (probability_ranks_dense calm files FamilyCSW FamilyTWL "X" cur
           lexMap false false FamilyTWL (start emptyTables)).
  - exact calm_never_fails.
  - reflexivity.
  - reflexivity.
  - apply (bool_decide_unpack _). vm_compute. exact I.
  - vm_compute. reflexivity.
Defined.

(** C1, as stated, fails: a word list with a sixteen-letter word makes
    the build panic, so no alphagram receives a rank. *)
Lemma ranks_fail_on_long_alphagram :
  never_fails calm
  ∧ (build calm long lexMap).1 = Panic
  ∧ ¬ ∃ s', build calm long lexMap = (Ret tt, s')
            ∧ ranked_table
                (populateAlphsDefs files "long.txt" (Combinations long)
                                   dist).2
                (tbl_alphagrams (disk s')).
Proof.
  assert ((build calm long lexMap).1 = Panic) as Hp
    by (vm_compute; reflexivity).
  split; [exact calm_never_fails|]. split; [exact Hp|].
  intros (s' & Hrun & _). rewrite Hrun in Hp. clear Hrun.
  discriminate Hp.
Qed.

(** C2: the failure of a word insert does not stop the build.  With
    every insert of the word ZAX failing, the build returns normally,
    commits the three alphagram rows and the four other word rows, and
    stamps version 6; the failure of an alphagram insert, which the
    code does check, ends the process with nothing committed. *)
Theorem word_insert_failure_is_ignored :
  (build (word_insert_fails "ZAX") cur lexMap).1 = Ret tt
  ∧ row_alphagram
      <$> tbl_alphagrams (disk (build (word_insert_fails "ZAX") cur lexMap).2)
    = ["ACT"; "AXZ"; "DGO"]
  ∧ row_word
      <$> tbl_words (disk (build (word_insert_fails "ZAX") cur lexMap).2)
    = ["CAT"; "ACT"; "CAT"; "DOG"]
  ∧ tbl_db_version (disk (build (word_insert_fails "ZAX") cur lexMap).2)
    = Some [6]
  ∧ (build (alph_insert_fails "AXZ") cur lexMap).1 = Fatal
  ∧ tbl_alphagrams (disk (build (alph_insert_fails "AXZ") cur lexMap).2) = []
  ∧ tbl_words (disk (build (alph_insert_fails "AXZ") cur lexMap).2) = [].
Proof. vm_compute. repeat split; reflexivity. Qed.

(** C7: an alphagram of sixteen letters makes the build panic at the
    read of [probs[wl]]; its word row was sent, nothing is committed
    and no version is stamped. *)
Theorem long_alphagram_panics :
  files "long.txt" = Some ["abcdefghijklmnop"]
  ∧ (build calm long lexMap).1 = Panic
  ∧ is_main_insert <$> drop 6 (trace (build calm long lexMap).2) = [true]
  ∧ tbl_alphagrams (disk (build calm long lexMap).2) = []
  ∧ tbl_words (disk (build calm long lexMap).2) = []
  ∧ tbl_db_version (disk (build calm long lexMap).2) = Some [].
Proof. vm_compute. repeat split; reflexivity. Qed.

(** C9: a word list that cannot be opened is read as an empty one; the
    build returns normally and leaves a committed, version-stamped
    dataset without any word or alphagram row. *)
Theorem missing_word_list_builds_empty_dataset :
  files (LexiconFilename missing) = None
  ∧ (build calm missing lexMapFirst).1 = Ret tt
  ∧ tbl_alphagrams (disk (build calm missing lexMapFirst).2) = []
  ∧ tbl_words (disk (build calm missing lexMapFirst).2) = []
  ∧ tbl_db_version (disk (build calm missing lexMapFirst).2)
    = Some [CurrentVersion]
  ∧ trace (build calm missing lexMapFirst).2
    = [OpOpen; OpExec CreateSchema; OpOpen; OpBegin; OpPrepare QInsertAlph;
       OpPrepare QInsertWord; OpCommit; OpExec (InsertVersion CurrentVersion)].
Proof. vm_compute. repeat split; reflexivity. Qed.

(** C4, as stated, fails: at stored version 7 the migrator returns
    normally, it does not exit through [log.Fatal]. *)
Lemma unknown_version_is_not_fatal :
  never_fails calm
  ∧ stored_version (legacy (Some [7])) = Some 7
  ∧ (migrate calm (legacy (Some [7]))).1 = Ret tt
  ∧ (migrate calm (legacy (Some [7]))).1 ≠ Fatal
  ∧ logs (migrate calm (legacy (Some [7]))).2
    = [Log Info "Version of this table is %d, moving to %d" [ArgZ 7; ArgZ 8]].
Proof.
  split; [exact calm_never_fails|].
  assert ((migrate calm (legacy (Some [7]))).1 = Ret tt) as Hr
    by (vm_compute; reflexivity).
  split; [vm_compute; reflexivity|]. split; [exact Hr|].
  split; [rewrite Hr; intros Hf; discriminate Hf|].
  vm_compute. reflexivity.
Qed.

(** [migrate_one_transition] at a dataset of version 3. *)
Lemma migrate_one_transition_witness :
  never_fails calm
  ∧ stored_version (legacy (Some [3])) = Some 3
  ∧ 1 ≤ 3 ≤ 6
  ∧ ∃ s',
      migrate calm (legacy (Some [3])) = (Ret tt, s')
      ∧ stored_version (disk s') = Some (3 + 1)
      ∧ transitions (trace s') = [3 + 1]
      ∧ versions_written (trace s') = [3 + 1]
      ∧ tbl_schema (disk s')
        = tbl_schema (legacy (Some [3])) ++ [schema_statement (3 + 1)].
Proof.
  split; [exact calm_never_fails|]. split; [reflexivity|]. split; [lia|].
  apply (migrate_one_transition calm calm_never_fails "X" cur
           (legacy (Some [3])) 3); [reflexivity|lia].
Defined.

(** [migrator_reads_version] at a dataset of version 0. *)
Lemma migrator_reads_version_witness :
  never_fails calm
  ∧ ∃ s',
      migrate calm (legacy (Some [0])) = (Ret tt, s')
      ∧ disk s' = legacy (Some [0])
      ∧ trace s' = [OpOpen; OpQueryVersion]
      ∧ logs s' = [Log Info "Version of this table is %d, moving to %d"
                       [ArgZ 0; ArgZ (Go.int (0 + 1))]].
Proof.
  split; [exact calm_never_fails|].
  apply (migrator_reads_version calm calm_never_fails "X" cur
           (legacy (Some [0]))).
Defined.

Lemma cur_lengths_within :
  Forall (λ kv : string * Alphagram, (length (Go.runes kv.1) ≤ 15)%nat)
         (map_to_list (populateAlphsDefs files (LexiconFilename cur)
                         (Combinations cur) (LetterDistribution cur)).2).
Proof. apply (bool_decide_unpack _). vm_compute. exact I. Defined.

(** [deleted_words_persisted] at the sample's current edition, whose
    prior edition is [old]. *)
Lemma deleted_words_persisted_witness :
  never_fails calm
  ∧ false && false = false
  ∧ familyName lexMap "X" = Some FamilyTWL
  ∧ Forall (λ kv : string * Alphagram, (length (Go.runes kv.1) ≤ 15)%nat)
           (map_to_list (populateAlphsDefs files (LexiconFilename cur)
                           (Combinations cur) (LetterDistribution cur)).2)
  ∧ ∃ s',
      build calm cur lexMap = (Ret tt, s')
      ∧ ∃ deleted,
          tbl_deletedwords (disk s')
            = Some ((λ w, (w, Go.len w)) <$> deleted)
          ∧ Sorted String.le deleted
          ∧ NoDup deleted
          ∧ ∀ w, w ∈ deleted
                 ↔ w ∈ scannedWords files (LexiconFilename old)
                   ∧ FindWord (Dawg cur) w = false.
Proof.
  split; [exact calm_never_fails|]. split; [reflexivity|].
  split; [reflexivity|]. split; [exact cur_lengths_within|].
  apply (deleted_words_persisted calm files FamilyCSW FamilyTWL "X" cur
           lexMap false false FamilyTWL (start emptyTables)
           calm_never_fails eq_refl eq_refl cur_lengths_within).
Defined.

(** [version_stamp_comes_last] at the run in which nothing fails. *)
Lemma version_stamp_comes_last_witness :
  calm_run = (calm_run.1, calm_run.2)
  ∧ trace calm_run.2
    = calm_run_before_last ++ OpExec (InsertVersion 6) :: []
  ∧ ([] = [] :> list Op) ∧ 6 = CurrentVersion
  ∧ ∃ main del,
      calm_run_before_last
        = [OpOpen; OpExec CreateSchema; OpOpen] ++ main ++ del
      ∧ main_transaction main ∧ deletion_transaction del.
Proof.
  assert (calm_run = (calm_run.1, calm_run.2)) as Hrun
    by (vm_compute; reflexivity).
  assert (trace calm_run.2
          = calm_run_before_last ++ OpExec (InsertVersion 6) :: []) as Htr
    by (vm_compute; reflexivity).
  split; [exact Hrun|]. split; [exact Htr|].
  exact (version_stamp_comes_last calm files FamilyCSW FamilyTWL "X" cur
           lexMap false false emptyTables calm_run.1 calm_run.2
           calm_run_before_last 6 [] Hrun Htr).
Defined.

(** [repeated_words_kept] at the sample's current edition, where CAT
    stands on two lines. *)
Lemma repeated_words_kept_witness :
  never_fails calm
  ∧ false && false = false
  ∧ familyName lexMap "X" = Some FamilyTWL
  ∧ Forall (λ kv : string * Alphagram, (length (Go.runes kv.1) ≤ 15)%nat)
           (map_to_list (scan_alphagrams
                           (scanFile files (LexiconFilename cur)
                              (Combinations cur) (LetterDistribution cur))))
  ∧ scannedWords files (LexiconFilename cur)
    = ["CAT"; "ACT"; "ZAX"; "CAT"; "DOG"]
  ∧ members (LetterDistribution cur) "ACT"
            (scannedWords files (LexiconFilename cur))
    = ["CAT"; "ACT"; "CAT"]
  ∧ (∀ a, scan_alphagrams (scanFile files (LexiconFilename cur)
                             (Combinations cur) (LetterDistribution cur))
            !! a
          = classOf (Combinations cur) (LetterDistribution cur) a
                    (scannedWords files (LexiconFilename cur)))
  ∧ NoDup (scan_fetched (scanFile files (LexiconFilename cur)
                           (Combinations cur) (LetterDistribution cur)))
  ∧ (∀ a, a ∈ scan_fetched (scanFile files (LexiconFilename cur)
                              (Combinations cur) (LetterDistribution cur))
          ↔ a ∈ MakeAlphagram (LetterDistribution cur)
                  <$> scannedWords files (LexiconFilename cur))
  ∧ ∃ s',
      build calm cur lexMap = (Ret tt, s')
      ∧ (∀ a, row_word <$> filter (λ r, row_word_alphagram r = a)
                                  (tbl_words (disk s'))
              = members (LetterDistribution cur) a
                        (scannedWords files (LexiconFilename cur)))
      ∧ (∀ r, r ∈ tbl_alphagrams (disk s') →
              row_num_anagrams r
              = Some (Z.of_nat
                        (length (members (LetterDistribution cur)
                                   (row_alphagram r)
                                   (scannedWords files
                                      (LexiconFilename cur)))))).
Proof.
  split; [exact calm_never_fails|]. split; [reflexivity|].
  split; [reflexivity|]. split; [exact cur_lengths_within|].
  split; [vm_compute; reflexivity|]. split; [vm_compute; reflexivity|].
  exact (repeated_words_kept calm files FamilyCSW FamilyTWL "X" cur
           lexMap false false FamilyTWL (start emptyTables)
           calm_never_fails eq_refl eq_refl cur_lengths_within).
Defined.

End Concrete.

(* ===================================================================== *)
(** ** Properties: statistics and symbols of a word *)
(* ===================================================================== *)

Section Statistics.

Lemma foldl_uint8_sum (f : Z → Z) (rs : list Z) (acc : Z) :
  foldl (λ pts rn, Go.uint8 (pts + f rn)) acc rs
  = if decide (rs = []) then acc
    else Go.uint8 (acc + foldr Z.add 0 (f <$> rs)).
Proof.
  revert acc. induction rs as [|r rs IH]; intros acc; [done|].
  simpl. rewrite IH. destruct rs as [|r' rs]; simpl.
  - by rewrite Z.add_0_r.
  - unfold Go.uint8. rewrite Zplus_mod_idemp_l. f_equal. lia.
Qed.

(** X1.  The point value of an alphagram is the sum of the tile values
    of its runes (a rune without tile counting 0) reduced modulo 256:
    the [uint8] accumulator wraps around instead of saturating or
    failing.  In particular it lies in 0..255. *)
Theorem pointValue_wraps (a : Alphagram) (dist : alphabet_LetterDistribution) :
  pointValue a dist = tileSum dist (Go.runes (alphagram a)) mod 256
  ∧ 0 ≤ pointValue a dist < 256.
Proof.
  assert (pointValue a dist = tileSum dist (Go.runes (alphagram a)) mod 256)
    as Heq.
  { unfold pointValue, tileSum.
    rewrite (foldl_uint8_sum (λ rn, default 0 (PointValues dist !! rn))).
    destruct (decide _) as [->|_]; [done|]. done. }
  split; [exact Heq|]. rewrite Heq. apply Z.mod_pos_bound. lia.
Qed.

Lemma vowelMap_lookup (vs : list Z) (m : gmap Z bool) (rn : Z) :
  default false (foldl (λ m v, <[v := true]> m) m vs !! rn)
  = bool_decide (rn ∈ vs) || default false (m !! rn).
Proof.
  revert m. induction vs as [|v vs IH]; intros m; simpl; [done|].
  rewrite IH. destruct (decide (v = rn)) as [->|Hne].
  - rewrite lookup_insert_eq. simpl.
    rewrite (bool_decide_eq_true_2 (rn ∈ rn :: vs)) by (by left).
    by rewrite orb_true_r.
  - rewrite lookup_insert_ne by done. f_equal.
    apply bool_decide_ext. rewrite elem_of_cons. split; [by right|].
    by intros [?|?].
Qed.

Lemma foldl_uint8_count (P : Z → bool) (rs : list Z) (acc : Z) :
  0 ≤ acc < 256 →
  foldl (λ n rn, if P rn then Go.uint8 (n + 1) else n) acc rs
  = Go.uint8 (acc + Z.of_nat (length (filter (λ rn, P rn = true) rs))).
Proof.
  revert acc. induction rs as [|r rs IH]; intros acc Hacc; simpl.
  - unfold Go.uint8. rewrite Z.add_0_r. symmetry. apply Z.mod_small. lia.
  - destruct (P r) eqn:HP.
    + rewrite filter_cons_True by done. rewrite IH.
      * unfold Go.uint8. rewrite Zplus_mod_idemp_l. f_equal. simpl length. lia.
      * apply Z.mod_pos_bound. lia.
    + rewrite filter_cons_False by (by rewrite HP). by apply IH.
Qed.

(** X2.  The vowel count of an alphagram is the number of its runes
    that occur in the distribution's vowel list, reduced modulo 256
    (the counter is a [uint8]); a vowel listed twice counts once. *)
Theorem numVowels_counts (a : Alphagram) (dist : alphabet_LetterDistribution) :
  numVowels a dist
  = Z.of_nat (vowelCount dist (Go.runes (alphagram a))) mod 256.
Proof.
  unfold numVowels, vowelCount.
  rewrite (foldl_uint8_count
             (λ rn, default false
                      (foldl (λ m v, <[v := true]> m) ∅ (Vowels dist) !! rn)))
    by lia.
  unfold Go.uint8. rewrite Z.add_0_l. do 3 f_equal.
  apply list_filter_iff. intros rn.
  rewrite vowelMap_lookup, lookup_empty. simpl. rewrite orb_false_r.
  by rewrite bool_decide_eq_true.
Qed.

End Statistics.

Section Symbols.

Context `{Engine}.
Variables FamilyCSW FamilyTWL : FamilyName.

(** X3.  When the two family names differ, the symbol string of a word
    is one of [""], ["+"], ["#"], ["$"], ["+#"], ["+$"]: an update mark
    first, then at most one of the two family marks.  The CSW mark is
    only given in the CSW family, the TWL mark only in the TWL family,
    and the update mark only when there is a prior edition. *)
Theorem findLexSymbols_shape (word : string) (latestCSW latestTWL : LexiconInfo)
    (lexFamily : FamilyName) (priorLex : option LexiconInfo) :
  FamilyCSW ≠ FamilyTWL →
  let symbols :=
    findLexSymbols FamilyCSW FamilyTWL word latestCSW latestTWL lexFamily
                   priorLex in
  symbols ∈ [""; "+"; "#"; "$"; "+#"; "+$"]
  ∧ (Go.Contains symbols "#" = true → lexFamily = FamilyCSW)
  ∧ (Go.Contains symbols "$" = true → lexFamily = FamilyTWL)
  ∧ (Go.Contains symbols "+" = true → is_Some priorLex).
Proof.
  intros Hne. unfold findLexSymbols.
  destruct priorLex as [prior|];
    [destruct (FindWord (Dawg prior) word)|];
    destruct (FindWord (Dawg latestTWL) word),
             (FindWord (Dawg latestCSW) word);
    repeat case_bool_decide; subst; try congruence; simpl;
    (split; [set_solver|]); repeat split; try done; try discriminate;
    by eexists.
Qed.

End Symbols.

(* ===================================================================== *)
(** ** Properties: the classes of a word list *)
(* ===================================================================== *)

Section Classes.

Context `{Engine}.
Variable fs : string → option (list string).

Lemma alphaMapValues_insert_new (m : gmap string Alphagram) a x :
  m !! a = None → alphaMapValues (<[a := x]> m) ≡ₚ x :: alphaMapValues m.
Proof.
  intros Hnone. unfold alphaMapValues.
  by rewrite (map_to_list_insert m a x Hnone).
Qed.

Lemma alphaMapValues_insert_old (m : gmap string Alphagram) a x y :
  m !! a = Some y →
  alphaMapValues m ≡ₚ y :: alphaMapValues (delete a m)
  ∧ alphaMapValues (<[a := x]> m) ≡ₚ x :: alphaMapValues (delete a m).
Proof.
  intros Hsome. unfold alphaMapValues. split.
  - by rewrite <- (map_to_list_delete m a y Hsome).
  - rewrite <- (insert_delete_eq m a x).
    rewrite map_to_list_insert by apply lookup_delete_eq. done.
Qed.

Lemma concat_words_perm (l l' : list Alphagram) :
  l ≡ₚ l' → concat (words <$> l) ≡ₚ concat (words <$> l').
Proof.
  induction 1 as [|x l l' Hp IH|x y l|l l' l'' _ IH1 _ IH2]; simpl.
  - done.
  - by rewrite IH.
  - rewrite !app_assoc. f_equiv. apply Permutation_app_comm.
  - by etrans.
Qed.

Lemma scan_words_perm comb dist (lines : list string) :
  concat (words <$> alphaMapValues
                      (scan_alphagrams (foldl (scanLine comb dist) scan0
                                              lines)))
  ≡ₚ omap firstWord lines.
Proof.
  induction lines as [|line lines IH] using rev_ind; simpl.
  { unfold alphaMapValues. by rewrite map_to_list_empty. }
  rewrite foldl_app, omap_app. simpl.
  set (st := foldl (scanLine comb dist) scan0 lines) in *.
  unfold scanLine, firstWord.
  destruct (Fields line) as [|f0 rest]; simpl.
  { by rewrite app_nil_r. }
  set (w := ToUpper f0). set (a0 := MakeAlphagram dist w).
  destruct (scan_alphagrams st !! a0) as [alph|] eqn:Hlook; simpl.
  - destruct (alphaMapValues_insert_old (scan_alphagrams st) a0
                (appendWord alph w) alph Hlook) as [Hold Hnew].
    rewrite (concat_words_perm _ _ Hnew). simpl.
    rewrite <- IH, (concat_words_perm _ _ Hold). simpl.
    rewrite <- !app_assoc. f_equiv. apply Permutation_app_comm.
  - rewrite (concat_words_perm _ _
               (alphaMapValues_insert_new (scan_alphagrams st) a0 _ Hlook)).
    simpl. rewrite IH. apply Permutation_cons_append.
Qed.

(** X4.  Reading a word list loses no word and invents none: the
    words of all the alphagram classes together are, up to order, the
    words of the file, each as many times as it stands there. *)
Theorem classes_partition_words filename comb dist :
  concat (words <$> alphaMapValues (populateAlphsDefs fs filename comb dist).2)
  ≡ₚ scannedWords fs filename.
Proof. apply scan_words_perm. Qed.

Lemma scanned_keys_NoDup filename comb dist :
  NoDup (alphagram
           <$> alphaMapValues (populateAlphsDefs fs filename comb dist).2).
Proof.
  set (classes := (populateAlphsDefs fs filename comb dist).2).
  assert (alphagram <$> alphaMapValues classes = (map_to_list classes).*1)
    as ->.
  { unfold alphaMapValues. rewrite <- list_fmap_compose.
    apply Forall_fmap_ext_1, Forall_forall. intros [k v] Hkv. simpl.
    apply elem_of_map_to_list in Hkv. apply scanned_class in Hkv.
    by subst v. }
  apply NoDup_fst_map_to_list.
Qed.

(** X5.  The order in which the build ranks the alphagrams of a word
    list is fixed by [Less] alone: the classes have pairwise distinct
    alphagram strings, so any two arrangements of them that are sorted
    for [Less] are the same list.  Neither the order in which the map
    is visited nor the sorting algorithm can change the table. *)
Theorem ranking_order_is_unique filename comb dist (l1 l2 : list Alphagram) :
  l1 ≡ₚ alphaMapValues (populateAlphsDefs fs filename comb dist).2 →
  Sorted not_after l1 →
  l2 ≡ₚ alphaMapValues (populateAlphsDefs fs filename comb dist).2 →
  Sorted not_after l2 →
  l1 = l2.
Proof.
  intros Hp1 Hs1 Hp2 Hs2.
  pose proof (scanned_keys_NoDup filename comb dist) as Hnd.
  rewrite (sort_Sort_unique _ l1 Hnd Hp1 Hs1).
  by rewrite (sort_Sort_unique _ l2 Hnd Hp2 Hs2).
Qed.

End Classes.

(* ===================================================================== *)
(** ** Invariants of a process *)
(* ===================================================================== *)

Section Hoare.

Lemma hoare_bind {A B} (P : Session → Prop) (m : M A) (k : A → M B)
    (Q : A → Session → Prop) (R : B → Session → Prop) (E G : Session → Prop) :
  hoare P m Q E G → (∀ a, hoare (Q a) (k a) R E G) →
  hoare P (bind m k) R E G.
Proof.
  intros Hm Hk s Hs. unfold bind. specialize (Hm s Hs).
  destruct (m s) as [[a| |] s']; [by apply Hk|done..].
Qed.

Lemma hoare_post {A} (P : Session → Prop) (m : M A)
    (Q Q' : A → Session → Prop) (E E' G G' : Session → Prop) :
  hoare P m Q E G →
  (∀ a s, Q a s → Q' a s) → (∀ s, E s → E' s) → (∀ s, G s → G' s) →
  hoare P m Q' E' G'.
Proof.
  intros Hm HQ HE HG s Hs. specialize (Hm s Hs).
  destruct (m s) as [[a| |] s']; auto.
Qed.

End Hoare.

Section Invariants.

Context `{Engine}.
Variable env : nat → Op → bool.
Variable fs : string → option (list string).
Variables FamilyCSW FamilyTWL : FamilyName.
Variables okd okt : Stmt → Prop.
Variables I E F : Session → Prop.
Hypothesis HI : Stable env okd okt I.
Hypothesis HE : ∀ s, I s → E s.
Hypothesis HF : ∀ s, I s → F s.

Lemma keeps_ret {A} (a : A) : hoare I (ret a) (λ _, I) E F.
Proof. by intros s Hs. Qed.

Lemma keeps_log lvl fmt args : hoare I (log lvl fmt args) (λ _, I) E F.
Proof. intros s Hs. simpl. by apply (stable_logs _ _ _ _ HI). Qed.

Lemma keeps_fatal {A} fmt args (Q : A → Session → Prop) :
  hoare I (fatal fmt args) Q E F.
Proof. intros s Hs. simpl. by apply HE, (stable_logs _ _ _ _ HI). Qed.

Lemma keeps_panic {A} (Q : A → Session → Prop) : hoare I panic Q E F.
Proof. intros s Hs. simpl. by apply HF. Qed.

Lemma keeps_exitIfError err : hoare I (exitIfError err) (λ _, I) E F.
Proof. destruct err; [apply keeps_fatal|apply keeps_ret]. Qed.

Lemma keeps_check (err : bool) :
  hoare I (if err then fatal "" [] else ret tt) (λ _, I) E F.
Proof. destruct err; [apply keeps_fatal|apply keeps_ret]. Qed.

Lemma keeps_ask o : hoare I (ask env o) (λ _, I) E F.
Proof. intros s Hs. simpl. by apply (stable_ask _ _ _ _ HI). Qed.

Lemma keeps_get_disk : hoare I get_disk (λ _, I) E F.
Proof. by intros s Hs. Qed.

Lemma keeps_db_Exec q : okd q → hoare I (db_Exec env q) (λ _, I) E F.
Proof.
  intros Hq s Hs. unfold db_Exec, bind, ask. simpl.
  destruct (env _ _); simpl.
  - by apply (stable_ask _ _ _ _ HI).
  - apply (stable_exec _ _ _ _ HI); [done|]. by apply (stable_ask _ _ _ _ HI).
Qed.

Lemma keeps_db_Begin : hoare I (db_Begin env) (λ _, I) E F.
Proof.
  intros s Hs. unfold db_Begin, bind, ask. simpl.
  destruct (env _ _); simpl.
  - by apply (stable_ask _ _ _ _ HI).
  - apply (stable_begin _ _ _ _ HI (on_trace (λ t, t ++ [OpBegin]) s)).
    by apply (stable_ask _ _ _ _ HI).
Qed.

Lemma keeps_stmt_Exec q : okt q → hoare I (stmt_Exec env q) (λ _, I) E F.
Proof.
  intros Hq s Hs. unfold stmt_Exec, bind, ask. simpl.
  destruct (env _ _); simpl.
  - by apply (stable_ask _ _ _ _ HI).
  - apply (stable_stmt _ _ _ _ HI); [done|]. by apply (stable_ask _ _ _ _ HI).
Qed.

Lemma keeps_tx_Commit : hoare I (tx_Commit env) (λ _, I) E F.
Proof.
  intros s Hs. unfold tx_Commit, bind, ask. simpl.
  destruct (env _ _) eqn:Hc; simpl.
  - apply (stable_abandon _ _ _ _ HI (on_trace (λ t, t ++ [OpCommit]) s)).
    by apply (stable_ask _ _ _ _ HI).
  - apply (stable_commit _ _ _ _ HI (on_trace (λ t, t ++ [OpCommit]) s)
                         (trace s)).
    + by apply (stable_ask _ _ _ _ HI).
    + done.
    + done.
Qed.

Lemma keeps_rows_Scan : hoare I (rows_Scan env) (λ _, I) E F.
Proof.
  intros s Hs. unfold rows_Scan, bind, ask. simpl.
  destruct (env _ _); simpl.
  - by apply HE, (stable_logs _ _ _ _ HI), (stable_ask _ _ _ _ HI).
  - by apply (stable_ask _ _ _ _ HI).
Qed.

Lemma keeps_forM {A} (l : list A) (body : A → M unit) :
  (∀ x, hoare I (body x) (λ _, I) E F) → hoare I (forM l body) (λ _, I) E F.
Proof.
  intros Hbody. induction l as [|x l IH]; simpl; [apply keeps_ret|].
  eapply hoare_bind; [apply Hbody|]. intros ?. exact IH.
Qed.

Lemma keeps_forI {A} (l : list A) (body : nat → A → M unit) i :
  (∀ i x, hoare I (body i x) (λ _, I) E F) →
  hoare I (forI i l body) (λ _, I) E F.
Proof.
  intros Hbody. revert i. induction l as [|x l IH]; intros i; simpl;
    [apply keeps_ret|].
  eapply hoare_bind; [apply Hbody|]. intros ?. apply IH.
Qed.

End Invariants.

(** A step of a proof by invariant: the first computation of a
    sequence keeps the invariant at hand. *)
Ltac keep :=
  lazymatch goal with
  | |- hoare _ (ret _) _ _ _ => eapply keeps_ret
  | |- hoare _ (log _ _ _) _ _ _ => eapply keeps_log
  | |- hoare _ (fatal _ _) _ _ _ => eapply keeps_fatal
  | |- hoare _ (exitIfError _) _ _ _ => eapply keeps_exitIfError
  | |- hoare _ (if _ then fatal _ _ else ret _) _ _ _ => eapply keeps_check
  | |- hoare _ (ask _ _) _ _ _ => eapply keeps_ask
  | |- hoare _ (sql_Open _) _ _ _ => eapply keeps_ask
  | |- hoare _ (tx_Prepare _ _) _ _ _ => eapply keeps_ask
  | |- hoare _ get_disk _ _ _ => eapply keeps_get_disk
  | |- hoare _ (db_Begin _) _ _ _ => eapply keeps_db_Begin
  | |- hoare _ (tx_Commit _) _ _ _ => eapply keeps_tx_Commit
  | |- hoare _ (rows_Scan _) _ _ _ => eapply keeps_rows_Scan
  | |- hoare _ (db_Exec _ _) _ _ _ => eapply keeps_db_Exec
  | |- hoare _ (stmt_Exec _ _) _ _ _ => eapply keeps_stmt_Exec
  end;
  try eassumption; try (by auto);
  try (match goal with
       | Hok : ∀ q, _ → ?ok q |- ?ok _ => apply Hok; exact Logic.I
       end).

Ltac keeps := repeat (eapply hoare_bind; [keep|intros ?]).

Section Loops.

Context `{Engine}.
Variable env : nat → Op → bool.
Variables FamilyCSW FamilyTWL : FamilyName.
Variables okd okt : Stmt → Prop.
Variables I E F : Session → Prop.
Hypothesis HI : Stable env okd okt I.
Hypothesis HE : ∀ s, I s → E s.
Hypothesis HF : ∀ s, I s → F s.

Lemma keeps_progress (i : nat) :
  hoare I (if Z.of_nat i mod 10000 =? 0
           then log Debug "%d..." [ArgZ (Z.of_nat i)] else ret tt)
        (λ _, I) E F.
Proof. destruct (_ =? 0); keep. Qed.

Lemma keeps_wordLoop li lc lt fam prior defs alph ws acc :
  (∀ r, okt (InsertWord r)) →
  hoare I (wordLoop env FamilyCSW FamilyTWL li lc lt fam prior defs alph ws
                    acc)
        (λ _, I) E F.
Proof.
  intros Hok. revert acc. induction ws as [|w ws IH]; intros acc; simpl.
  - keep.
  - eapply hoare_bind; [keep|]. intros ?. apply IH.
Qed.

Lemma keeps_alphLoop li lc lt fam prior defs idx alphs probs :
  (∀ r, okt (InsertWord r)) → (∀ r, okt (InsertAlph r)) →
  hoare I (alphLoop env FamilyCSW FamilyTWL li lc lt fam prior defs idx alphs
                    probs)
        (λ _, I) E F.
Proof.
  intros Hw Ha. revert idx probs.
  induction alphs as [|alph alphs IH]; intros idx probs; simpl.
  - keep.
  - eapply hoare_bind; [apply keeps_progress|]. intros ?.
    eapply hoare_bind; [by apply keeps_wordLoop|]. intros l.
    destruct (Go.index _ _) as [p|]; [|by apply (keeps_panic I E F)].
    keeps. apply IH.
Qed.

Lemma keeps_readV2 rows acc :
  hoare I (readV2 env rows acc) (λ _, I) E F.
Proof.
  revert acc. induction rows as [|[alph n] rows IH]; intros acc; simpl.
  - keep.
  - eapply hoare_bind; [keep|]. intros ?. apply IH.
Qed.

Lemma keeps_readV4 rows acc lastAlph lastList :
  hoare I (readV4 env rows acc lastAlph lastList) (λ _, I) E F.
Proof.
  revert acc lastAlph lastList.
  induction rows as [|[[word alph] symbols] rows IH];
    intros acc lastAlph lastList; simpl.
  - keep.
  - eapply hoare_bind; [keep|]. intros ?.
    destruct (bool_decide (alph ≠ lastAlph) && bool_decide (lastAlph ≠ ""));
      apply IH.
Qed.

(** The last step of every transition: the version is stored, and a
    failure to store it is fatal. *)
Lemma keeps_stamp (k : Z) (Q : Session → Prop) :
  (∀ s, I s → Q (on_disk (apply_stmt (SetVersion k)) s)) →
  hoare I (err <- db_Exec env (SetVersion k) ;; exitIfError err)
        (λ _, Q) E F.
Proof.
  intros HQ s Hs. unfold db_Exec, exitIfError, bind, ask. simpl.
  destruct (env _ _); simpl.
  - by apply HE, (stable_logs _ _ _ _ HI), (stable_ask _ _ _ _ HI).
  - by apply HQ, (stable_ask _ _ _ _ HI).
Qed.

Lemma keeps_migrateToV2 dist (Q : Session → Prop) :
  okd AlterV2 → (∀ n p v a, okt (UpdateV2 n p v a)) →
  (∀ s, I s → Q (on_disk (apply_stmt (SetVersion 2)) s)) →
  hoare I (migrateToV2 env dist) (λ _, Q) E F.
Proof.
  intros H1 H2 HQ. unfold migrateToV2.
  do 7 (eapply hoare_bind; [keep|intros ?]).
  eapply hoare_bind; [apply keeps_readV2|intros ?].
  do 2 (eapply hoare_bind; [keep|intros ?]).
  eapply hoare_bind.
  { apply keeps_forI. intros i x. keeps. apply keeps_progress. }
  intros ?. eapply hoare_bind; [keep|intros ?].
  by apply keeps_stamp.
Qed.

Lemma keeps_migrateToV3 (Q : Session → Prop) :
  okd CreateLengthIndex →
  (∀ s, I s → Q (on_disk (apply_stmt (SetVersion 3)) s)) →
  hoare I (migrateToV3 env) (λ _, Q) E F.
Proof.
  intros H1 HQ. unfold migrateToV3.
  do 2 (eapply hoare_bind; [keep|intros ?]).
  by apply keeps_stamp.
Qed.

Lemma keeps_migrateToV4 (Q : Session → Prop) :
  okd AlterV4 → (∀ u p a, okt (UpdateV4 u p a)) →
  (∀ s, I s → Q (on_disk (apply_stmt (SetVersion 4)) s)) →
  hoare I (migrateToV4 env) (λ _, Q) E F.
Proof.
  intros H1 H2 HQ. unfold migrateToV4.
  do 8 (eapply hoare_bind; [keep|intros ?]).
  eapply hoare_bind; [apply keeps_readV4|intros [[l lastAlph] lastList]].
  do 2 (eapply hoare_bind; [keep|intros ?]).
  eapply hoare_bind.
  { apply keeps_forI. intros i x. keeps. apply keeps_progress. }
  intros ?. eapply hoare_bind; [keep|intros ?].
  by apply keeps_stamp.
Qed.

Lemma keeps_migrateToV5 li (Q : Session → Prop) :
  okd AlterV5 → (∀ d a, okt (UpdateDifficulty d a)) →
  (∀ s, I s → Q (on_disk (apply_stmt (SetVersion 5)) s)) →
  hoare I (migrateToV5 env li) (λ _, Q) E F.
Proof.
  intros H1 H2 HQ. unfold migrateToV5.
  do 3 (eapply hoare_bind; [keep|intros ?]).
  eapply hoare_bind.
  { unfold loadDifficulty.
    do 7 (eapply hoare_bind; [keep|intros ?]).
    eapply hoare_bind.
    { eapply keeps_forM. intros x. keeps. keep. }
    intros ?. keep. }
  intros ?. by apply keeps_stamp.
Qed.

Lemma keeps_migrateToV6 (Q : Session → Prop) :
  okd CreateDeletedWords →
  (∀ s, I s → Q (on_disk (apply_stmt (SetVersion 6)) s)) →
  hoare I (migrateToV6 env) (λ _, Q) E F.
Proof.
  intros H1 HQ. unfold migrateToV6.
  do 3 (eapply hoare_bind; [keep|intros ?]).
  by apply keeps_stamp.
Qed.

End Loops.

(* ===================================================================== *)
(** ** Properties: what a build leaves, whatever fails *)
(* ===================================================================== *)

Section BuildInvariants.

Context `{Engine}.
Variable env : nat → Op → bool.
Variable fs : string → option (list string).
Variables FamilyCSW FamilyTWL : FamilyName.

Lemma committed_from_snoc (n : nat) (t : list Op) (o : Op) :
  committed_from env n (t ++ [o])
  = committed_from env n t
    || (is_commit o && negb (env (n + length t)%nat o)).
Proof.
  revert n. induction t as [|x t IH]; intros n; simpl.
  - by rewrite Nat.add_0_r, orb_false_r.
  - rewrite IH, orb_assoc. do 4 f_equal. lia.
Qed.

Lemma committed_snoc (t : list Op) (o : Op) :
  committed env (t ++ [o])
  = committed env t || (is_commit o && negb (env (length t) o)).
Proof. apply committed_from_snoc. Qed.

Lemma building_stable :
  Stable env (λ _, False) insert_statement (building env).
Proof.
  split; try done.
  - intros o s (Hd & Ht & Hc). split; [done|]. split; [done|].
    simpl. rewrite committed_snoc. intros [Hn _]%orb_false_elim. auto.
  - intros s (Hd & Ht & Hc). split; [done|]. split; [|done].
    simpl. by intros t [= <-].
  - intros q s Hq (Hd & Ht & Hc). split; [done|]. split; [|done].
    simpl. destruct (txn s) as [t'|]; [|done]. simpl. intros t [= <-].
    specialize (Ht t' eq_refl). by destruct q.
  - intros s tr (Hd & Ht & Hc) Htr Hok. split; [|split; [done|]]; simpl.
    + destruct (txn s) as [t'|]; simpl; [by apply Ht|done].
    + intros Hn. exfalso. rewrite Htr, committed_snoc, Hok in Hn.
      simpl in Hn. by rewrite orb_true_r in Hn.
  - intros s (Hd & Ht & Hc). by split.
Qed.

Lemma building_unfinished s : building env s → unfinished env s.
Proof.
  intros (Hd & _ & Hc). split; [|done].
  unfold stored_version. by rewrite Hd.
Qed.

Lemma build_outcome lexiconName li lexMap dbExists quitIfExists :
  quitIfExists && dbExists = false →
  hoare (λ s, txn s = None)
        (CreateLexiconDatabase env fs FamilyCSW FamilyTWL lexiconName li
                               lexMap dbExists quitIfExists)
        (λ _ s, tbl_db_version (disk s) = Some [CurrentVersion]
                ∧ (committed env (trace s) = false → no_rows (disk s)))
        (unfinished env) (unfinished env).
Proof.
  intros Hq. unfold CreateLexiconDatabase, createSqliteDb. rewrite Hq.
  pose proof building_stable as HB. pose proof building_unfinished as HE.
  eapply hoare_bind with (Q := λ _ s, txn s = None); [by intros s Hs|].
  intros ?.
  eapply hoare_bind with (Q := λ (err : bool) s, err = false ∧ building env s).
  { intros s Hs.
    unfold sql_Open, db_Exec, exitIfError, ask, log, fatal, ret, bind. simpl.
    destruct (env (length (trace s)) OpOpen); simpl; [by split|].
    destruct (env _ (OpExec CreateSchema)); simpl; [by split|].
    split; [done|]. split; [done|]. split.
    - intros t Ht. simpl in Ht. congruence.
    - intros _. by repeat split. }
  intros err s [-> Hs]. revert s Hs.
  change (hoare (building env)
    (let '(definitions, alphagrams) :=
       populateAlphsDefs fs (LexiconFilename li) (Combinations li)
                         (LetterDistribution li) in
     log Debug "Sorting by probability" [] ;;;
     let alphs := sort_Sort (alphaMapValues alphagrams) in
     let probs := replicate 16 0 in
     err <- sql_Open env ;;
     exitIfError err ;;;
     err <- db_Begin env ;;
     exitIfError err ;;;
     err <- tx_Prepare env QInsertAlph ;;
     exitIfError err ;;;
     err <- tx_Prepare env QInsertWord ;;
     exitIfError err ;;;
     match familyName lexMap lexiconName with
     | None => fatal "" []
     | Some lexFamily =>
       let latestCSW := newestInFamily lexMap FamilyCSW in
       let latestTWL := newestInFamily lexMap FamilyTWL in
       let priorLex := priorLexicon lexMap lexFamily lexiconName in
       (if priorLex is None
        then log Error "no prior lexicon, ignoring..." [] else ret tt) ;;;
       probs <- alphLoop env FamilyCSW FamilyTWL li latestCSW latestTWL
                         lexFamily priorLex definitions 0 alphs probs ;;
       tx_Commit env ;;;
       let deletedWords := findDeletedWords fs li priorLex in
       (if (0 <? length deletedWords)%nat then
          let deletedWords := sort_Strings deletedWords in
          err <- db_Begin env ;;
          exitIfError err ;;;
          err <- tx_Prepare env QInsertDeleted ;;
          exitIfError err ;;;
          forM deletedWords
               (λ word,
                  err <- stmt_Exec env (InsertDeleted word (Go.len word)) ;;
                  exitIfError err) ;;;
          tx_Commit env
        else ret tt) ;;;
       err <- db_Exec env (InsertVersion CurrentVersion) ;;
       exitIfError err ;;;
       logWordLengths probs
     end)
    (λ _ s, tbl_db_version (disk s) = Some [CurrentVersion]
            ∧ (committed env (trace s) = false → no_rows (disk s)))
    (unfinished env) (unfinished env)).
  destruct (populateAlphsDefs fs (LexiconFilename li) (Combinations li)
              (LetterDistribution li)) as [definitions alphagrams].
  do 9 (eapply hoare_bind; [keep|intros ?]).
  destruct (familyName lexMap lexiconName) as [lexFamily|]; [|keep].
  eapply hoare_bind.
  { destruct (priorLexicon lexMap lexFamily lexiconName); keep. }
  intros ?.
  eapply hoare_bind; [by eapply keeps_alphLoop|intros probs].
  eapply hoare_bind; [keep|intros ?].
  eapply hoare_bind.
  { destruct (0 <? _)%nat; [|keep].
    do 4 (eapply hoare_bind; [keep|intros ?]).
    eapply hoare_bind; [|intros ?; keep].
    eapply keeps_forM; [done..|]. intros x.
    eapply hoare_bind; [keep|intros ?]. keep. }
  intros ? s (Hd & Ht & Hc).
  unfold db_Exec, exitIfError, logWordLengths, log, bind, ask. simpl.
  destruct (env _ _); simpl.
  - split; simpl; [unfold stored_version; by rewrite Hd|].
    rewrite committed_snoc. intros [Hn _]%orb_false_elim. auto.
  - split; simpl; [by rewrite Hd|].
    rewrite committed_snoc. intros [Hn _]%orb_false_elim.
    by apply Hc.
Qed.

(** X6.  Whatever fails, a build that is not refused leaves a version
    row exactly when it returns: a run that returns has stored
    [CurrentVersion] (and nothing else) in [db_version]; a run that
    ends in [log.Fatal] or in a panic leaves no stored version. *)
Theorem version_row_marks_completion lexiconName li lexMap dbExists
    quitIfExists t0 :
  quitIfExists && dbExists = false →
  let run := CreateLexiconDatabase env fs FamilyCSW FamilyTWL lexiconName li
                                   lexMap dbExists quitIfExists (start t0) in
  match run.1 with
  | Ret _ => tbl_db_version (disk run.2) = Some [CurrentVersion]
  | _ => stored_version (disk run.2) = None
  end.
Proof.
  intros Hq run.
  pose proof (build_outcome lexiconName li lexMap dbExists quitIfExists Hq
                (start t0) eq_refl) as Hb.
  fold run in Hb. destruct run as [[[]| |] s']; simpl; by destruct Hb.
Qed.

(** X7.  Rows reach the file only through a commit that succeeds:
    whatever fails, if a build that is not refused ends without a
    successful commit (none was asked, or each one asked failed), the
    file holds no alphagram row, no word row and no deleted-word row. *)
Theorem no_rows_without_commit lexiconName li lexMap dbExists quitIfExists
    t0 :
  quitIfExists && dbExists = false →
  let run := CreateLexiconDatabase env fs FamilyCSW FamilyTWL lexiconName li
                                   lexMap dbExists quitIfExists (start t0) in
  committed env (trace run.2) = false →
  no_rows (disk run.2).
Proof.
  intros Hq run.
  pose proof (build_outcome lexiconName li lexMap dbExists quitIfExists Hq
                (start t0) eq_refl) as Hb.
  fold run in Hb. destruct run as [[[]| |] s']; simpl; by destruct Hb.
Qed.

End BuildInvariants.

Section Integrity.

Context `{Engine}.
Variable env : nat → Op → bool.
Variable fs : string → option (list string).
Variables FamilyCSW FamilyTWL : FamilyName.

Lemma allWordRows_words li defs sy alphs :
  row_word <$> allWordRows li defs sy alphs = concat (words <$> alphs).
Proof.
  induction alphs as [|x alphs IH]; [done|].
  unfold allWordRows. simpl. fold (allWordRows li defs sy alphs).
  rewrite fmap_app, IH. f_equal.
  unfold wordRowsOf. rewrite <- list_fmap_compose. apply list_fmap_id.
Qed.

Lemma allWordRows_elem li defs sy alphs r :
  r ∈ allWordRows li defs sy alphs →
  ∃ alph, alph ∈ alphs ∧ row_word r ∈ words alph
          ∧ row_word_alphagram r = alphagram alph.
Proof.
  unfold allWordRows. rewrite list_elem_of_In, in_flat_map.
  intros (alph & Halph & Hr). exists alph.
  apply list_elem_of_In in Halph. apply list_elem_of_In in Hr.
  unfold wordRowsOf in Hr. apply list_elem_of_fmap in Hr as (w & -> & Hw).
  done.
Qed.

(** X8.  The two tables of a build that runs through fit together.
    The word rows are, up to order, the words of the list, one row per
    line that has a word; every word row carries the alphagram of its
    word; the alphagram strings of the alphagram rows are pairwise
    distinct; and the alphagram strings that occur in one table are
    those that occur in the other, so that every word row joins
    exactly one alphagram row and no alphagram row is without words. *)
Theorem built_tables_join lexiconName li lexMap dbExists quitIfExists
    lexFamily s :
  never_fails env →
  quitIfExists && dbExists = false →
  familyName lexMap lexiconName = Some lexFamily →
  Forall (λ kv, (length (Go.runes kv.1) ≤ 15)%nat)
         (map_to_list (populateAlphsDefs fs (LexiconFilename li)
                         (Combinations li) (LetterDistribution li)).2) →
  ∃ s',
    CreateLexiconDatabase env fs FamilyCSW FamilyTWL lexiconName li lexMap
                          dbExists quitIfExists s = (Ret tt, s')
    ∧ row_word <$> tbl_words (disk s')
      ≡ₚ scannedWords fs (LexiconFilename li)
    ∧ (∀ r, r ∈ tbl_words (disk s') →
            row_word_alphagram r
            = MakeAlphagram (LetterDistribution li) (row_word r))
    ∧ NoDup (row_alphagram <$> tbl_alphagrams (disk s'))
    ∧ (∀ a, a ∈ row_alphagram <$> tbl_alphagrams (disk s')
            ↔ a ∈ row_word_alphagram <$> tbl_words (disk s')).
Proof.
  intros Hcalm Hq Hfam Hlen.
  pose proof (scanned_class fs (LexiconFilename li) (Combinations li)
                (LetterDistribution li)) as Hclass.
  assert (concat (words <$> alphaMapValues
                                (populateAlphsDefs fs (LexiconFilename li)
                                   (Combinations li)
                                   (LetterDistribution li)).2)
          ≡ₚ scannedWords fs (LexiconFilename li)) as Hpart
    by apply scan_words_perm.
  pose proof (scanned_keys_NoDup fs (LexiconFilename li) (Combinations li)
                (LetterDistribution li)) as Hnd.
  pose proof (scanned_classes fs (LexiconFilename li) (Combinations li)
                (LetterDistribution li)) as Hcls.
  destruct (build_calm env fs FamilyCSW FamilyTWL Hcalm lexiconName li lexMap
              dbExists quitIfExists lexFamily s Hq Hfam)
    as (s' & Hrun & _ & Hdisk).
  { apply lengths_within; [|done]. intros a alph Hl.
    apply Hclass in Hl. by subst alph. }
  exists s'. split; [exact Hrun|]. rewrite Hdisk. unfold builtTables.
  destruct (populateAlphsDefs fs (LexiconFilename li) (Combinations li)
              (LetterDistribution li)) as [definitions classes].
  simpl in *.
  match goal with
  | |- context [rankedRows li ?f ?l _] => set (sy := f); set (alphs := l)
  end.
  assert (alphs ≡ₚ alphaMapValues classes) as Hperm
    by apply sort_Sort_perm.
  assert (∀ alph, alph ∈ alphs →
            words alph ≠ []
            ∧ ∀ w, w ∈ words alph
                   → MakeAlphagram (LetterDistribution li) w = alphagram alph)
    as Hmem.
  { intros alph Halph. rewrite Hperm in Halph.
    apply elem_of_alphaMapValues in Halph as [a Ha].
    pose proof (Hclass a alph Ha) as ->. simpl.
    pose proof (Hcls a) as Hc.
    rewrite Ha in Hc. unfold classOf in Hc.
    case_bool_decide as Hm; [done|]. split; [done|].
    intros w Hw. unfold members in Hw.
    by apply list_elem_of_filter in Hw as [? _]. }
  assert (∀ probs, row_alphagram <$> rankedRows li sy alphs probs
                   = alphagram <$> alphs) as Hkeys.
  { intros probs. pose proof (rankedRows_keys li sy alphs probs) as Hk.
    apply (f_equal (fmap (λ x : string * Z * Z, x.1.1))) in Hk.
    by rewrite <- !list_fmap_compose in Hk. }
  split; [|split; [|split]].
  - rewrite allWordRows_words. rewrite <- Hpart.
    by apply concat_words_perm.
  - intros r Hr.
    apply allWordRows_elem in Hr as (alph & Halph & Hw & ->).
    symmetry. by apply (Hmem alph Halph).
  - rewrite Hkeys, Hperm. exact Hnd.
  - intros a. rewrite Hkeys. split.
    + intros (alph & -> & Halph)%list_elem_of_fmap.
      destruct (Hmem alph Halph) as [Hne _].
      destruct (words alph) as [|w ws] eqn:Hws; [done|].
      apply list_elem_of_fmap.
      exists (wordRow li definitions alph (sy w) w). split; [done|].
      unfold allWordRows. apply list_elem_of_In, in_flat_map.
      exists alph. split; [by apply list_elem_of_In|].
      apply list_elem_of_In. unfold wordRowsOf. rewrite Hws. by left.
    + intros (r & -> & Hr)%list_elem_of_fmap.
      apply allWordRows_elem in Hr as (alph & Halph & _ & ->).
      by apply list_elem_of_fmap_2.
Qed.

End Integrity.

Section Counters.

Context `{Engine}.
Variable env : nat → Op → bool.
Variables FamilyCSW FamilyTWL : FamilyName.

Lemma foldl_bump_lookup (lens : list nat) (probs : list Z) (L : nat) (p : Z) :
  Forall (λ wl, (wl ≤ 15)%nat) lens →
  probs !! L = Some p →
  0 ≤ p < 2 ^ 32 →
  foldl bump probs lens !! L
  = Some (Go.uint32 (p + Z.of_nat (length (filter (λ wl, wl = L) lens)))).
Proof.
  intros Hlens. revert probs p.
  induction Hlens as [|wl lens Hwl Hlens IH]; intros probs p Hp Hrange; simpl.
  - rewrite Hp. f_equal. unfold Go.uint32. rewrite Z.add_0_r.
    symmetry. by apply Z.mod_small.
  - rewrite filter_cons. destruct (decide (wl = L)) as [->|Hne].
    + rewrite (IH _ (Go.uint32 (p + 1))).
      * f_equal. unfold Go.uint32. rewrite Zplus_mod_idemp_l. f_equal.
        simpl length. lia.
      * rewrite bump_lookup by done. rewrite decide_True by done.
        by rewrite Hp.
      * apply Z.mod_pos_bound. lia.
    + apply IH; [|done]. by rewrite bump_lookup_ne.
Qed.

(** X9.  When nothing fails and no alphagram is longer than 15 runes,
    the loop over the sorted alphagrams returns, and the counter array
    it hands on (the one the build logs as the word lengths) holds, for
    each length from 0 to 15, the number of alphagrams of that length,
    reduced modulo 2^32. *)
Theorem counters_count_lengths li lc lt fam prior defs alphs s t (L : nat) :
  never_fails env →
  Forall (λ a, (runeLen a ≤ 15)%nat) alphs →
  txn s = Some t →
  (L ≤ 15)%nat →
  ∃ probs s',
    alphLoop env FamilyCSW FamilyTWL li lc lt fam prior defs 0 alphs
             (replicate 16 0) s = (Ret probs, s')
    ∧ probs !! L
      = Some (Go.uint32
                (Z.of_nat (length (filter (λ a, runeLen a = L) alphs)))).
Proof.
  intros Hcalm Hlens Htxn HL.
  destruct (alphLoop_calm env FamilyCSW FamilyTWL Hcalm li lc lt fam prior
              defs 0%nat alphs (replicate 16 0) s t Hlens eq_refl Htxn)
    as (s' & Hrun & _).
  eexists _, s'. split; [exact Hrun|].
  rewrite (foldl_bump_lookup _ _ L 0).
  - do 3 f_equal. rewrite Z.add_0_l. f_equal.
    clear. induction alphs as [|a alphs IH]; [done|].
    rewrite fmap_cons, !filter_cons.
    destruct (decide (runeLen a = L)); simpl; by rewrite IH.
  - by apply Forall_fmap.
  - apply lookup_replicate_2. lia.
  - lia.
Qed.

End Counters.

(* ===================================================================== *)
(** ** Properties: what a migration keeps, whatever fails *)
(* ===================================================================== *)

Section MigrationInvariants.

Context `{Engine}.
Variable env : nat → Op → bool.

Lemma row_core_fmap (f : AlphRow → AlphRow) (l : list AlphRow) :
  (∀ r, row_core (f r) = row_core r) →
  row_core <$> (f <$> l) = row_core <$> l.
Proof.
  intros Hf. rewrite <- list_fmap_compose. apply list_fmap_ext.
  intros i r _. apply Hf.
Qed.

Lemma same_rows_apply (q : Stmt) (t0 t : Tables) :
  migration_statement q → same_rows t0 t → same_rows t0 (apply_stmt q t).
Proof.
  intros Hq [Hw Ha].
  destruct q; try done; split; simpl; try done;
    (etrans; [|exact Ha]); apply row_core_fmap; intros r;
    unfold updateV2_row, updateV4_row, updateDifficulty_row;
    by destruct (decide _).
Qed.

Lemma keeps_rows_stable (t0 : Tables) :
  Stable env migration_statement migration_statement (keeps_rows t0).
Proof.
  split.
  - by intros f s.
  - by intros o s.
  - intros q s Hq [Hd Ht]. split; [by apply same_rows_apply|done].
  - intros s [Hd Ht]. split; [done|]. simpl. by intros t [= <-].
  - intros q s Hq [Hd Ht]. split; [done|]. simpl.
    destruct (txn s) as [t'|]; [|done]. simpl. intros t [= <-].
    apply same_rows_apply; [done|]. by apply Ht.
  - intros s tr [Hd Ht] _ _. split; [|done]. simpl.
    destruct (txn s) as [t'|]; simpl; [by apply Ht|done].
  - intros s [Hd Ht]. by split.
Qed.

Lemma stored_version_apply (q : Stmt) (t : Tables) :
  transition_statement q →
  stored_version (apply_stmt q t) = stored_version t.
Proof. by destruct q. Qed.

Lemma at_version_stable (v : Z) :
  Stable env transition_statement transition_statement (at_version v).
Proof.
  split.
  - by intros f s.
  - by intros o s.
  - intros q s Hq [Hd Ht]. split; [|done]. simpl.
    by rewrite stored_version_apply.
  - intros s [Hd Ht]. split; [done|]. simpl. by intros t [= <-].
  - intros q s Hq [Hd Ht]. split; [done|]. simpl.
    destruct (txn s) as [t'|]; [|done]. simpl. intros t [= <-].
    rewrite stored_version_apply by done. by apply Ht.
  - intros s tr [Hd Ht] _ _. split; [|done]. simpl.
    destruct (txn s) as [t'|]; simpl; [by apply Ht|done].
  - intros s [Hd Ht]. by split.
Qed.

Section Generic.

Variables okd okt : Stmt → Prop.
Variables I E F : Session → Prop.
Hypothesis HI : Stable env okd okt I.
Hypothesis HE : ∀ s, I s → E s.
Hypothesis Hokd : ∀ q, migration_statement q → okd q.
Hypothesis Hokt : ∀ q, migration_statement q → okt q.

Lemma keeps_queryVersion : hoare I (queryVersion env) (λ _, I) E F.
Proof. unfold queryVersion. keeps. keep. Qed.

Lemma keeps_MigrateLexiconDatabase lexiconName li :
  hoare I (MigrateLexiconDatabase env lexiconName li) (λ _, I) E F.
Proof.
  assert (∀ k s, I s → I (on_disk (apply_stmt (SetVersion k)) s)) as Hset.
  { intros k s Hs. apply (stable_exec _ _ _ _ HI); [by apply Hokd|done]. }
  unfold MigrateLexiconDatabase.
  do 2 (eapply hoare_bind; [keep|intros ?]).
  eapply hoare_bind; [apply keeps_queryVersion|intros q].
  eapply hoare_bind.
  { destruct q as [version| | |]; [|keep| |keep].
    - eapply hoare_bind;
        [destruct (version =? CurrentVersion); keep|intros ?; keep].
    - keeps. keep. }
  intros version.
  eapply hoare_bind.
  { destruct (version =? 1); [|keep].
    eapply hoare_bind; [keep|intros ?].
    eapply hoare_bind; [|intros ?; keep].
    eapply keeps_migrateToV2 with (Q := I); eauto; intros;
      (apply Hokd || apply Hokt); exact Logic.I. }
  intros ?. eapply hoare_bind.
  { destruct (version =? 2); [|keep].
    eapply hoare_bind; [keep|intros ?].
    eapply hoare_bind; [|intros ?; keep].
    eapply keeps_migrateToV3 with (Q := I); eauto; intros;
      (apply Hokd || apply Hokt); exact Logic.I. }
  intros ?. eapply hoare_bind.
  { destruct (version =? 3); [|keep].
    eapply hoare_bind; [keep|intros ?].
    eapply hoare_bind; [|intros ?; keep].
    eapply keeps_migrateToV4 with (Q := I); eauto; intros;
      (apply Hokd || apply Hokt); exact Logic.I. }
  intros ?. eapply hoare_bind.
  { destruct (version =? 4); [|keep].
    eapply hoare_bind; [keep|intros ?].
    eapply keeps_migrateToV5 with (Q := I); eauto; intros;
      (apply Hokd || apply Hokt); exact Logic.I. }
  intros ?.
  destruct (version =? 5); [|keep].
  eapply hoare_bind; [keep|intros ?].
  eapply keeps_migrateToV6 with (Q := I); eauto; intros;
    (apply Hokd || apply Hokt); exact Logic.I.
Qed.

End Generic.

(** X10.  Whatever fails and whatever version it finds, a run of the
    migrator never panics and leaves the word rows exactly as they
    were and the alphagram rows in place: none added, removed or
    reordered, and probability, alphagram, length and combinations of
    each row unchanged. *)
Theorem migration_keeps_rows lexiconName li t :
  let run := MigrateLexiconDatabase env lexiconName li (start t) in
  run.1 ≠ Panic
  ∧ tbl_words (disk run.2) = tbl_words t
  ∧ row_core <$> tbl_alphagrams (disk run.2) = row_core <$> tbl_alphagrams t.
Proof.
  intros run.
  pose proof (keeps_MigrateLexiconDatabase
                migration_statement migration_statement
                (keeps_rows t) (keeps_rows t) (λ _, False)
                (keeps_rows_stable t) (λ s Hs, Hs) (λ q Hq, Hq) (λ q Hq, Hq)
                lexiconName li (start t)) as Hk.
  fold run in Hk.
  assert (keeps_rows t (start t)) as H0 by (by split).
  specialize (Hk H0).
  destruct run as [[[]| |] s']; [| |done];
    (split; [done|]); by destruct Hk as [[? ?] _].
Qed.

Lemma queryVersion_at_version v :
  hoare (at_version v) (queryVersion env)
        (λ q s, at_version v s ∧ (q = VqOk v ∨ q = VqOther))
        (at_version v) (λ _, False).
Proof.
  intros s [Hd Ht]. unfold queryVersion, bind, ask, get_disk. simpl.
  split; [by split|].
  destruct (env _ _); [by right|]. left.
  apply stored_version_rows in Hd as [rest ->]. done.
Qed.

Lemma at_version_stamp v k s :
  at_version v s →
  stored_version (disk (on_disk (apply_stmt (SetVersion k)) s)) = Some k.
Proof.
  intros [Hd _]. apply stored_version_rows in Hd as [rest Hrows].
  unfold stored_version. simpl. by rewrite Hrows.
Qed.

(** X11.  The stored version moves by one step or not at all: a run
    that finds version [v] between 1 and 5 either returns with version
    [v + 1] stored, or exits through [log.Fatal] with version [v]
    still stored, whatever failed and however far the transition had
    got.  At version 6 the version stays 6. *)
Theorem migration_version_step lexiconName li t v :
  stored_version t = Some v →
  1 ≤ v ≤ 6 →
  let run := MigrateLexiconDatabase env lexiconName li (start t) in
  (run.1 = Ret tt
   ∧ stored_version (disk run.2) = Some (if decide (v = 6) then 6 else v + 1))
  ∨ (run.1 = Fatal ∧ stored_version (disk run.2) = Some v).
Proof.
  intros Hv Hrange run.
  set (I := at_version v).
  set (Q := λ (_ : unit) s,
         stored_version (disk s) = Some (if decide (v = 6) then 6 else v + 1)).
  assert (Stable env transition_statement transition_statement I) as HI
    by apply at_version_stable.
  assert (∀ s, I s → I s) as HE by done.
  assert (hoare I (MigrateLexiconDatabase env lexiconName li) Q I
                (λ _, False)) as Hh.
  { unfold MigrateLexiconDatabase.
    do 2 (eapply hoare_bind; [keep|intros ?]).
    eapply hoare_bind; [apply queryVersion_at_version|intros q].
    eapply hoare_bind with (Q := λ version s, I s ∧ version = v).
    { intros s [Hs [->| ->]].
      - unfold bind. simpl. destruct (v =? CurrentVersion); by simpl.
      - by simpl. }
    intros version s [Hs ->].
    assert (∀ k, stored_version (disk (on_disk (apply_stmt (SetVersion k)) s))
                 = Some k) as Hk by (intros k; by eapply at_version_stamp).
    assert (v = 1 ∨ v = 2 ∨ v = 3 ∨ v = 4 ∨ v = 5 ∨ v = 6) as Hcases by lia.
    unfold Q.
    destruct Hcases as [->|[->|[->|[->|[->| ->]]]]]; simpl.
    - unfold bind at 1. unfold bind at 1. simpl. unfold bind at 1.
      pose proof (keeps_migrateToV2 env _ _ I I (λ _, False) HI HE
                    (LetterDistribution li)
                    (λ s, stored_version (disk s) = Some 2) Logic.I
                    (λ _ _ _ _, Logic.I)
                    (λ s Hs, at_version_stamp 1 2 s Hs)
                    (on_logs (λ l, l ++ [Log Info "Migrating to version 2..."
                                             []]) s)) as Hm.
      destruct (migrateToV2 _ _ _) as [[[]| |] s1]; simpl; by apply Hm.
    - unfold bind at 1. simpl. unfold bind at 1. unfold bind at 1. simpl.
      unfold bind at 1.
      pose proof (keeps_migrateToV3 env _ _ I I (λ _, False) HI HE
                    (λ s, stored_version (disk s) = Some 3) Logic.I
                    (λ s Hs, at_version_stamp 2 3 s Hs)
                    (on_logs (λ l, l ++ [Log Info "Migrating to version 3..."
                                             []]) s)) as Hm.
      destruct (migrateToV3 _ _) as [[[]| |] s1]; simpl; by apply Hm.
    - do 2 (unfold bind at 1; simpl). unfold bind at 1. unfold bind at 1.
      simpl. unfold bind at 1.
      pose proof (keeps_migrateToV4 env _ _ I I (λ _, False) HI HE
                    (λ s, stored_version (disk s) = Some 4) Logic.I
                    (λ _ _ _, Logic.I)
                    (λ s Hs, at_version_stamp 3 4 s Hs)
                    (on_logs (λ l, l ++ [Log Info "Migrating to version 4..."
                                             []]) s)) as Hm.
      destruct (migrateToV4 _ _) as [[[]| |] s1]; simpl; by apply Hm.
    - do 3 (unfold bind at 1; simpl). unfold bind at 1. unfold bind at 1.
      simpl.
      pose proof (keeps_migrateToV5 env _ _ I I (λ _, False) HI HE li
                    (λ s, stored_version (disk s) = Some 5) Logic.I
                    (λ _ _, Logic.I)
                    (λ s Hs, at_version_stamp 4 5 s Hs)
                    (on_logs (λ l, l ++ [Log Info "Migrating to version 5..."
                                             []]) s)) as Hm.
      destruct (migrateToV5 _ _ _) as [[[]| |] s1]; simpl; by apply Hm.
    - do 4 (unfold bind at 1; simpl). unfold bind at 1. simpl.
      pose proof (keeps_migrateToV6 env _ _ I I (λ _, False) HI HE
                    (λ s, stored_version (disk s) = Some 6) Logic.I
                    (λ s Hs, at_version_stamp 5 6 s Hs)
                    (on_logs (λ l, l ++ [Log Info "Migrating to version 6..."
                                             []]) s)) as Hm.
      destruct (migrateToV6 _ _) as [[[]| |] s1]; simpl; by apply Hm.
    - unfold bind. simpl. by destruct Hs. }
  specialize (Hh (start t)). fold run in Hh.
  assert (I (start t)) as H0 by (by split).
  specialize (Hh H0).
  destruct run as [[[]| |] s']; simpl; [by left| |done].
  right. by destruct Hh.
Qed.

End MigrationInvariants.

(* ===================================================================== *)
(** ** Properties: invocations one after the other *)
(* ===================================================================== *)

Section Remigration.

Context `{Engine}.
Variable env : nat → Op → bool.
Hypothesis Hcalm : never_fails env.

Lemma migrate_step lexiconName li t v :
  stored_version t = Some v →
  1 ≤ v ≤ 6 →
  ∃ s',
    MigrateLexiconDatabase env lexiconName li (start t) = (Ret tt, s')
    ∧ if decide (v = 6) then disk s' = t
      else stored_version (disk s') = Some (v + 1).
Proof.
  intros Hv Hrange.
  destruct (stored_version_rows _ _ Hv) as [rest Hrows].
  assert (is_Some (stored_version t)) as Hsome by (by eexists).
  unfold MigrateLexiconDatabase, sql_Open, queryVersion, get_disk, ask.
  unfold exitIfError at 1.
  do 6 (unfold bind at 1; simpl; rewrite ?Hcalm; simpl).
  rewrite Hrows.
  assert (v = 1 ∨ v = 2 ∨ v = 3 ∨ v = 4 ∨ v = 5 ∨ v = 6) as Hcases by lia.
  destruct Hcases as [->|[->|[->|[->|[->| ->]]]]]; simpl.
  - repeat (unfold bind at 1; simpl).
    match goal with
    | |- context [migrateToV2 env ?d ?s0] =>
      destruct (migrateToV2_calm env Hcalm d s0) as (s1 & -> & Hmig);
        apply (migrated_from_start 2 t s0) in Hmig as [Hm _]; [|done..]
    end.
    simpl. eexists. split; [reflexivity|]. exact Hm.
  - repeat (unfold bind at 1; simpl).
    match goal with
    | |- context [migrateToV3 env ?s0] =>
      destruct (migrateToV3_calm env Hcalm s0) as (s1 & -> & Hmig);
        apply (migrated_from_start 3 t s0) in Hmig as [Hm _]; [|done..]
    end.
    simpl. eexists. split; [reflexivity|]. exact Hm.
  - repeat (unfold bind at 1; simpl).
    match goal with
    | |- context [migrateToV4 env ?s0] =>
      destruct (migrateToV4_calm env Hcalm s0) as (s1 & -> & Hmig);
        apply (migrated_from_start 4 t s0) in Hmig as [Hm _]; [|done..]
    end.
    simpl. eexists. split; [reflexivity|]. exact Hm.
  - repeat (unfold bind at 1; simpl).
    match goal with
    | |- context [migrateToV5 env ?l ?s0] =>
      destruct (migrateToV5_calm env Hcalm l s0) as (s1 & -> & Hmig);
        apply (migrated_from_start 5 t s0) in Hmig as [Hm _]; [|done..]
    end.
    simpl. eexists. split; [reflexivity|]. exact Hm.
  - repeat (unfold bind at 1; simpl).
    match goal with
    | |- context [migrateToV6 env ?s0] =>
      destruct (migrateToV6_calm env Hcalm s0) as (s1 & -> & Hmig);
        apply (migrated_from_start 6 t s0) in Hmig as [Hm _]; [|done..]
    end.
    simpl. eexists. split; [reflexivity|]. exact Hm.
  - repeat (unfold bind at 1; simpl).
    eexists. split; [reflexivity|]. simpl. by destruct t.
Qed.

(** X12.  Run again and again, the migrator walks a dataset up one
    version per invocation and then stays put: when nothing fails,
    [n] invocations on a dataset of version [v] (1 to 6) leave version
    [min 6 (v + n)], and once version 6 is reached a further
    invocation leaves the file exactly as it is. *)
Theorem repeated_migration_reaches_current lexiconName li t v (n : nat) :
  stored_version t = Some v →
  1 ≤ v ≤ 6 →
  stored_version (remigrate env lexiconName li n t)
  = Some (Z.min 6 (v + Z.of_nat n))
  ∧ (6 ≤ v + Z.of_nat n →
     remigrate env lexiconName li (S n) t = remigrate env lexiconName li n t).
Proof.
  revert t v. induction n as [|n IH]; intros t v Hv Hrange.
  - split.
    + simpl. rewrite Hv. f_equal. lia.
    + intros Hge. assert (v = 6) as -> by lia. simpl.
      destruct (migrate_step lexiconName li t 6 Hv Hrange) as (s' & -> & Hs).
      simpl. by rewrite decide_True in Hs.
  - destruct (migrate_step lexiconName li t v Hv Hrange) as (s' & Hrun & Hs).
    change (remigrate env lexiconName li (S n) t)
      with (remigrate env lexiconName li n
              (disk (MigrateLexiconDatabase env lexiconName li (start t)).2)).
    change (remigrate env lexiconName li (S (S n)) t)
      with (remigrate env lexiconName li (S n)
              (disk (MigrateLexiconDatabase env lexiconName li (start t)).2)).
    rewrite Hrun. simpl.
    destruct (decide (v = 6)) as [->|Hne].
    + rewrite Hs. destruct (IH t 6 Hv Hrange) as [IH1 IH2].
      split; [rewrite IH1; f_equal; lia|]. intros _. apply IH2. lia.
    + assert (1 ≤ v + 1 ≤ 6) as Hrange' by lia.
      destruct (IH (disk s') (v + 1) Hs Hrange') as [IH1 IH2].
      split; [rewrite IH1; f_equal; lia|]. intros Hge. apply IH2. lia.
Qed.

End Remigration.

Section Composition.

Context `{Engine}.
Variables env env' : nat → Op → bool.
Variable fs : string → option (list string).
Variables FamilyCSW FamilyTWL : FamilyName.


(** X14.  A database that a build has just completed needs no
    migration: whatever failed during the build, if it returned, then
    a run of the migrator in which nothing fails returns and leaves
    the file exactly as the build left it. *)
Theorem fresh_build_needs_no_migration lexiconName li lexMap dbExists
    quitIfExists t0 lexiconName' li' :
  quitIfExists && dbExists = false →
  never_fails env' →
  let run := CreateLexiconDatabase env fs FamilyCSW FamilyTWL lexiconName li
                                   lexMap dbExists quitIfExists (start t0) in
  run.1 = Ret tt →
  ∃ s',
    MigrateLexiconDatabase env' lexiconName' li' (start (disk run.2))
    = (Ret tt, s')
    ∧ disk s' = disk run.2.
Proof.
  intros Hq Hcalm run Hret.
  pose proof (build_outcome env fs FamilyCSW FamilyTWL lexiconName li lexMap
                dbExists quitIfExists Hq (start t0) eq_refl) as Hb.
  fold run in Hb. destruct run as [r s1]. simpl in Hret. subst r.
  destruct Hb as [Hv _]. simpl.
  assert (stored_version (disk s1) = Some 6) as Hs.
  { unfold stored_version. by rewrite Hv. }
  destruct (migrate_step env' Hcalm lexiconName' li' (disk s1) 6 Hs)
    as (s' & Hrun & Hd); [lia|].
  exists s'. split; [exact Hrun|]. by rewrite decide_True in Hd.
Qed.

End Composition.

(* ===================================================================== *)
(** ** Properties: the backfills of versions 2 and 4 *)
(* ===================================================================== *)

Section Backfill.

Context `{Engine}.
Variable env : nat → Op → bool.
Hypothesis Hcalm : never_fails env.

Lemma readV2_value rows acc s :
  ∃ s',
    readV2 env rows acc s
    = (Ret (acc ++ ((λ kn : string * Z,
                       bareAlphagram kn.1 (Go.uint8 kn.2) 0 0) <$> rows)), s')
    ∧ disk s' = disk s ∧ txn s' = txn s.
Proof.
  revert acc s. induction rows as [|[alph n] rows IH]; intros acc s; simpl.
  - rewrite app_nil_r. by eexists.
  - unfold bind at 1. unfold rows_Scan, bind at 1, ask. rewrite Hcalm. simpl.
    edestruct IH as (s' & -> & Hd & Ht).
    eexists. split; [by rewrite <- app_assoc|]. done.
Qed.

(** A loop of updates, each checked, in which nothing fails: the
    working copy receives the statements in order. *)
Lemma forI_updates {A} (stmtOf : A → Stmt) (after : nat → M unit)
    (l : list A) i s t :
  (∀ i s, ∃ s', after i s = (Ret tt, s')
                ∧ disk s' = disk s ∧ txn s' = txn s) →
  txn s = Some t →
  ∃ s',
    forI i l (λ i x, err <- stmt_Exec env (stmtOf x) ;;
                     (if err then fatal "" [] else ret tt) ;;; after i) s
    = (Ret tt, s')
    ∧ disk s' = disk s
    ∧ txn s' = Some (foldl (λ t x, apply_stmt (stmtOf x) t) t l).
Proof.
  intros Hafter. revert i s t.
  induction l as [|x l IH]; intros i s t Htxn; simpl.
  - by eexists.
  - unfold bind at 1. unfold bind at 1.
    unfold stmt_Exec at 1, bind at 1, ask at 1. rewrite Hcalm. simpl.
    unfold bind at 1. simpl.
    edestruct (Hafter i) as (s1 & -> & Hd1 & Ht1).
    edestruct (IH (S i) s1) as (s2 & -> & Hd2 & Ht2).
    { rewrite Ht1. simpl. rewrite Htxn. simpl. reflexivity. }
    eexists. split; [done|]. split; [by rewrite Hd2, Hd1|done].
Qed.

Lemma foldl_row_updates {A} (u : A → AlphRow → AlphRow) (l : list A)
    (t : Tables) :
  foldl (λ t x, set_alphagrams (fmap (M:=list) (u x)) t) t l
  = set_alphagrams (fmap (M:=list) (λ r, foldl (λ r x, u x r) r l)) t.
Proof.
  revert t. induction l as [|x l IH]; intros t; simpl.
  - destruct t. unfold set_alphagrams. simpl. f_equal.
    by rewrite list_fmap_id.
  - rewrite IH. unfold set_alphagrams. simpl. f_equal.
    by rewrite <- list_fmap_compose.
Qed.

(** Updates keyed by the alphagram string: a row takes the values of
    its own key if some statement of the list has that key, and is
    left alone otherwise. *)
Lemma keyed_updates {A} (key : A → string) (u : A → AlphRow → AlphRow)
    (f : AlphRow → AlphRow) (l : list A) (r : AlphRow) :
  (∀ x r', row_alphagram r' ≠ key x → u x r' = r') →
  (∀ x, x ∈ l → key x = row_alphagram r → u x r = f r ∧ u x (f r) = f r) →
  row_alphagram (f r) = row_alphagram r →
  foldl (λ r x, u x r) r l
  = if decide (row_alphagram r ∈ key <$> l) then f r else r.
Proof.
  intros Hother Hsame Hkey.
  assert (∀ l', (∀ x, x ∈ l' → x ∈ l) →
                foldl (λ r x, u x r) (f r) l' = f r) as Hdone.
  { induction l' as [|x l' IH]; intros Hsub; simpl; [done|].
    destruct (decide (key x = row_alphagram r)) as [Hk|Hk].
    - destruct (Hsame x) as [_ ->]; [apply Hsub; by left|done|].
      apply IH. intros y Hy. apply Hsub. by right.
    - rewrite Hother by (by rewrite Hkey). apply IH.
      intros y Hy. apply Hsub. by right. }
  revert Hsame Hdone. induction l as [|x l IH]; intros Hsame Hdone; simpl.
  - done.
  - destruct (decide (key x = row_alphagram r)) as [Hk|Hk].
    + destruct (Hsame x) as [-> _]; [by left|done|].
      rewrite decide_True by (rewrite Hk; by left).
      apply Hdone. intros y Hy. by right.
    + rewrite Hother by done. rewrite IH.
      * destruct (decide (row_alphagram r ∈ key <$> l)) as [Hin|Hin].
        -- rewrite decide_True; [done|]. by right.
        -- rewrite decide_False; [done|].
           intros [?|?]%elem_of_cons; [congruence|done].
      * intros y Hy. apply Hsame. by right.
      * intros l' Hsub. apply Hdone. intros y Hy. right. by apply Hsub.
Qed.

(** The join of [queryV2], row by row. *)
Lemma joined_count (k : string) (ws : list WordRow) (rows : list AlphRow) :
  NoDup (row_alphagram <$> rows) →
  length (filter (λ k', k' = k)
            (flat_map (λ w, flat_map (λ a,
                         if decide (row_word_alphagram w = row_alphagram a)
                         then [row_word_alphagram w] else []) rows) ws))
  = if decide (k ∈ row_alphagram <$> rows)
    then length (anagramsOf ws k) else 0%nat.
Proof.
  intros Hnd.
  assert (∀ a : string,
            length (filter (λ k', k' = k)
                      (flat_map (λ r, if decide (a = row_alphagram r)
                                      then [a] else []) rows))
            = if decide (a = k ∧ k ∈ row_alphagram <$> rows)
              then 1%nat else 0%nat) as Hinner.
  { intros a. induction rows as [|r rows IH]; simpl.
    - rewrite decide_False; [done|]. by intros [_ ?%elem_of_nil].
    - apply NoDup_cons in Hnd as [Hnotin Hnd].
      rewrite filter_app, length_app, (IH Hnd).
      destruct (decide (a = row_alphagram r)) as [->|Hne].
      + destruct (decide (row_alphagram r = k)) as [<-|Hk].
        * rewrite filter_cons_True by done. simpl.
          rewrite decide_False by (by intros [_ ?]).
          rewrite decide_True; [done|]. split; [done|by left].
        * rewrite filter_cons_False by done. simpl.
          rewrite decide_False by (by intros [? _]).
          rewrite decide_False; [done|]. by intros [? _].
      + simpl. destruct (decide (a = k ∧ k ∈ row_alphagram <$> rows))
          as [[-> Hin]|Hn].
        * rewrite decide_True; [done|]. split; [done|by right].
        * rewrite decide_False; [done|].
          intros [-> [?|?]%elem_of_cons]; [congruence|]. by apply Hn. }
  induction ws as [|w ws IH]; simpl.
  - by destruct (decide _).
  - rewrite filter_app, length_app, IH, Hinner.
    unfold anagramsOf. rewrite filter_cons.
    destruct (decide (k ∈ row_alphagram <$> rows)) as [Hin|Hin].
    + destruct (decide (row_word_alphagram w = k)) as [Hw|Hw].
      * rewrite decide_True by done. done.
      * rewrite decide_False by (by intros [? _]). done.
    + rewrite decide_False by (by intros [_ ?]). done.
Qed.

Lemma length_filter_pos {A} (P : A → Prop) `{∀ x, Decision (P x)}
    (l : list A) :
  (0 < length (filter P l))%nat ↔ ∃ x, x ∈ l ∧ P x.
Proof.
  split.
  - destruct (filter P l) as [|x l'] eqn:Hf; simpl; [lia|]. intros _.
    assert (x ∈ filter P l) as [HP Hx]%list_elem_of_filter
      by (rewrite Hf; by left).
    by exists x.
  - intros (x & Hx & HP).
    assert (x ∈ filter P l) as Hin by (by apply list_elem_of_filter).
    destruct (filter P l); [by apply elem_of_nil in Hin|simpl; lia].
Qed.

Lemma queryV2_rows (t : Tables) (r : AlphRow) :
  NoDup (row_alphagram <$> tbl_alphagrams t) →
  r ∈ tbl_alphagrams t →
  (∀ kn, kn ∈ queryV2 t → kn.1 = row_alphagram r →
         kn.2 = Z.of_nat (length (anagramsOf (tbl_words t) (row_alphagram r))))
  ∧ (row_alphagram r ∈ (queryV2 t).*1
     ↔ anagramsOf (tbl_words t) (row_alphagram r) ≠ []).
Proof.
  intros Hnd Hr. unfold queryV2.
  set (joined := flat_map _ (tbl_words t)).
  assert (row_alphagram r ∈ row_alphagram <$> tbl_alphagrams t) as Hkey
    by (by apply list_elem_of_fmap_2).
  assert (length (filter (λ k', k' = row_alphagram r) joined)
          = length (anagramsOf (tbl_words t) (row_alphagram r))) as Hcount.
  { unfold joined. rewrite joined_count by done. by rewrite decide_True. }
  split.
  - intros [k n] (k' & [= -> ->] & Hk')%list_elem_of_fmap. simpl.
    intros ->. by rewrite Hcount.
  - rewrite <- list_fmap_compose. simpl. rewrite list_fmap_id.
    rewrite (merge_sort_Permutation String.le), elem_of_remove_dups.
    assert (row_alphagram r ∈ joined
            ↔ (0 < length (filter (λ k', k' = row_alphagram r) joined))%nat)
      as ->.
    { rewrite length_filter_pos. split; [by exists (row_alphagram r)|].
      by intros (x & Hx & ->). }
    rewrite Hcount.
    destruct (anagramsOf _ _); simpl; split; (done || lia).
Qed.

Lemma migrateToV2_value dist s :
  ∃ s',
    migrateToV2 env dist s = (Ret tt, s')
    ∧ disk s'
      = apply_stmt (SetVersion 2)
          (foldl (λ t (kn : string * Z),
                    apply_stmt
                      (UpdateV2 (Go.uint8 kn.2)
                         (pointValue (bareAlphagram kn.1 (Go.uint8 kn.2) 0 0)
                                     dist)
                         (numVowels (bareAlphagram kn.1 (Go.uint8 kn.2) 0 0)
                                    dist)
                         kn.1) t)
                 (add_schema AlterV2 (disk s))
                 (queryV2 (disk s))).
Proof.
  unfold migrateToV2, db_Exec, db_Begin, tx_Prepare, tx_Commit, exitIfError,
    get_disk, ask.
  do 9 (unfold bind at 1; simpl; rewrite ?Hcalm; simpl).
  unfold bind at 1.
  match goal with
  | |- context [readV2 env ?rows ?acc ?s0] =>
    destruct (readV2_value rows acc s0) as (s1 & -> & Hd1 & Ht1)
  end.
  simpl in Hd1, Ht1.
  do 3 (unfold bind at 1; simpl; rewrite ?Hcalm; simpl).
  match goal with
  | |- context [forI 0 ?l ?body ?s0] =>
    destruct (forI_updates
                (λ alph, UpdateV2 (wordCount alph) (pointValue alph dist)
                                  (numVowels alph dist) (alphagram alph))
                (λ i, if Z.of_nat (S i) mod 10000 =? 0
                      then log Debug "%d..." [ArgZ (Z.of_nat (S i))]
                      else ret tt)
                l 0%nat s0 (add_schema AlterV2 (disk s)))
      as (s2 & Hloop & Hd2 & Ht2)
  end.
  { intros i s0. destruct (progress_log_silent i s0) as (s' & ? & ? & ? & _).
    by exists s'. }
  { simpl. exact Ht1. }
  rewrite Hloop. clear Hloop. simpl in Hd2.
  repeat (unfold bind at 1; simpl; rewrite ?Hcalm; simpl).
  eexists. split; [reflexivity|]. simpl. rewrite Ht2. simpl.
  rewrite foldl_fmap. done.
Qed.

(** X15.  When nothing fails and the alphagram strings of the table
    are distinct, the transition to version 2 returns and leaves every
    alphagram row that has words with its new columns filled in:
    [num_anagrams] is the number of its word rows reduced modulo 256
    (the count passes through a [uint8]), [point_value] and
    [num_vowels] are those of its alphagram string.  A row without
    words keeps NULL in the new columns; the word rows are untouched. *)
Theorem migrateToV2_backfills dist s :
  NoDup (row_alphagram <$> tbl_alphagrams (disk s)) →
  ∃ s',
    migrateToV2 env dist s = (Ret tt, s')
    ∧ tbl_alphagrams (disk s')
      = backfillV2 dist (tbl_words (disk s)) <$> tbl_alphagrams (disk s)
    ∧ tbl_words (disk s') = tbl_words (disk s).
Proof.
  intros Hnd. destruct (migrateToV2_value dist s) as (s' & Hrun & Hdisk).
  exists s'. split; [exact Hrun|]. rewrite Hdisk. clear Hrun Hdisk.
  set (u := λ (kn : string * Z),
         updateV2_row (Go.uint8 kn.2)
           (pointValue (bareAlphagram kn.1 (Go.uint8 kn.2) 0 0) dist)
           (numVowels (bareAlphagram kn.1 (Go.uint8 kn.2) 0 0) dist) kn.1).
  change (foldl _ (add_schema AlterV2 (disk s)) (queryV2 (disk s)))
    with (foldl (λ t kn, set_alphagrams (fmap (M:=list) (u kn)) t)
                (add_schema AlterV2 (disk s)) (queryV2 (disk s))).
  rewrite foldl_row_updates. simpl. split; [|done].
  apply list_fmap_ext. intros i r Hr. apply list_elem_of_lookup_2 in Hr.
  destruct (queryV2_rows (disk s) r Hnd Hr) as [Hcnt Hkeys].
  rewrite (keyed_updates fst u (backfillV2 dist (tbl_words (disk s)))).
  - unfold backfillV2.
    destruct (decide (row_alphagram r ∈ (queryV2 (disk s)).*1)) as [Hin|Hin].
    + done.
    + destruct (anagramsOf _ _) eqn:Ha; [done|].
      destruct Hin. apply Hkeys. congruence.
  - intros kn r' Hne. unfold u, updateV2_row. by rewrite decide_False.
  - intros kn Hkn Hk. specialize (Hcnt kn Hkn Hk).
    assert (anagramsOf (tbl_words (disk s)) (row_alphagram r) ≠ []) as Hne.
    { apply Hkeys. rewrite <- Hk. by apply list_elem_of_fmap_2. }
    unfold backfillV2.
    destruct (anagramsOf (tbl_words (disk s)) (row_alphagram r)) as [|w ws']
      eqn:Ha; [done|].
    unfold u. rewrite Hcnt, Hk. unfold updateV2_row. split; [done|].
    destruct (decide (row_alphagram r = row_alphagram r)); [|done].
    simpl. by rewrite decide_True.
  - unfold backfillV2. destruct (anagramsOf _ _); [done|].
    unfold updateV2_row. by destruct (decide _).
Qed.

End Backfill.

Section BackfillV4.

Context `{Engine}.
Variable env : nat → Op → bool.
Hypothesis Hcalm : never_fails env.

Lemma flags_perm (l l' : list string) :
  l ≡ₚ l' →
  containsWordUniqueToLexSplit l = containsWordUniqueToLexSplit l'
  ∧ containsUpdateToLex l = containsUpdateToLex l'.
Proof.
  intros Hp.
  assert (∀ l0, containsWordUniqueToLexSplit l0 = 1
                ∨ containsWordUniqueToLexSplit l0 = 0) as HU.
  { induction l0 as [|x l0 IH]; simpl; [by right|].
    destruct (_ || _); [by left|done]. }
  assert (∀ l0, containsUpdateToLex l0 = 1 ∨ containsUpdateToLex l0 = 0)
    as HP.
  { induction l0 as [|x l0 IH]; simpl; [by right|].
    destruct (Go.Contains _ _); [by left|done]. }
  assert (∀ (P : string → Prop), Exists P l ↔ Exists P l') as HE.
  { intros P. rewrite !Exists_exists. by setoid_rewrite Hp. }
  destruct (containsWordUniqueToLexSplit_spec l) as [A1 A0].
  destruct (containsWordUniqueToLexSplit_spec l') as [B1 B0].
  destruct (containsUpdateToLex_spec l) as [C1 C0].
  destruct (containsUpdateToLex_spec l') as [D1 D0].
  split.
  - destruct (HU l) as [E1|E1], (HU l') as [E2|E2]; try congruence.
    + apply A1, HE, B1 in E1. congruence.
    + apply B1, HE, A1 in E2. congruence.
  - destruct (HP l) as [E1|E1], (HP l') as [E2|E2]; try congruence.
    + apply C1, HE, D1 in E1. congruence.
    + apply D1, HE, C1 in E2. congruence.
Qed.

(** The grouping loop of [migrateToV4] over rows sorted by alphagram:
    what it appends to [alphagrams], the group still open included,
    holds every alphagram string of the rows once, each with the flags
    of all the symbol strings of that alphagram. *)
Lemma readV4_groups rows acc lastAlph lastList s :
  StronglySorted (λ x y : string * string * string, String.le x.1.2 y.1.2)
                 rows →
  Forall (λ x : string * string * string,
            String.le lastAlph x.1.2 ∧ x.1.2 ≠ "") rows →
  (lastAlph = "" → lastList = []) →
  ∃ out la ll s' groups,
    readV4 env rows acc lastAlph lastList s = (Ret (out, la, ll), s')
    ∧ disk s' = disk s ∧ txn s' = txn s
    ∧ out ++ [bareAlphagram la 0 (containsWordUniqueToLexSplit ll)
                            (containsUpdateToLex ll)]
      = acc ++ groups
    ∧ (∀ g, g ∈ groups →
         let symbols :=
           (if decide (alphagram g = lastAlph) then lastList else [])
             ++ symbolsOf (alphagram g) rows in
         uniqToLexSplit g = containsWordUniqueToLexSplit symbols
         ∧ updateToLex g = containsUpdateToLex symbols)
    ∧ (∀ k, k ∈ alphagram <$> groups
            ↔ (k = lastAlph ∧ (lastAlph ≠ "" ∨ rows = []))
              ∨ k ∈ (λ x : string * string * string, x.1.2) <$> rows).
Proof.
  intros Hsorted. revert acc lastAlph lastList s.
  induction Hsorted as [|[[w a] sy] rows Hsorted IH Hle];
    intros acc la ll s Hall Hnil; simpl.
  - eexists acc, la, ll, s, [_]. split; [done|]. split; [done|].
    split; [done|]. split; [done|]. split.
    + intros g ->%list_elem_of_singleton. simpl.
      rewrite decide_True by done. unfold symbolsOf. simpl.
      by rewrite app_nil_r.
    + intros k. simpl. rewrite list_elem_of_singleton, elem_of_nil. tauto.
  - apply Forall_cons in Hall as [[Hla Ha] Hall]. simpl in Hla, Ha.
    unfold bind at 1. unfold rows_Scan, bind at 1, ask. rewrite Hcalm. simpl.
    assert (Forall (λ x : string * string * string,
                      String.le a x.1.2 ∧ x.1.2 ≠ "") rows) as Hrest.
    { rewrite Forall_forall in Hle, Hall |- *. intros x Hx.
      split; [by apply (Hle x)|by apply (Hall x)]. }
    assert (la ≠ a → la ∉ (λ x : string * string * string, x.1.2) <$> rows)
      as Hgone.
    { intros Hne (x & -> & Hx)%list_elem_of_fmap.
      rewrite Forall_forall in Hle. specialize (Hle x Hx). simpl in Hle.
      destruct Hne. by apply (anti_symm String.le). }
    assert (∀ k, symbolsOf k ((w, a, sy) :: rows)
                 = (if decide (a = k) then [sy] else []) ++ symbolsOf k rows)
      as Hsym.
    { intros k. unfold symbolsOf. rewrite filter_cons. simpl.
      by destruct (decide (a = k)). }
    assert (∀ k, k ∉ (λ x : string * string * string, x.1.2) <$> rows →
                 symbolsOf k rows = []) as Hnone.
    { intros k Hk. unfold symbolsOf. rewrite filter_none; [done|].
      apply Forall_forall. intros x Hx Hkx. destruct Hk.
      rewrite <- Hkx.
      by apply (list_elem_of_fmap_2 (λ x : string * string * string, x.1.2)). }
    destruct (decide (a = la)) as [->|Hne].
    + rewrite bool_decide_eq_false_2 by (by intros ?). simpl.
      destruct (IH acc la (ll ++ [sy]) (on_trace (λ t, t ++ [OpScan]) s)
                   Hrest)
        as (out & la' & ll' & s' & groups & -> & Hd & Ht & Hout & Hflags
            & Hkeys); [done|].
      exists out, la', ll', s', groups. split; [done|]. split; [done|].
      split; [done|]. split; [done|]. split.
      * intros g Hg. specialize (Hflags g Hg). simpl in Hflags. simpl.
        rewrite Hsym. destruct (decide (alphagram g = la)) as [Hk|Hk].
        -- rewrite decide_True by done. by rewrite <- app_assoc in Hflags.
        -- rewrite decide_False by done. done.
      * intros k. rewrite Hkeys, ?fmap_cons, elem_of_cons. simpl.
        split; [intros [[-> _]|?]; by auto|].
        intros [[-> _]|[->|?]]; auto.
    + destruct (decide (la = "")) as [->|Hla0].
      * rewrite bool_decide_eq_true_2 by done.
        rewrite bool_decide_eq_false_2 by (by intros ?). simpl.
        rewrite (Hnil eq_refl). simpl.
        destruct (IH acc a [sy] (on_trace (λ t, t ++ [OpScan]) s) Hrest)
          as (out & la' & ll' & s' & groups & -> & Hd & Ht & Hout & Hflags
              & Hkeys); [done|].
        exists out, la', ll', s', groups. split; [done|]. split; [done|].
        split; [done|]. split; [done|]. split.
        -- intros g Hg. specialize (Hflags g Hg). simpl in Hflags. simpl.
           rewrite Hsym. rewrite decide_False.
           ++ destruct (decide (alphagram g = a)) as [Hk|Hk].
              ** by rewrite decide_True.
              ** by rewrite decide_False.
           ++ intros Hk.
              assert (alphagram g ∈ alphagram <$> groups) as Hin
                by (by apply list_elem_of_fmap_2).
              apply Hkeys in Hin as [[Hin _]|Hin]; [congruence|].
              rewrite Hk in Hin. apply list_elem_of_fmap in Hin
                as (x & Hx1 & Hx2).
              rewrite Forall_forall in Hall. by destruct (Hall x Hx2).
        -- intros k. rewrite Hkeys, ?fmap_cons, elem_of_cons. simpl.
           split; [intros [[-> _]|?]; by auto|].
           intros [[-> [?|?]]|[->|?]]; try done; auto.
      * rewrite bool_decide_eq_true_2 by done.
        rewrite bool_decide_eq_true_2 by done. simpl.
        destruct (IH (acc ++ [bareAlphagram la 0
                                (containsWordUniqueToLexSplit ll)
                                (containsUpdateToLex ll)])
                     a [sy] (on_trace (λ t, t ++ [OpScan]) s) Hrest)
          as (out & la' & ll' & s' & groups & -> & Hd & Ht & Hout & Hflags
              & Hkeys); [done|].
        eexists out, la', ll', s', (_ :: groups).
        split; [done|]. split; [done|]. split; [done|].
        split; [by rewrite Hout, <- app_assoc|]. split.
        -- intros g [->|Hg]%elem_of_cons; simpl.
           ++ rewrite decide_True by done. rewrite Hsym.
              rewrite decide_False by done.
              rewrite Hnone by (apply Hgone; congruence).
              by rewrite app_nil_r.
           ++ specialize (Hflags g Hg). simpl in Hflags.
              rewrite Hsym. rewrite decide_False.
              ** destruct (decide (alphagram g = a)) as [Hk|Hk].
                 --- by rewrite decide_True.
                 --- by rewrite decide_False.
              ** intros Hk.
                 assert (alphagram g ∈ alphagram <$> groups) as Hin
                   by (by apply list_elem_of_fmap_2).
                 apply Hkeys in Hin as [[Hin _]|Hin]; [congruence|].
                 rewrite Hk in Hin. apply Hgone in Hin; [done|congruence].
        -- intros k. rewrite ?fmap_cons, !elem_of_cons, Hkeys. simpl.
           split.
           ++ intros [->|[[-> _]|?]]; auto.
           ++ intros [[-> _]|[->|?]]; auto.
Qed.

Lemma le_empty (a : string) : String.le "" a.
Proof. unfold String.le, String.leb. by destruct a. Qed.

Lemma queryV4_sorted (t : Tables) :
  StronglySorted (λ x y : string * string * string, String.le x.1.2 y.1.2)
                 (queryV4 t).
Proof.
  unfold queryV4.
  set (R := λ x y : WordRow,
         String.le (row_word_alphagram x) (row_word_alphagram y)).
  assert (Total R) as Htot.
  { intros x y. apply (total String.le). }
  assert (Transitive R) as Htrans.
  { intros x y z. unfold R. apply transitivity. }
  pose proof (Sorted_StronglySorted _ _ (Sorted_merge_sort R (tbl_words t)))
    as Hs.
  induction Hs as [|x l Hs IH Hx]; simpl; constructor; [done|].
  apply Forall_fmap. eapply Forall_impl; [exact Hx|]. by intros y.
Qed.

Lemma queryV4_perm (t : Tables) :
  queryV4 t
  ≡ₚ (λ w, (row_word w, row_word_alphagram w, row_lexicon_symbols w))
       <$> tbl_words t.
Proof. unfold queryV4. by rewrite merge_sort_Permutation. Qed.

Lemma symbolsOf_perm (k : string) (t : Tables) :
  symbolsOf k (queryV4 t)
  ≡ₚ row_lexicon_symbols <$> anagramsOf (tbl_words t) k.
Proof.
  unfold symbolsOf. rewrite queryV4_perm. unfold anagramsOf.
  induction (tbl_words t) as [|w ws IH]; simpl; [done|].
  rewrite !filter_cons. simpl.
  destruct (decide (row_word_alphagram w = k)); simpl; by rewrite IH.
Qed.

Lemma migrateToV4_value s :
  Forall (λ w, row_word_alphagram w ≠ "") (tbl_words (disk s)) →
  ∃ s' groups,
    migrateToV4 env s = (Ret tt, s')
    ∧ disk s'
      = apply_stmt (SetVersion 4)
          (foldl (λ t g, apply_stmt (UpdateV4 (uniqToLexSplit g)
                                              (updateToLex g) (alphagram g)) t)
                 (add_schema AlterV4 (disk s)) groups)
    ∧ (∀ g, g ∈ groups →
         uniqToLexSplit g
         = containsWordUniqueToLexSplit
             (row_lexicon_symbols
                <$> anagramsOf (tbl_words (disk s)) (alphagram g))
         ∧ updateToLex g
           = containsUpdateToLex
               (row_lexicon_symbols
                  <$> anagramsOf (tbl_words (disk s)) (alphagram g)))
    ∧ (∀ k, k ∈ alphagram <$> groups
            ↔ (k = "" ∧ tbl_words (disk s) = [])
              ∨ k ∈ row_word_alphagram <$> tbl_words (disk s)).
Proof.
  intros Hkeys.
  unfold migrateToV4, db_Exec, db_Begin, tx_Prepare, tx_Commit, exitIfError,
    get_disk, ask.
  do 10 (unfold bind at 1; simpl; rewrite ?Hcalm; simpl).
  unfold bind at 1.
  change (queryV4 (add_schema AlterV4 (disk s))) with (queryV4 (disk s)).
  match goal with
  | |- context [readV4 env ?rows ?acc ?la ?ll ?s0] =>
    destruct (readV4_groups rows acc la ll s0)
      as (out & la' & ll' & s1 & groups & -> & Hd1 & Ht1 & Hout & Hflags
          & Hgk)
  end.
  { apply queryV4_sorted. }
  { rewrite queryV4_perm. apply Forall_fmap.
    eapply Forall_impl; [exact Hkeys|]. intros w Hw. simpl.
    split; [apply le_empty|done]. }
  { done. }
  simpl in Hd1, Ht1, Hout.
  do 3 (unfold bind at 1; simpl; rewrite ?Hcalm; simpl).
  rewrite Hout.
  match goal with
  | |- context [forI 0 groups ?body ?s0] =>
    destruct (forI_updates env Hcalm
                (λ alph, UpdateV4 (uniqToLexSplit alph) (updateToLex alph)
                                  (alphagram alph))
                (λ i, if Z.of_nat (S i) mod 10000 =? 0
                      then log Debug "%d..." [ArgZ (Z.of_nat (S i))]
                      else ret tt)
                groups 0%nat s0 (add_schema AlterV4 (disk s)))
      as (s2 & Hloop & Hd2 & Ht2)
  end.
  { intros i s0. destruct (progress_log_silent i s0) as (s' & ? & ? & ? & _).
    by exists s'. }
  { simpl. exact Ht1. }
  rewrite Hloop. clear Hloop. simpl in Hd2.
  repeat (unfold bind at 1; simpl; rewrite ?Hcalm; simpl).
  eexists _, groups. split; [reflexivity|]. simpl. rewrite Ht2. simpl.
  split; [done|]. split.
  - intros g Hg. specialize (Hflags g Hg). simpl in Hflags.
    assert ((if decide (alphagram g = "") then [] else [] : list string) = [])
      as Hnil by (by destruct (decide _)).
    rewrite Hnil in Hflags. simpl in Hflags.
    destruct (flags_perm _ _ (symbolsOf_perm (alphagram g) (disk s)))
      as [HU HP].
    by rewrite <- HU, <- HP.
  - intros k. rewrite Hgk.
    assert ((λ x : string * string * string, x.1.2) <$> queryV4 (disk s)
            ≡ₚ row_word_alphagram <$> tbl_words (disk s)) as Hp.
    { rewrite queryV4_perm, <- list_fmap_compose. done. }
    rewrite Hp.
    assert (queryV4 (disk s) = [] ↔ tbl_words (disk s) = []) as Hempty.
    { split.
      - intros Hq. pose proof (queryV4_perm (disk s)) as Hpq.
        rewrite Hq in Hpq. apply Permutation_nil in Hpq.
        by apply fmap_nil_inv in Hpq.
      - intros Hw. unfold queryV4. by rewrite Hw. }
    rewrite Hempty. split.
    + intros [[-> [?|?]]|?]; [done|by left|by right].
    + intros [[-> ?]|?]; [left; split; [done|by right]|by right].
Qed.

(** X16.  When nothing fails and no word row has an empty alphagram
    string, the transition to version 4 returns and leaves every
    alphagram row that has words with its two flags computed from the
    symbol strings of exactly those words; a row without words keeps
    NULL in both columns (in a dataset without any word row, a row
    whose alphagram string is empty gets 0 and 0).  The word rows are
    untouched. *)
Theorem migrateToV4_backfills s :
  Forall (λ w, row_word_alphagram w ≠ "") (tbl_words (disk s)) →
  ∃ s',
    migrateToV4 env s = (Ret tt, s')
    ∧ tbl_alphagrams (disk s')
      = backfillV4 (tbl_words (disk s)) <$> tbl_alphagrams (disk s)
    ∧ tbl_words (disk s') = tbl_words (disk s).
Proof.
  intros Hkeys.
  destruct (migrateToV4_value s Hkeys)
    as (s' & groups & Hrun & Hdisk & Hflags & Hgk).
  exists s'. split; [exact Hrun|]. rewrite Hdisk. clear Hrun Hdisk.
  set (u := λ g : Alphagram,
         updateV4_row (uniqToLexSplit g) (updateToLex g) (alphagram g)).
  change (foldl _ (add_schema AlterV4 (disk s)) groups)
    with (foldl (λ t g, set_alphagrams (fmap (M:=list) (u g)) t)
                (add_schema AlterV4 (disk s)) groups).
  rewrite foldl_row_updates. simpl. split; [|done].
  apply list_fmap_ext. intros i r Hr.
  set (ws := tbl_words (disk s)) in *.
  assert (row_alphagram r ∈ row_word_alphagram <$> ws
          ↔ anagramsOf ws (row_alphagram r) ≠ []) as Hhas.
  { unfold anagramsOf. split.
    - intros (w & Hw & Hin)%list_elem_of_fmap Hnil.
      assert (w ∈ filter (λ w, row_word_alphagram w = row_alphagram r) ws)
        as Hf by (by apply list_elem_of_filter).
      rewrite Hnil in Hf. by apply elem_of_nil in Hf.
    - intros Hne.
      destruct (filter _ ws) as [|w l] eqn:Hf; [done|].
      assert (w ∈ filter (λ w, row_word_alphagram w = row_alphagram r) ws)
        as [Hw Hin]%list_elem_of_filter by (rewrite Hf; by left).
      rewrite <- Hw. by apply list_elem_of_fmap_2. }
  rewrite (keyed_updates alphagram u (backfillV4 ws)).
  - destruct (decide (row_alphagram r ∈ alphagram <$> groups)) as [Hin|Hin];
      [done|].
    unfold backfillV4.
    destruct (anagramsOf ws (row_alphagram r)) as [|w l] eqn:Ha; simpl.
    + destruct ws as [|w0 ws0] eqn:Hws; [|done].
      unfold updateV4_row. rewrite decide_False; [done|].
      intros Hk. destruct Hin. apply Hgk. left. by split.
    + destruct Hin. apply Hgk. right. apply Hhas. congruence.
  - intros g r' Hne. unfold u, updateV4_row. by rewrite decide_False.
  - intros g Hg Hk. destruct (Hflags g Hg) as [HU HP].
    unfold u. rewrite HU, HP, Hk. unfold backfillV4.
    destruct (anagramsOf ws (row_alphagram r)) as [|w l] eqn:Ha; simpl.
    + assert (row_alphagram r ∈ alphagram <$> groups) as Hin.
      { rewrite <- Hk. by apply list_elem_of_fmap_2. }
      apply Hgk in Hin as [[Hk0 Hws]|Hin].
      * rewrite Hws, Hk0. unfold updateV4_row. split; [done|].
        destruct (decide (row_alphagram r = "")); [|done]. simpl.
        by rewrite decide_True.
      * apply Hhas in Hin. congruence.
    + unfold updateV4_row. split; [done|].
      destruct (decide (row_alphagram r = row_alphagram r)); [|done].
      simpl. by rewrite decide_True.
  - unfold backfillV4.
    destruct (row_lexicon_symbols <$> anagramsOf ws (row_alphagram r));
      [destruct ws|]; unfold updateV4_row; by try destruct (decide _).
Qed.

End BackfillV4.

(* ===================================================================== *)
(** ** Runs of the further properties *)
(* ===================================================================== *)

Section FurtherRuns.

Import Sample SampleData Runs Faults.
Local Existing Instance engine.

(** [findLexSymbols_shape] at the word ZAX of the sample, which the
    prior edition and the latest CSW edition lack. *)
Lemma findLexSymbols_shape_witness :
  FamilyCSW ≠ FamilyTWL
  ∧ findLexSymbols FamilyCSW FamilyTWL "ZAX" csw cur FamilyTWL (Some old)
    = "+$"
  ∧ let symbols :=
      findLexSymbols FamilyCSW FamilyTWL "ZAX" csw cur FamilyTWL (Some old) in
    symbols ∈ [""; "+"; "#"; "$"; "+#"; "+$"]
    ∧ (Go.Contains symbols "#" = true → FamilyTWL = FamilyCSW)
    ∧ (Go.Contains symbols "$" = true → FamilyTWL = FamilyTWL)
    ∧ (Go.Contains symbols "+" = true → is_Some (Some old)).
Proof.
  assert (FamilyCSW ≠ FamilyTWL) as Hne
    by (apply (bool_decide_unpack _); vm_compute; exact I).
  split; [exact Hne|]. split; [vm_compute; reflexivity|].
  exact (findLexSymbols_shape FamilyCSW FamilyTWL "ZAX" csw cur FamilyTWL
           (Some old) Hne).
Defined.

(** [ranking_order_is_unique] at the sample's current edition: sorting
    the classes as the map yields them and sorting them in the reverse
    order give the same list. *)
Lemma ranking_order_is_unique_witness :
  let values :=
    alphaMapValues (populateAlphsDefs files "cur.txt" (Combinations cur)
                                      dist).2 in
  sort_Sort values ≡ₚ values
  ∧ Sorted not_after (sort_Sort values)
  ∧ sort_Sort (reverse values) ≡ₚ values
  ∧ Sorted not_after (sort_Sort (reverse values))
  ∧ sort_Sort values = sort_Sort (reverse values).
Proof.
  intros values.
  assert (sort_Sort values ≡ₚ values) as H1
    by (apply (bool_decide_unpack _); vm_compute; exact I).
  assert (Sorted not_after (sort_Sort values)) as H2
    by (apply (bool_decide_unpack _); vm_compute; exact I).
  assert (sort_Sort (reverse values) ≡ₚ values) as H3
    by (apply (bool_decide_unpack _); vm_compute; exact I).
  assert (Sorted not_after (sort_Sort (reverse values))) as H4
    by (apply (bool_decide_unpack _); vm_compute; exact I).
  split; [exact H1|]. split; [exact H2|]. split; [exact H3|].
  split; [exact H4|].
  exact (ranking_order_is_unique files "cur.txt" (Combinations cur) dist
           (sort_Sort values) (sort_Sort (reverse values)) H1 H2 H3 H4).
Defined.

(** [version_row_marks_completion] at the build of the sample in which
    the insert of the alphagram AXZ fails. *)
Lemma version_row_marks_completion_witness :
  false && false = false
  ∧ match (build (alph_insert_fails "AXZ") cur lexMap).1 with
    | Ret _ =>
      tbl_db_version (disk (build (alph_insert_fails "AXZ") cur lexMap).2)
      = Some [CurrentVersion]
    | _ =>
      stored_version (disk (build (alph_insert_fails "AXZ") cur lexMap).2)
      = None
    end.
Proof.
  split; [reflexivity|].
  exact (version_row_marks_completion (alph_insert_fails "AXZ") files
           FamilyCSW FamilyTWL "X" cur lexMap false false emptyTables
           eq_refl).
Defined.

(** [no_rows_without_commit] at the build of the sample in which every
    commit fails: the build returns and stamps the version, and the
    file holds no row. *)
Lemma no_rows_without_commit_witness :
  false && false = false
  ∧ committed commit_fails (trace (build commit_fails cur lexMap).2) = false
  ∧ (build commit_fails cur lexMap).1 = Ret tt
  ∧ stored_version (disk (build commit_fails cur lexMap).2)
    = Some CurrentVersion
  ∧ no_rows (disk (build commit_fails cur lexMap).2).
Proof.
  split; [reflexivity|].
  assert (committed commit_fails (trace (build commit_fails cur lexMap).2)
          = false) as Hc by (vm_compute; reflexivity).
  split; [exact Hc|]. split; [vm_compute; reflexivity|].
  split; [vm_compute; reflexivity|].
  exact (no_rows_without_commit commit_fails files FamilyCSW FamilyTWL "X"
           cur lexMap false false emptyTables eq_refl Hc).
Defined.

(** [built_tables_join] at the sample's current edition. *)
Lemma built_tables_join_witness :
  never_fails calm
  ∧ false && false = false
  ∧ familyName lexMap "X" = Some FamilyTWL
  ∧ Forall (λ kv : string * Alphagram, (length (Go.runes kv.1) ≤ 15)%nat)
           (map_to_list (populateAlphsDefs files (LexiconFilename cur)
                           (Combinations cur) (LetterDistribution cur)).2)
  ∧ ∃ s',
      build calm cur lexMap = (Ret tt, s')
      ∧ row_word <$> tbl_words (disk s')
        ≡ₚ scannedWords files (LexiconFilename cur)
      ∧ (∀ r, r ∈ tbl_words (disk s') →
              row_word_alphagram r
              = MakeAlphagram (LetterDistribution cur) (row_word r))
      ∧ NoDup (row_alphagram <$> tbl_alphagrams (disk s'))
      ∧ (∀ a, a ∈ row_alphagram <$> tbl_alphagrams (disk s')
              ↔ a ∈ row_word_alphagram <$> tbl_words (disk s')).
Proof.
  split; [exact calm_never_fails|]. split; [reflexivity|].
  split; [reflexivity|]. split; [exact cur_lengths_within|].
  exact (built_tables_join calm files FamilyCSW FamilyTWL "X" cur lexMap
           false false FamilyTWL (start emptyTables)
           calm_never_fails eq_refl eq_refl cur_lengths_within).
Defined.

(** [counters_count_lengths] at the three alphagrams of the sample,
    all of length 3. *)
Lemma counters_count_lengths_witness :
  let alphs :=
    sort_Sort (alphaMapValues
                 (populateAlphsDefs files "cur.txt" (Combinations cur)
                                    dist).2) in
  let s := on_txn (λ _, Some emptyTables) (start emptyTables) in
  never_fails calm
  ∧ Forall (λ a, (runeLen a ≤ 15)%nat) alphs
  ∧ txn s = Some emptyTables
  ∧ (3 ≤ 15)%nat
  ∧ length (filter (λ a, runeLen a = 3%nat) alphs) = 3%nat
  ∧ ∃ probs s',
      alphLoop calm FamilyCSW FamilyTWL cur csw cur FamilyTWL (Some old) ∅
               0 alphs (replicate 16 0) s = (Ret probs, s')
      ∧ probs !! 3%nat
        = Some (Go.uint32
                  (Z.of_nat (length (filter (λ a, runeLen a = 3%nat) alphs)))).
Proof.
  intros alphs s.
  assert (Forall (λ a, (runeLen a ≤ 15)%nat) alphs) as Hlen
    by (apply (bool_decide_unpack _); vm_compute; exact I).
  assert ((3 ≤ 15)%nat) as H3 by lia.
  split; [exact calm_never_fails|]. split; [exact Hlen|].
  split; [reflexivity|]. split; [exact H3|].
  split; [vm_compute; reflexivity|].
  exact (counters_count_lengths calm FamilyCSW FamilyTWL cur csw cur
           FamilyTWL (Some old) ∅ alphs s emptyTables 3 calm_never_fails
           Hlen eq_refl H3).
Defined.

(** [migration_version_step] at a dataset of version 1 and a run in
    which the query of the word counts fails: the run is fatal and the
    version is still 1. *)
Lemma migration_version_step_witness :
  stored_version (legacy (Some [1])) = Some 1
  ∧ 1 ≤ 1 ≤ 6
  ∧ (migrate count_query_fails (legacy (Some [1]))).1 = Fatal
  ∧ (((migrate count_query_fails (legacy (Some [1]))).1 = Ret tt
      ∧ stored_version (disk (migrate count_query_fails
                                (legacy (Some [1]))).2)
        = Some (if decide (1 = 6) then 6 else 1 + 1))
     ∨ ((migrate count_query_fails (legacy (Some [1]))).1 = Fatal
        ∧ stored_version (disk (migrate count_query_fails
                                  (legacy (Some [1]))).2)
          = Some 1)).
Proof.
  assert (1 ≤ 1 ≤ 6) as Hr by lia.
  split; [reflexivity|]. split; [exact Hr|].
  split; [vm_compute; reflexivity|].
  exact (migration_version_step count_query_fails "X" cur
           (legacy (Some [1])) 1 eq_refl Hr).
Defined.

(** [repeated_migration_reaches_current] at a dataset of version 3 and
    five invocations. *)
Lemma repeated_migration_reaches_current_witness :
  never_fails calm
  ∧ stored_version (legacy (Some [3])) = Some 3
  ∧ 1 ≤ 3 ≤ 6
  ∧ stored_version (remigrate calm "X" cur 5 (legacy (Some [3])))
    = Some (Z.min 6 (3 + Z.of_nat 5))
  ∧ (6 ≤ 3 + Z.of_nat 5 →
     remigrate calm "X" cur 6 (legacy (Some [3]))
     = remigrate calm "X" cur 5 (legacy (Some [3]))).
Proof.
  assert (1 ≤ 3 ≤ 6) as Hr by lia.
  split; [exact calm_never_fails|]. split; [reflexivity|].
  split; [exact Hr|].
  exact (repeated_migration_reaches_current calm calm_never_fails "X" cur
           (legacy (Some [3])) 3 5 eq_refl Hr).
Defined.

(** [fresh_build_needs_no_migration] at the build of the sample in
    which every insert of the word ZAX fails. *)
Lemma fresh_build_needs_no_migration_witness :
  false && false = false
  ∧ never_fails calm
  ∧ (build (word_insert_fails "ZAX") cur lexMap).1 = Ret tt
  ∧ ∃ s',
      migrate calm (disk (build (word_insert_fails "ZAX") cur lexMap).2)
      = (Ret tt, s')
      ∧ disk s' = disk (build (word_insert_fails "ZAX") cur lexMap).2.
Proof.
  assert ((build (word_insert_fails "ZAX") cur lexMap).1 = Ret tt) as Hr
    by (vm_compute; reflexivity).
  split; [reflexivity|]. split; [exact calm_never_fails|].
  split; [exact Hr|].
  exact (fresh_build_needs_no_migration (word_insert_fails "ZAX") calm files
           FamilyCSW FamilyTWL "X" cur lexMap false false emptyTables "X" cur
           eq_refl calm_never_fails Hr).
Defined.

(** [migrateToV2_backfills] at the sample dataset of the oldest schema:
    the alphagram ACT has two words. *)
Lemma migrateToV2_backfills_witness :
  never_fails calm
  ∧ NoDup (row_alphagram <$> tbl_alphagrams (disk (start (legacy (Some [1])))))
  ∧ ∃ s',
      migrateToV2 calm dist (start (legacy (Some [1]))) = (Ret tt, s')
      ∧ tbl_alphagrams (disk s')
        = backfillV2 dist (tbl_words (disk (start (legacy (Some [1]))))) <$>
            tbl_alphagrams (disk (start (legacy (Some [1]))))
      ∧ tbl_words (disk s') = tbl_words (disk (start (legacy (Some [1])))).
Proof.
  assert (NoDup (row_alphagram
                   <$> tbl_alphagrams (disk (start (legacy (Some [1]))))))
    as Hnd by (apply (bool_decide_unpack _); vm_compute; exact I).
  split; [exact calm_never_fails|]. split; [exact Hnd|].
  exact (migrateToV2_backfills calm calm_never_fails dist
           (start (legacy (Some [1]))) Hnd).
Defined.

(** [migrateToV4_backfills] at the sample dataset of the oldest schema. *)
Lemma migrateToV4_backfills_witness :
  never_fails calm
  ∧ Forall (λ w, row_word_alphagram w ≠ "")
           (tbl_words (disk (start (legacy (Some [3])))))
  ∧ ∃ s',
      migrateToV4 calm (start (legacy (Some [3]))) = (Ret tt, s')
      ∧ tbl_alphagrams (disk s')
        = backfillV4 (tbl_words (disk (start (legacy (Some [3]))))) <$>
            tbl_alphagrams (disk (start (legacy (Some [3]))))
      ∧ tbl_words (disk s') = tbl_words (disk (start (legacy (Some [3])))).
Proof.
  assert (Forall (λ w, row_word_alphagram w ≠ "")
                 (tbl_words (disk (start (legacy (Some [3]))))))
    as Hk by (apply (bool_decide_unpack _); vm_compute; exact I).
  split; [exact calm_never_fails|]. split; [exact Hk|].
  exact (migrateToV4_backfills calm calm_never_fails
           (start (legacy (Some [3]))) Hk).
Defined.

End FurtherRuns.
